(** * jerry: a small JSON tokenizer and parser (jerry.py)

    Shallow embedding of [jerry.py] and the properties of its cursor
    reader ([Stream]), tokenizer and recursive-descent parser.

    Modelling conventions.
    - A Python [int] is a [Z]; the cursor of a [Stream] is a [Z] and the
      indexing [data[i]] follows Python (negative indices count from the
      end, anything out of range raises [IndexError]).
    - A character is a code point in U+0000..U+00FF ([ascii]); on that
      range [str.isspace] and [str.isnumeric] are the tables below.
    - A Python [float] is an IEEE 754 binary64, a [spec_float] of the
      Standard Library at precision 53 and maximal exponent 1024;
      [float(text)] is the binary64 nearest to the number the decimal
      text denotes, ties to even, and [inf] beyond the largest float.
    - Exceptions are values of [exn]; a function of the program that
      works on a stream is a state-and-exception computation [M T A].
    - Python's [while True] loops are fixpoints on a fuel argument; the
      functions of the program supply enough fuel for the stream they
      are given, and the fuel never runs out ([tokenize_total],
      [parse_total]).  Interpreter limits (recursion depth, the digit
      limit of [int]) are not modelled.
    - [parse_num] is never called and [main] only reads the file, calls
      [tokenize] and [parse] ([run]) and prints the tree; neither the
      command line nor the printing is modelled. *)

From Stdlib Require Import ZArith String Ascii List Bool Lia QArith SpecFloat.
Import ListNotations.
Open Scope Z_scope.

(** ** Python objects that occur as tokens, and exceptions *)

(** A token is a Python [str] (one punctuation character, or a string
    literal with its quotes), an [int] or a [float]. *)
Inductive token : Type :=
| TStr (s : string)
| TInt (n : Z)
| TFloat (x : spec_float).

(** The messages of the [ValueError]s the program raises. *)
Inductive message : Type :=
| UnexpectedChar (c : ascii) (index : Z)   (* Unexpected char 'c' at index 'i' *)
| InvalidNumeric (index : Z)               (* Invalid numeric at index 'i' *)
| Expected (expected actual : token)       (* Expected 'e', got 'a' *)
| UnexpectedValue (tok : token)            (* Unexpected JSON value: 't' *)
| UnexpectedTokenNumber (index : Z)        (* Unexpected token number 'i' *)
| UnexpectedTokenAtEnd (tok : option token)(* Unexpected token at end of file: 't' *)
| InvalidLiteral (text : string).          (* raised by int() and float() *)

Inductive exn : Type :=
| IndexError
| AttributeError
| TypeError
| ValueError (m : message).

Inductive outcome (A : Type) : Type :=
| Ok (a : A)
| Raise (e : exn)
| OutOfFuel.
Arguments Ok {A} a.
Arguments Raise {A} e.
Arguments OutOfFuel {A}.

(** The number a finite [float] is; [None] for [inf] and [nan]. *)
Definition float_value (x : spec_float) : option Q :=
  match x with
  | S754_zero _ => Some 0%Q
  | S754_finite s m e => Some (inject_Z (cond_Zopp s (Zpos m)) * Qpower 2 e)%Q
  | S754_infinity _ | S754_nan => None
  end.

(** [x == y] on two floats, and [n == x] on an [int] and a [float]:
    the numbers are compared exactly. *)
Definition float_eqb (x y : spec_float) : bool :=
  match x, y with
  | S754_infinity s, S754_infinity t => Bool.eqb s t
  | _, _ =>
      match float_value x, float_value y with
      | Some p, Some q => Qeq_bool p q
      | _, _ => false
      end
  end.

Definition int_float_eqb (n : Z) (x : spec_float) : bool :=
  match float_value x with
  | Some q => Qeq_bool (inject_Z n) q
  | None => false
  end.

(** [a == b] on the objects above. *)
Definition py_eq (a b : token) : bool :=
  match a, b with
  | TStr s, TStr t => String.eqb s t
  | TInt n, TInt m => Z.eqb n m
  | TFloat p, TFloat q => float_eqb p q
  | TInt n, TFloat q => int_float_eqb n q
  | TFloat q, TInt n => int_float_eqb n q
  | _, _ => false
  end.

(** The element types of the two streams: characters and tokens. *)
Class Element (T : Type) : Type := {
  elem_eqb : T -> T -> bool;     (* == *)
  elem_obj : T -> token          (* the element as a Python object *)
}.

#[export] Instance Element_char : Element ascii :=
  {| elem_eqb := Ascii.eqb; elem_obj := fun c => TStr (String c EmptyString) |}.

#[export] Instance Element_token : Element token :=
  {| elem_eqb := py_eq; elem_obj := fun t => t |}.

(** ** Helpers: class Stream *)

Record Stream (T : Type) : Type := mkStream {
  _data : list T;
  _cursor : Z;
  _end : Z
}.
Arguments mkStream {T} _ _ _.
Arguments _data {T} _.
Arguments _cursor {T} _.
Arguments _end {T} _.

(** [Stream.__init__] *)
Definition Stream_init {T} (data : list T) : Stream T :=
  {| _data := data; _cursor := 0; _end := Z.of_nat (length data) |}.

(** [data[i]] *)
Definition getitem {T} (data : list T) (i : Z) : option T :=
  let n := Z.of_nat (length data) in
  let j := if i <? 0 then i + n else i in
  if (j <? 0) || (n <=? j) then None else nth_error data (Z.to_nat j).

(** Computations on a stream that may raise. *)
Definition M (T A : Type) : Type := Stream T -> outcome (A * Stream T).

Definition ret {T A} (a : A) : M T A := fun s => Ok (a, s).

Definition bind {T A B} (m : M T A) (k : A -> M T B) : M T B :=
  fun s => match m s with
           | Ok (a, s') => k a s'
           | Raise e => Raise e
           | OutOfFuel => OutOfFuel
           end.

Definition raise {T A} (e : exn) : M T A := fun _ => Raise e.

Definition get_cursor {T} : M T Z := fun s => Ok (_cursor s, s).

Definition get_end {T} : M T Z := fun s => Ok (_end s, s).

Declare Scope py_scope.
Delimit Scope py_scope with py.
Notation "x <- m ;; k" := (bind m (fun x => k))
  (at level 61, m at next level, right associativity) : py_scope.
Notation "m ;; k" := (bind m (fun _ => k))
  (at level 61, right associativity) : py_scope.
Open Scope py_scope.

(** [Stream.peek] *)
Definition peek {T} : M T (option T) := fun s =>
  if (_cursor s <? 0) || (_cursor s >=? _end s) then Ok (None, s)
  else match getitem (_data s) (_cursor s) with
       | Some x => Ok (Some x, s)
       | None => Raise IndexError
       end.

(** [self._cursor += k] *)
Definition advance {T} (s : Stream T) (k : Z) : Stream T :=
  {| _data := _data s; _cursor := _cursor s + k; _end := _end s |}.

(** [Stream.next] *)
Definition next {T} : M T T := fun s =>
  match getitem (_data s) (_cursor s) with
  | Some x => Ok (x, advance s 1)
  | None => Raise IndexError
  end.

Arguments peek {T} _ : simpl never.
Arguments next {T} _ : simpl never.

(** [consume] *)
Definition consume {T} `{Element T} (expected : T) : M T unit :=
  actual <- next ;;
  if negb (elem_eqb actual expected)
  then raise (ValueError (Expected (elem_obj expected) (elem_obj actual)))
  else ret tt.

(** The states a reader goes through: [_end] is the length of the data
    (set by [__init__], never assigned again) and the cursor stays
    between 0 and the end. *)
Definition wf {T} (s : Stream T) : Prop :=
  _end s = Z.of_nat (length (_data s)) /\ 0 <= _cursor s <= _end s.

(** The elements a reader has not read yet. *)
Definition rest {T} (s : Stream T) : list T :=
  skipn (Z.to_nat (_cursor s)) (_data s).

(** ** Characters *)

Definition code (c : ascii) : Z := Z.of_N (N_of_ascii c).

(** [str.isspace] on U+0000..U+00FF *)
Definition isspace (c : ascii) : bool :=
  let n := code c in
  ((9 <=? n) && (n <=? 13)) || ((28 <=? n) && (n <=? 32))
  || (n =? 133) || (n =? 160).

(** [str.isnumeric] on U+0000..U+00FF: the digits, the superscripts
    one, two and three, and the three vulgar fractions. *)
Definition isnumeric (c : ascii) : bool :=
  let n := code c in
  ((48 <=? n) && (n <=? 57))
  || (n =? 178) || (n =? 179) || (n =? 185)
  || ((188 <=? n) && (n <=? 190)).

(** The characters [int] and [float] read as decimal digits. *)
Definition isdecimal (c : ascii) : bool :=
  let n := code c in (48 <=? n) && (n <=? 57).

Definition digit_value (c : ascii) : Z := code c - 48.

Definition decimal_value (l : list ascii) : Z :=
  fold_left (fun acc c => 10 * acc + digit_value c) l 0.

(** [int(joined)], for a text of numeric characters. *)
Definition py_int (joined : list ascii) : outcome Z :=
  match joined with
  | [] => Raise (ValueError (InvalidLiteral (string_of_list_ascii joined)))
  | _ => if forallb isdecimal joined then Ok (decimal_value joined)
         else Raise (ValueError (InvalidLiteral (string_of_list_ascii joined)))
  end.

Fixpoint split_dot (l : list ascii) : list ascii * option (list ascii) :=
  match l with
  | [] => ([], None)
  | c :: r => if Ascii.eqb c "."%char then ([], Some r)
              else let (a, b) := split_dot r in (c :: a, b)
  end.

(** The quotient [p / q] of a natural number by a positive one, as a
    binary64: the float nearest to it, ties to even, [0.0] below half
    of the smallest float and [inf] beyond the largest. *)
Definition binary64_div (p q : Z) : spec_float :=
  let '(m, e, l) := SFdiv_core_binary 53 1024 p 0 q 0 in
  binary_round_aux 53 1024 false m e l.
Arguments binary64_div p q : simpl never.

(** The [float] of decimal digits, the last [n] of them behind the
    point. *)
Definition float_of_decimal (digits : list ascii) (n : nat) : spec_float :=
  binary64_div (decimal_value digits) (10 ^ Z.of_nat n).
Arguments float_of_decimal digits n : simpl never.

(** [float(joined)], for a text of numeric characters with at most one
    dot: the digits before and after the dot, read as a decimal
    fraction and rounded to the nearest float. *)
Definition py_float (joined : list ascii) : outcome spec_float :=
  let (ip, frac) := split_dot joined in
  let fp := match frac with Some f => f | None => [] end in
  match ip ++ fp with
  | [] => Raise (ValueError (InvalidLiteral (string_of_list_ascii joined)))
  | digits =>
      if forallb isdecimal digits
      then Ok (float_of_decimal digits (length fp))
      else Raise (ValueError (InvalidLiteral (string_of_list_ascii joined)))
  end.

Definition lift {T A B} (o : outcome A) (f : A -> B) : M T B := fun s =>
  match o with
  | Ok a => Ok (f a, s)
  | Raise e => Raise e
  | OutOfFuel => OutOfFuel
  end.

Definition out_of_fuel {T A} : M T A := fun _ => OutOfFuel.

(** Fuel for the loops that read characters: every iteration that goes
    on has taken one character. *)
Definition fuel_of {T} (s : Stream T) : nat := S (length (_data s)).
Arguments fuel_of {T} s : simpl never.

(** Run a loop with the fuel [measure] gives for the current state. *)
Definition with_fuel {T A} (measure : Stream T -> nat) (loop : nat -> M T A) : M T A :=
  fun s => loop (measure s) s.

(** [skip_whitespace] *)
Fixpoint skip_whitespace_loop (fuel : nat) : M ascii unit :=
  match fuel with
  | O => out_of_fuel
  | S n =>
      char <- peek ;;
      match char with
      | None => ret tt
      | Some c => if isspace c then (next ;; skip_whitespace_loop n) else ret tt
      end
  end.

Definition skip_whitespace : M ascii unit :=
  with_fuel fuel_of skip_whitespace_loop.

(** ** Tokenizer *)

(** The quote character, U+0022. *)
Definition quote : ascii := Ascii false true false false false true false false.

(** [s] between quotes. *)
Definition quoted (s : string) : string :=
  String quote (String.append s (String quote EmptyString)).
Definition dot : ascii := "."%char.

(** The loop of [tokenize_str]; [chars] is the list [string]. *)
Fixpoint tokenize_str_loop (fuel : nat) (chars : list ascii) : M ascii (list ascii) :=
  match fuel with
  | O => out_of_fuel
  | S n =>
      char <- next ;;
      let chars := chars ++ [char] in
      if Ascii.eqb char quote then ret chars else tokenize_str_loop n chars
  end.

(** [tokenize_str] *)
Definition tokenize_str : M ascii string :=
  consume quote ;;
  chars <- with_fuel fuel_of (fun fuel => tokenize_str_loop fuel [quote]) ;;
  ret (string_of_list_ascii chars).

(** The loop of [tokenize_num]. *)
Fixpoint tokenize_num_loop (fuel : nat) (num : list ascii) (is_float : bool)
  : M ascii (list ascii * bool) :=
  match fuel with
  | O => out_of_fuel
  | S n =>
      char <- peek ;;
      match char with
      | None => raise AttributeError          (* None.isnumeric() *)
      | Some c =>
          if isnumeric c then
            (x <- next ;; tokenize_num_loop n (num ++ [x]) is_float)
          else if Ascii.eqb c dot then
            if is_float then
              (i <- get_cursor ;; raise (ValueError (InvalidNumeric i)))
            else
              (x <- next ;; tokenize_num_loop n (num ++ [x]) true)
          else ret (num, is_float)
      end
  end.

(** [tokenize_num] *)
Definition tokenize_num : M ascii token :=
  r <- with_fuel fuel_of (fun fuel => tokenize_num_loop fuel [] false) ;;
  let (joined, is_float) := r in
  if is_float then lift (py_float joined) TFloat
  else lift (py_int joined) TInt.

(** [char in "{}[]:,"] *)
Definition is_punct (c : ascii) : bool :=
  existsb (Ascii.eqb c) (list_ascii_of_string "{}[]:,").

(** One iteration of the loop of [tokenize]: [None] when it breaks,
    the token it appends otherwise. *)
Definition tokenize_body : M ascii (option token) :=
  skip_whitespace ;;
  cur <- get_cursor ;;
  e <- get_end ;;
  if cur >=? e then ret None
  else
    char <- peek ;;
    match char with
    | None => raise TypeError                 (* None in "{}[]:," *)
    | Some c =>
        if is_punct c then
          (t <- next ;; ret (Some (TStr (String t EmptyString))))
        else if Ascii.eqb c quote then
          (t <- tokenize_str ;; ret (Some (TStr t)))
        else if isnumeric c then
          (t <- tokenize_num ;; ret (Some t))
        else
          (i <- get_cursor ;; raise (ValueError (UnexpectedChar c i)))
    end.

Fixpoint tokenize_loop (fuel : nat) (tokens : list token) : M ascii (list token) :=
  match fuel with
  | O => out_of_fuel
  | S n =>
      r <- tokenize_body ;;
      match r with
      | None => ret tokens
      | Some token => tokenize_loop n (tokens ++ [token])
      end
  end.

(** [tokenize] *)
Definition tokenize : M ascii (list token) :=
  with_fuel fuel_of (fun fuel => tokenize_loop fuel []).

(** ** Parser *)

Set Warnings "-register-all".

(** The parsed tree: [dict], [list], [str], [int] and [float] objects.
    A [dict] keeps its keys in insertion order. *)
Inductive value : Type :=
| VDict (d : list (string * value))
| VList (l : list value)
| VStr (s : string)
| VInt (n : Z)
| VFloat (x : spec_float).

Definition value_of_token (t : token) : value :=
  match t with
  | TStr s => VStr s
  | TInt n => VInt n
  | TFloat x => VFloat x
  end.

(** [d[k] = v] on an insertion-ordered dict: a key that is present
    keeps its place and gets the new value, a new key goes last. *)
Fixpoint dict_set {V} (k : string) (v : V) (d : list (string * V)) : list (string * V) :=
  match d with
  | [] => [(k, v)]
  | (k', v') :: r =>
      if String.eqb k' k then (k', v) :: r else (k', v') :: dict_set k v r
  end.

(** [d[k]], [None] for a [KeyError]. *)
Fixpoint dict_get {V} (k : string) (d : list (string * V)) : option V :=
  match d with
  | [] => None
  | (k', v') :: r => if String.eqb k' k then Some v' else dict_get k r
  end.

Definition keys {V} (d : list (string * V)) : list string := map fst d.

(** [s[1:-1]] *)
Definition slice_1_m1 (s : string) : string :=
  string_of_list_ascii (removelast (tl (list_ascii_of_string s))).

(** [parse_str]; slicing an [int] or a [float] raises [TypeError]. *)
Definition parse_str : M token string :=
  t <- next ;;
  match t with
  | TStr s => ret (slice_1_m1 s)
  | _ => raise TypeError
  end.

(** [tok == s] for the result [tok] of a peek and a string [s]. *)
Definition is_str (tok : option token) (s : string) : bool :=
  match tok with
  | Some t => py_eq t (TStr s)
  | None => false
  end.

(** The body of [parse_dict], around its loop. *)
Definition parse_dict_with (loop : list (string * value) -> M token (list (string * value)))
  : M token value :=
  consume (TStr "{") ;;
  dict_ <- loop [] ;;
  consume (TStr "}") ;;
  ret (VDict dict_).

(** The body of [parse_list], around its loop. *)
Definition parse_list_with (loop : list value -> M token (list value)) : M token value :=
  consume (TStr "[") ;;
  list_ <- loop [] ;;
  consume (TStr "]") ;;
  ret (VList list_).

(** [parse_value] and the loops of [parse_dict] and [parse_list]. *)
Fixpoint parse_value (fuel : nat) : M token value :=
  match fuel with
  | O => out_of_fuel
  | S n =>
      token <- peek ;;
      if is_str token "{" then parse_dict_with (parse_dict_loop n)
      else if is_str token "[" then parse_list_with (parse_list_loop n)
      else match token with
           | None => raise TypeError          (* None[0] *)
           | Some (TStr EmptyString) => raise IndexError
           | Some (TStr (String c r)) =>
               if Ascii.eqb c quote then (x <- parse_str ;; ret (VStr x))
               else raise (ValueError (UnexpectedValue (TStr (String c r))))
           | Some _ => t <- next ;; ret (value_of_token t)
           end
  end
with parse_dict_loop (fuel : nat) (dict_ : list (string * value))
  : M token (list (string * value)) :=
  match fuel with
  | O => out_of_fuel
  | S n =>
      key <- parse_str ;;
      consume (TStr ":") ;;
      value <- parse_value n ;;
      let dict_ := dict_set key value dict_ in
      tok <- peek ;;
      if is_str tok "," then (next ;; parse_dict_loop n dict_) else ret dict_
  end
with parse_list_loop (fuel : nat) (list_ : list value) : M token (list value) :=
  match fuel with
  | O => out_of_fuel
  | S n =>
      tok <- peek ;;
      if negb (is_str tok "]") then
        v <- parse_value n ;;
        let list_ := list_ ++ [v] in
        tok <- peek ;;
        if is_str tok "," then (next ;; parse_list_loop n list_) else ret list_
      else ret list_
  end.

(** [parse_dict] *)
Definition parse_dict (fuel : nat) : M token value :=
  parse_dict_with (parse_dict_loop fuel).

(** [parse_list] *)
Definition parse_list (fuel : nat) : M token value :=
  parse_list_with (parse_list_loop fuel).

(** Fuel for the parser: two units per token are enough. *)
Definition parse_fuel {T} (s : Stream T) : nat := 2 * length (_data s) + 2.
Arguments parse_fuel {T} s : simpl never.

(** [parse] *)
Definition parse : M token value :=
  token <- peek ;;
  tree <- (if is_str token "{" then with_fuel parse_fuel parse_dict
           else if is_str token "[" then with_fuel parse_fuel parse_list
           else (i <- get_cursor ;; raise (ValueError (UnexpectedTokenNumber i)))) ;;
  cur <- get_cursor ;;
  e <- get_end ;;
  if cur <? e then (t <- peek ;; raise (ValueError (UnexpectedTokenAtEnd t)))
  else ret tree.

(** The two calls of [main]: [tokenize(Stream(data))], then
    [parse(Stream(tokens))]. *)
Definition run (data : string) : outcome value :=
  match tokenize (Stream_init (list_ascii_of_string data)) with
  | Ok (tokens, _) =>
      match parse (Stream_init tokens) with
      | Ok (tree, _) => Ok tree
      | Raise e => Raise e
      | OutOfFuel => OutOfFuel
      end
  | Raise e => Raise e
  | OutOfFuel => OutOfFuel
  end.

(** [tokenize(Stream(data))] *)
Definition tokens_of (data : string) : outcome (list token) :=
  match tokenize (Stream_init (list_ascii_of_string data)) with
  | Ok (tokens, _) => Ok tokens
  | Raise e => Raise e
  | OutOfFuel => OutOfFuel
  end.

(** [parse(Stream(tokens))] *)
Definition parse_tokens (tokens : list token) : outcome value :=
  match parse (Stream_init tokens) with
  | Ok (tree, _) => Ok tree
  | Raise e => Raise e
  | OutOfFuel => OutOfFuel
  end.


(** ** Sample texts *)

(** An opening quote, then [abc]. *)
Definition text_unterminated : string := String quote "abc".

(** [[1, ] and then the same. *)
Definition text_unterminated_in_list : string :=
  String.append "[1, " text_unterminated.

(** An object with the key [a] twice, values 1 and 2. *)
Definition text_duplicate_key : string :=
  String.append "{"
    (String.append (quoted "a")
       (String.append ":1," (String.append (quoted "a") ":2}"))).

(** The same with the key [b], value 3, in between. *)
Definition text_duplicate_key_apart : string :=
  String.append "{"
    (String.append (quoted "a")
       (String.append ":1,"
          (String.append (quoted "b")
             (String.append ":3," (String.append (quoted "a") ":2}"))))).

(** ** Predicates used in the statements *)

(** [loop_state data s tokens]: the loop of [tokenize], run on [data],
    is at the start of an iteration with reader state [s] and the list
    [tokens] built so far. *)
Inductive loop_state (data : list ascii) : Stream ascii -> list token -> Prop :=
| loop_start : loop_state data (Stream_init data) []
| loop_next s tokens token s' :
    loop_state data s tokens ->
    tokenize_body s = Ok (Some token, s') ->
    loop_state data s' (tokens ++ [token]).

(** The top-level trees: a [dict] or a [list]. *)
Definition is_container (v : value) : bool :=
  match v with
  | VDict _ | VList _ => true
  | _ => false
  end.

(** [tokens] is read by [parse_value], from its first to its last
    token, as the value [v]. *)
Definition value_tokens (tokens : list token) (v : value) : Prop :=
  exists fuel s', parse_value fuel (Stream_init tokens) = Ok (v, s')
                  /\ _cursor s' = Z.of_nat (length tokens).

(** An entry of an object: the token of the key, the tokens of the
    value, and the value. *)
Definition entry : Type := string * list token * value.

Definition entry_key (e : entry) : string := slice_1_m1 (fst (fst e)).
Definition entry_value (e : entry) : value := snd e.
Definition entry_ok (e : entry) : Prop := value_tokens (snd (fst e)) (snd e).

(** The tokens of the entries, with a comma between two entries. *)
Fixpoint entries_tokens (es : list entry) : list token :=
  match es with
  | [] => []
  | (k, ts, _) :: es' =>
      TStr k :: TStr ":" :: ts
      ++ match es' with
         | [] => []
         | _ :: _ => TStr "," :: entries_tokens es'
         end
  end.

Definition object_tokens (es : list entry) : list token :=
  TStr "{" :: entries_tokens es ++ [TStr "}"].

(** The dict the entries build, one [dict_[key] = value] after the
    other. *)
Definition dict_from (es : list entry) (d : list (string * value)) : list (string * value) :=
  fold_left (fun d e => dict_set (entry_key e) (entry_value e) d) es d.

Definition dict_of (es : list entry) : list (string * value) := dict_from es [].

(** The keys in the order in which they are first seen. *)
Definition first_seen (ks acc : list string) : list string :=
  fold_left (fun acc k => if existsb (String.eqb k) acc then acc else acc ++ [k]) ks acc.

(** ** Predicates used in the proofs *)

(** [post m s Q]: run on [s], [m] does not run out of fuel, and when it
    returns [a] in state [s'], [Q a s'] holds. *)
Definition post {T A} (m : M T A) (s : Stream T) (Q : A -> Stream T -> Prop) : Prop :=
  match m s with
  | Ok (a, s') => Q a s'
  | Raise _ => True
  | OutOfFuel => False
  end.

(** [s'] is a later state of the reader [s]. *)
Definition follows {T} (s s' : Stream T) : Prop :=
  wf s' /\ _data s' = _data s /\ _cursor s <= _cursor s'.

Ltac follows_tac :=
  unfold follows in *; intuition (try congruence; try lia).

(** The reader [s'] has the unread elements of [s], then [post]. *)
Definition ext {T} (post : list T) (s s' : Stream T) : Prop :=
  wf s /\ wf s' /\ rest s' = rest s ++ post.

(** What [m] returns on a reader it returns on every reader with more
    elements behind. *)
Definition ssim {T A} (m : M T A) : Prop :=
  forall post s s' a s1,
    ext post s s' -> m s = Ok (a, s1) ->
    follows s s1 /\ exists s1', m s' = Ok (a, s1') /\ ext post s1 s1'.

(** The same, for the runs of [m] that do not end at the end of the
    data. *)
Definition wsim {T A} (m : M T A) : Prop :=
  forall post s s' a s1,
    ext post s s' -> m s = Ok (a, s1) ->
    follows s s1 /\
    (rest s1 <> [] -> exists s1', m s' = Ok (a, s1') /\ ext post s1 s1').

(** [m] returns only when the reader is not at the end. *)
Definition needs {T A} (m : M T A) : Prop :=
  forall s a s1, wf s -> m s = Ok (a, s1) -> rest s <> [].

(** [m'] does what [m] does, whenever [m] has enough fuel. *)
Definition le_fuel {T A} (m m' : M T A) : Prop :=
  forall s, m s <> OutOfFuel -> m' s = m s.

(** ** Lexemes *)

(** [l] without its longest prefix of elements that satisfy [p]. *)
Fixpoint dropwhile {A} (p : A -> bool) (l : list A) : list A :=
  match l with
  | [] => []
  | x :: r => if p x then dropwhile p r else l
  end.

(** The tokens [tokenize] builds: a punctuation character, a string
    literal (a quote, characters other than the quote, a quote), an
    [int] or a [float] that is not negative. *)
Definition float_nonneg (x : spec_float) : bool :=
  match x with
  | S754_zero false | S754_finite false _ _ | S754_infinity false => true
  | _ => false
  end.

Definition token_ok (t : token) : bool :=
  match t with
  | TStr s =>
      match list_ascii_of_string s with
      | [] => false
      | [c] => is_punct c
      | c :: r =>
          Ascii.eqb c quote && Ascii.eqb (last r c) quote
          && negb (existsb (Ascii.eqb quote) (removelast r))
      end
  | TInt n => 0 <=? n
  | TFloat x => float_nonneg x
  end.

(** A lexeme: a punctuation character, the body of a string literal,
    the digits of an integer, or the digits before and after the dot of
    a float. *)
Inductive lexeme : Type :=
| LPunct (c : ascii)
| LStr (body : list ascii)
| LInt (digits : list ascii)
| LFloat (digits frac : list ascii).

(** The characters of a lexeme. *)
Definition lexeme_text (l : lexeme) : list ascii :=
  match l with
  | LPunct c => [c]
  | LStr body => quote :: body ++ [quote]
  | LInt d => d
  | LFloat d f => d ++ dot :: f
  end.

Definition lexeme_ok (l : lexeme) : bool :=
  match l with
  | LPunct c => is_punct c
  | LStr body => negb (existsb (Ascii.eqb quote) body)
  | LInt d => negb (Nat.eqb (length d) 0) && forallb isdecimal d
  | LFloat d f =>
      negb (Nat.eqb (length d) 0) && forallb isdecimal d && forallb isdecimal f
  end.

(** The token of a lexeme. *)
Definition lexeme_token (l : lexeme) : token :=
  match l with
  | LPunct c => TStr (String c EmptyString)
  | LStr body => TStr (string_of_list_ascii (quote :: body ++ [quote]))
  | LInt d => TInt (decimal_value d)
  | LFloat d f => TFloat (float_of_decimal (d ++ f) (length f))
  end.

Definition is_number (l : lexeme) : bool :=
  match l with
  | LInt _ | LFloat _ _ => true
  | _ => false
  end.

(** A layout: lexemes, each with the whitespace written after it. *)
Definition layout : Type := list (lexeme * list ascii).

Fixpoint layout_text (items : layout) : list ascii :=
  match items with
  | [] => []
  | (l, ws) :: r => lexeme_text l ++ ws ++ layout_text r
  end.

(** Every lexeme is well formed, only whitespace stands between them,
    and a number is followed by whitespace or by a lexeme that is not a
    number. *)
Fixpoint layout_ok (items : layout) : bool :=
  match items with
  | [] => true
  | (l, ws) :: r =>
      lexeme_ok l && forallb isspace ws
      && (negb (is_number l) || negb (Nat.eqb (length ws) 0)
          || match r with
             | (l', _) :: _ => negb (is_number l')
             | [] => false
             end)
      && layout_ok r
  end.

Definition layout_tokens (items : layout) : list token :=
  map (fun i => lexeme_token (fst i)) items.

(** An item of an array: the tokens of the value, and the value. *)
Definition item : Type := list token * value.

Definition item_ok (i : item) : Prop := value_tokens (fst i) (snd i).

(** The tokens of the items, with a comma between two items. *)
Fixpoint items_tokens (items : list item) : list token :=
  match items with
  | [] => []
  | (ts, _) :: r =>
      ts ++ match r with
            | [] => []
            | _ :: _ => TStr "," :: items_tokens r
            end
  end.

(** The tokens of an array, with a comma before the closing bracket
    when [comma] is set. *)
Definition array_tokens (items : list item) (comma : bool) : list token :=
  TStr "[" :: items_tokens items
  ++ (if comma then [TStr ","] else []) ++ [TStr "]"].

(** ** Documents *)

(** A document as it is written: numbers by their digits, strings by
    their characters, arrays and objects by their parts. *)
Inductive doc : Type :=
| DInt (digits : list ascii)
| DFloat (digits frac : list ascii)
| DStr (body : list ascii)
| DList (items : list doc)
| DDict (entries : list (list ascii * doc)).

(** The lists [ls] one after the other, with [sep] between two. *)
Fixpoint sep_concat {A} (sep : A) (ls : list (list A)) : list A :=
  match ls with
  | [] => []
  | x :: r =>
      x ++ match r with
           | [] => []
           | _ :: _ => sep :: sep_concat sep r
           end
  end.

(** The lexemes a document is written with. *)
Fixpoint doc_lexemes (d : doc) : list lexeme :=
  match d with
  | DInt ds => [LInt ds]
  | DFloat ds f => [LFloat ds f]
  | DStr b => [LStr b]
  | DList items =>
      LPunct "[" :: sep_concat (LPunct ",") (map doc_lexemes items) ++ [LPunct "]"]
  | DDict entries =>
      LPunct "{"
      :: sep_concat (LPunct ",")
           (map (fun e => LStr (fst e) :: LPunct ":" :: doc_lexemes (snd e)) entries)
      ++ [LPunct "}"]
  end.

(** The value a document stands for: a float stands for the binary64
    nearest to its decimal text; in an object a later entry with the
    same key replaces the value of the earlier one. *)
Fixpoint doc_value (d : doc) : value :=
  match d with
  | DInt ds => VInt (decimal_value ds)
  | DFloat ds f => VFloat (float_of_decimal (ds ++ f) (length f))
  | DStr b => VStr (string_of_list_ascii b)
  | DList items => VList (map doc_value items)
  | DDict entries =>
      VDict (fold_left (fun acc kv => dict_set (fst kv) (snd kv) acc)
               (map (fun e => (string_of_list_ascii (fst e), doc_value (snd e))) entries)
               [])
  end.

(** Well-formed documents: digits are decimal digits, with one at least
    before the dot; no quote inside a string or a key; every object, at
    the top or nested at any depth, has at least one entry (the program
    accepts no empty object). *)
Fixpoint doc_ok (d : doc) : bool :=
  match d with
  | DInt ds => lexeme_ok (LInt ds)
  | DFloat ds f => lexeme_ok (LFloat ds f)
  | DStr b => lexeme_ok (LStr b)
  | DList items => forallb doc_ok items
  | DDict entries =>
      negb (Nat.eqb (length entries) 0)
      && forallb (fun e => lexeme_ok (LStr (fst e)) && doc_ok (snd e)) entries
  end.

Definition doc_container (d : doc) : bool :=
  match d with
  | DList _ | DDict _ => true
  | _ => false
  end.

Definition doc_tokens (d : doc) : list token := map lexeme_token (doc_lexemes d).

(** An entry of an object of a document, as an [entry]. *)
Definition doc_entry (e : list ascii * doc) : entry :=
  (string_of_list_ascii (quote :: fst e ++ [quote]),
   doc_tokens (snd e), doc_value (snd e)).


(** The exceptions [tokenize] lets out: the [IndexError] of [next],
    the [AttributeError] of [None.isnumeric()], and the [ValueError]s
    "Unexpected char", "Invalid numeric" and that of [int] and
    [float]. *)
Definition tokenize_exn (e : exn) : bool :=
  match e with
  | IndexError | AttributeError => true
  | ValueError (UnexpectedChar _ _) => true
  | ValueError (InvalidNumeric _) => true
  | ValueError (InvalidLiteral _) => true
  | _ => false
  end.

(** The keys of a list are pairwise different. *)
Fixpoint distinct (ks : list string) : bool :=
  match ks with
  | [] => true
  | k :: r => negb (existsb (String.eqb k) r) && distinct r
  end.

(** Every [dict] of the tree, at any depth, has at least one key, and
    no key twice. *)
Fixpoint value_ok (v : value) : bool :=
  match v with
  | VDict d =>
      match d with [] => false | _ :: _ => true end
      && distinct (keys d)
      && forallb (fun kv => value_ok (snd kv)) d
  | VList l => forallb value_ok l
  | _ => true
  end.

Definition dict_inv (d : list (string * value)) : Prop :=
  distinct (keys d) = true /\ forallb (fun kv => value_ok (snd kv)) d = true.

(** ** The reader *)

Lemma wf_init {T} (data : list T) : wf (Stream_init data).
Proof. unfold wf, Stream_init; simpl. lia. Qed.

Lemma rest_init {T} (data : list T) : rest (Stream_init data) = data.
Proof. reflexivity. Qed.

Lemma getitem_nth {T} (data : list T) (i : Z) :
  0 <= i -> getitem data i = nth_error data (Z.to_nat i).
Proof.
  intros Hi. unfold getitem.
  destruct (Z.ltb_spec i 0); [lia|].
  destruct (Z.ltb_spec i 0); [lia|]. simpl.
  destruct (Z.leb_spec (Z.of_nat (length data)) i); [|reflexivity].
  symmetry. apply nth_error_None. lia.
Qed.

Lemma getitem_rest {T} (s : Stream T) :
  wf s -> getitem (_data s) (_cursor s) = hd_error (rest s).
Proof.
  intros [_ [H0 _]]. rewrite getitem_nth by assumption. unfold rest.
  generalize (Z.to_nat (_cursor s)) as n. generalize (_data s) as l.
  induction l as [|x l IH]; intros [|n]; simpl; auto.
Qed.

Lemma length_rest {T} (s : Stream T) :
  wf s -> Z.of_nat (length (rest s)) = _end s - _cursor s.
Proof.
  intros [He Hc]. unfold rest. rewrite length_skipn. lia.
Qed.

Lemma peek_rest {T} (s : Stream T) :
  wf s -> peek s = Ok (hd_error (rest s), s).
Proof.
  intros Hwf. pose proof (length_rest s Hwf) as Hl.
  pose proof (getitem_rest s Hwf) as Hg.
  destruct Hwf as [He Hc]. unfold peek.
  destruct (Z.ltb_spec (_cursor s) 0); [lia|]. simpl.
  unfold Z.geb. destruct (Z.compare_spec (_cursor s) (_end s)) as [E|E|E].
  - destruct (rest s); [reflexivity | simpl in Hl; lia].
  - rewrite Hg. destruct (rest s); [simpl in Hl; lia | reflexivity].
  - lia.
Qed.

Lemma wf_advance {T} (s : Stream T) x r :
  wf s -> rest s = x :: r -> wf (advance s 1) /\ rest (advance s 1) = r.
Proof.
  intros Hwf Hr. pose proof (length_rest s Hwf) as Hl.
  rewrite Hr in Hl. simpl length in Hl.
  destruct Hwf as [He Hc]. split.
  - unfold wf, advance; simpl. lia.
  - unfold rest, advance in *; simpl.
    replace (Z.to_nat (_cursor s + 1)) with (S (Z.to_nat (_cursor s))) by lia.
    revert Hr. generalize (Z.to_nat (_cursor s)) as n. generalize (_data s) as l.
    induction l as [|y l IH]; intros [|n]; simpl; intros Hr; try discriminate.
    + congruence.
    + destruct l; [destruct n; discriminate | apply IH; assumption].
Qed.

Lemma next_cons {T} (s : Stream T) x r :
  wf s -> rest s = x :: r -> next s = Ok (x, advance s 1).
Proof.
  intros Hwf Hr. unfold next. rewrite getitem_rest, Hr by assumption. reflexivity.
Qed.

Lemma next_nil {T} (s : Stream T) :
  wf s -> rest s = [] -> next s = Raise IndexError.
Proof.
  intros Hwf Hr. unfold next. rewrite getitem_rest, Hr by assumption. reflexivity.
Qed.

(** C9. In every state of a reader ([_end] is the length of the data),
    [peek] returns the element at the cursor when the cursor is before
    the end and [None] when it is at or past the end; it raises nothing
    and leaves the reader as it is. *)
Theorem peek_spec {T} (s : Stream T) :
  _end s = Z.of_nat (length (_data s)) ->
  (0 <= _cursor s < _end s ->
   exists x, nth_error (_data s) (Z.to_nat (_cursor s)) = Some x
             /\ peek s = Ok (Some x, s))
  /\ (_end s <= _cursor s -> peek s = Ok (None, s))
  /\ (exists r, peek s = Ok (r, s)).
Proof.
  intros He. unfold peek.
  destruct (Z.ltb_spec (_cursor s) 0) as [Hneg|Hpos]; simpl.
  - split; [lia|]. split; [reflexivity | eexists; reflexivity].
  - destruct (Z.geb_spec (_cursor s) (_end s)) as [Hge|Hlt].
    + split; [lia|]. split; [reflexivity | eexists; reflexivity].
    + rewrite getitem_nth by assumption.
      destruct (nth_error (_data s) (Z.to_nat (_cursor s))) as [x|] eqn:Hx.
      * split; [eauto|]. split; [lia | eexists; reflexivity].
      * apply nth_error_None in Hx. lia.
Qed.

Lemma peek_spec_witness :
  peek (advance (Stream_init [TInt 1; TInt 2]) 1)
  = Ok (Some (TInt 2), advance (Stream_init [TInt 1; TInt 2]) 1)
  /\ peek (advance (Stream_init [TInt 1; TInt 2]) 2)
     = Ok (None, advance (Stream_init [TInt 1; TInt 2]) 2).
Proof.
  split.
  - destruct (proj1 (peek_spec (advance (Stream_init [TInt 1; TInt 2]) 1)
                       ltac:(reflexivity)) ltac:(simpl; lia))
      as [x [Hx Hp]].
    simpl in Hx. injection Hx as <-. exact Hp.
  - apply (peek_spec (advance (Stream_init [TInt 1; TInt 2]) 2)).
    + reflexivity.
    + simpl; lia.
Defined.

(** ** Termination and progress of the tokenizer *)

Lemma follows_refl {T} (s : Stream T) : wf s -> follows s s.
Proof. intros H. unfold follows. repeat split; [apply H .. | lia]. Qed.

Lemma follows_trans {T} (s1 s2 s3 : Stream T) :
  follows s1 s2 -> follows s2 s3 -> follows s1 s3.
Proof. unfold follows. intros (?&?&?) (?&?&?). repeat split; try apply H2; try congruence; lia. Qed.

Lemma post_bind {T A B} (m : M T A) (k : A -> M T B) s Q :
  post m s (fun a s' => post (k a) s' Q) -> post (bind m k) s Q.
Proof.
  unfold post, bind. destruct (m s) as [[a s']| |]; auto.
Qed.

Lemma post_weaken {T A} (m : M T A) s (P Q : A -> Stream T -> Prop) :
  post m s P -> (forall a s', P a s' -> Q a s') -> post m s Q.
Proof.
  unfold post. destruct (m s) as [[a s']| |]; auto.
Qed.

Lemma post_ret {T A} (a : A) (s : Stream T) (Q : A -> Stream T -> Prop) :
  Q a s -> post (ret a) s Q.
Proof. auto. Qed.

Lemma post_raise {T A} e (s : Stream T) (Q : A -> Stream T -> Prop) :
  post (raise e) s Q.
Proof. exact I. Qed.

Lemma post_peek {T} (s : Stream T) :
  wf s -> post peek s (fun r s' => s' = s /\ r = hd_error (rest s)).
Proof. intros H. unfold post. rewrite peek_rest by assumption. auto. Qed.

Lemma post_next {T} (s : Stream T) :
  wf s ->
  post next s (fun x s' => follows s s' /\ _cursor s' = _cursor s + 1
                           /\ rest s = x :: rest s').
Proof.
  intros H. unfold post. destruct (rest s) as [|x r] eqn:Hr.
  - rewrite next_nil by assumption. exact I.
  - rewrite (next_cons s x r) by assumption.
    destruct (wf_advance s x r H Hr) as [Hw Hr'].
    unfold follows. rewrite Hr'. simpl. repeat split; try apply Hw; lia.
Qed.

Lemma post_consume {T} `{Element T} (expected : T) (s : Stream T) :
  wf s ->
  post (consume expected) s
       (fun _ s' => follows s s' /\ _cursor s' = _cursor s + 1
                    /\ exists x, rest s = x :: rest s' /\ elem_eqb x expected = true).
Proof.
  intros Hwf. unfold consume. apply post_bind.
  eapply post_weaken; [apply post_next; assumption | cbv beta].
  intros x s' (Hf & Hc & Hr). simpl.
  destruct (elem_eqb x expected) eqn:E; simpl.
  - apply post_ret. repeat split; try apply Hf; try assumption. eauto.
  - apply post_raise.
Qed.

Lemma follows_length {T} (s s' : Stream T) :
  wf s -> follows s s' ->
  Z.of_nat (length (rest s')) = Z.of_nat (length (rest s)) - (_cursor s' - _cursor s).
Proof.
  intros Hwf (Hw & Hd & Hc). rewrite !length_rest by assumption.
  destruct Hwf as [He _], Hw as [He' _]. rewrite He, He', Hd. lia.
Qed.

Lemma fuel_of_enough {T} (s : Stream T) : (length (rest s) < fuel_of s)%nat.
Proof. unfold rest, fuel_of. rewrite length_skipn. lia. Qed.

Lemma post_skip_whitespace_loop fuel : forall s,
  wf s -> (length (rest s) < fuel)%nat ->
  post (skip_whitespace_loop fuel) s (fun _ s' => follows s s').
Proof.
  induction fuel as [|n IH]; intros s Hwf Hlen; [lia|].
  simpl. apply post_bind.
  eapply post_weaken; [apply post_peek; assumption | cbv beta].
  intros r s' [-> ->]. destruct (rest s) as [|c r] eqn:Hr; simpl.
  - apply post_ret, follows_refl, Hwf.
  - destruct (isspace c).
    + apply post_bind. eapply post_weaken; [apply post_next; assumption | cbv beta].
      intros x s' (Hf & Hc & Hr'). simpl.
      rewrite Hr in Hr'. injection Hr' as _ Hr'.
      eapply post_weaken; [apply IH; [apply Hf | subst r; simpl in Hlen; lia] | cbv beta].
      intros ? s'' Hf'. eapply follows_trans; eassumption.
    + apply post_ret, follows_refl, Hwf.
Qed.

Lemma post_skip_whitespace s :
  wf s -> post skip_whitespace s (fun _ s' => follows s s').
Proof.
  intros Hwf. apply (post_skip_whitespace_loop (fuel_of s));
    [assumption | apply fuel_of_enough].
Qed.

Lemma post_tokenize_str_loop fuel : forall chars s,
  wf s -> (length (rest s) < fuel)%nat ->
  post (tokenize_str_loop fuel chars) s
       (fun _ s' => follows s s' /\ _cursor s < _cursor s').
Proof.
  induction fuel as [|n IH]; intros chars s Hwf Hlen; [lia|].
  simpl. apply post_bind.
  eapply post_weaken; [apply post_next; assumption | cbv beta].
  intros x s' (Hf & Hc & Hr). simpl.
  destruct (Ascii.eqb x quote).
  - apply post_ret. split; [assumption | lia].
  - eapply post_weaken.
    + apply IH; [apply Hf | rewrite Hr in Hlen; simpl in Hlen; lia].
    + intros ? s'' [Hf' Hc']. split; [eapply follows_trans; eassumption | lia].
Qed.

Lemma post_tokenize_str s :
  wf s ->
  post tokenize_str s (fun _ s' => follows s s' /\ _cursor s < _cursor s').
Proof.
  intros Hwf. unfold tokenize_str. apply post_bind.
  eapply post_weaken; [apply post_consume; assumption | cbv beta].
  intros ? s1 (Hf & Hc & x & Hr & _). cbv beta.
  apply post_bind. eapply post_weaken.
  - apply (post_tokenize_str_loop (fuel_of s1)); [apply Hf | apply fuel_of_enough].
  - intros chars s2 [Hf' Hc']. apply post_ret.
    split; [eapply follows_trans; eassumption | lia].
Qed.

Lemma post_lift {T A B} (o : outcome A) (f : A -> B) (s : Stream T) (Q : B -> Stream T -> Prop) :
  o <> OutOfFuel -> (forall a, o = Ok a -> Q (f a) s) -> post (lift o f) s Q.
Proof.
  intros Hn HQ. unfold post, lift. destruct o; [apply HQ; reflexivity | exact I | congruence].
Qed.

Lemma py_int_total joined : py_int joined <> OutOfFuel.
Proof.
  unfold py_int. destruct joined; [discriminate|].
  destruct (forallb isdecimal (a :: joined)); discriminate.
Qed.

Lemma py_float_total joined : py_float joined <> OutOfFuel.
Proof.
  unfold py_float. destruct (split_dot joined) as [ip frac].
  destruct (ip ++ _); [discriminate|].
  destruct (forallb isdecimal (a :: l)); discriminate.
Qed.

Lemma post_tokenize_num_loop fuel : forall num is_float s,
  wf s -> (length (rest s) < fuel)%nat ->
  post (tokenize_num_loop fuel num is_float) s (fun _ s' => follows s s').
Proof.
  induction fuel as [|n IH]; intros num is_float s Hwf Hlen; [lia|].
  simpl. apply post_bind.
  eapply post_weaken; [apply post_peek; assumption | cbv beta].
  intros r s' [-> ->]. destruct (rest s) as [|c r] eqn:Hr; simpl.
  - apply post_raise.
  - assert (Hstep : forall fl,
      post (x <- next ;; tokenize_num_loop n (num ++ [x]) fl) s
           (fun _ s' => follows s s')).
    { intros fl. apply post_bind.
      eapply post_weaken; [apply post_next; assumption | cbv beta].
      intros x s' (Hf & Hc & Hr'). simpl.
      rewrite Hr in Hr'. injection Hr' as _ Hr'.
      eapply post_weaken; [apply IH; [apply Hf | subst r; simpl in Hlen; lia] | cbv beta].
      intros ? s'' Hf'. eapply follows_trans; eassumption. }
    destruct (isnumeric c); [apply Hstep|].
    destruct (Ascii.eqb c dot).
    + destruct is_float; [exact I | apply Hstep].
    + apply post_ret, follows_refl, Hwf.
Qed.

(** When the reader is at a numeric character, [tokenize_num] takes it. *)
Lemma post_tokenize_num s c r :
  wf s -> rest s = c :: r -> isnumeric c = true ->
  post tokenize_num s (fun _ s' => follows s s' /\ _cursor s < _cursor s').
Proof.
  intros Hwf Hr Hc. unfold tokenize_num. apply post_bind.
  change (post (tokenize_num_loop (fuel_of s) [] false) s
            (fun (a : list ascii * bool) s' =>
               post (let (joined, is_float) := a in
                     if is_float then lift (py_float joined) TFloat
                     else lift (py_int joined) TInt) s'
                    (fun _ s'0 => follows s s'0 /\ _cursor s < _cursor s'0))).
  unfold fuel_of. simpl tokenize_num_loop. apply post_bind.
  eapply post_weaken; [apply post_peek; assumption | cbv beta].
  intros o s' [-> ->]. rewrite Hr. simpl. rewrite Hc.
  apply post_bind. eapply post_weaken; [apply post_next; assumption | cbv beta].
  intros x s1 (Hf & Hcur & Hr'). simpl.
  eapply post_weaken.
  - apply post_tokenize_num_loop; [apply Hf|].
    pose proof (fuel_of_enough s1) as Hl. unfold fuel_of in Hl.
    destruct Hf as (_ & Hd & _). rewrite Hd in Hl.
    assert (length (rest s1) < length (rest s))%nat by (rewrite Hr'; simpl; lia).
    unfold rest at 2 in H. rewrite length_skipn in H. lia.
  - intros [joined is_float] s2 Hf'.
    assert (Hfin : follows s s2 /\ _cursor s < _cursor s2).
    { split; [eapply follows_trans; eassumption | destruct Hf' as (_ & _ & ?); lia]. }
    destruct is_float; apply post_lift; auto using py_float_total, py_int_total.
Qed.

Lemma post_tokenize_body s :
  wf s ->
  post tokenize_body s
       (fun r s' => follows s s' /\ (r <> None -> _cursor s < _cursor s')).
Proof.
  intros Hwf. unfold tokenize_body. apply post_bind.
  eapply post_weaken; [apply post_skip_whitespace; assumption | cbv beta].
  intros ? s1 Hf. simpl. unfold get_cursor, get_end.
  apply post_bind. unfold post at 1. apply post_bind. unfold post at 1.
  destruct (_cursor s1 >=? _end s1) eqn:Hge.
  - apply post_ret. split; [assumption | congruence].
  - apply post_bind. eapply post_weaken; [apply post_peek; apply Hf | cbv beta].
    intros o s' [-> ->]. destruct (rest s1) as [|c r] eqn:Hr; simpl.
    + apply post_raise.
    + assert (Hlt : forall s2, follows s1 s2 -> _cursor s1 < _cursor s2 ->
                follows s s2 /\ _cursor s < _cursor s2).
      { intros s2 Hf2 Hc2. split; [eapply follows_trans; eassumption|].
        destruct Hf as (_ & _ & ?). lia. }
      destruct (is_punct c).
      { apply post_bind. eapply post_weaken; [apply post_next; apply Hf | cbv beta].
        intros x s2 (Hf2 & Hc2 & _). simpl. apply post_ret.
        destruct (Hlt s2 Hf2 ltac:(lia)). auto. }
      destruct (Ascii.eqb c quote).
      { apply post_bind. eapply post_weaken; [apply post_tokenize_str; apply Hf | cbv beta].
        intros x s2 (Hf2 & Hc2). simpl. apply post_ret.
        destruct (Hlt s2 Hf2 Hc2). auto. }
      destruct (isnumeric c) eqn:Hn.
      { apply post_bind. eapply post_weaken;
          [eapply post_tokenize_num; [apply Hf | eassumption | assumption] | cbv beta].
        intros x s2 (Hf2 & Hc2). simpl. apply post_ret.
        destruct (Hlt s2 Hf2 Hc2). auto. }
      exact I.
Qed.

Lemma tokenize_loop_unfold n tokens s :
  tokenize_loop (S n) tokens s =
  match tokenize_body s with
  | Ok (Some token, s') => tokenize_loop n (tokens ++ [token]) s'
  | Ok (None, s') => Ok (tokens, s')
  | Raise e => Raise e
  | OutOfFuel => OutOfFuel
  end.
Proof.
  simpl. unfold bind. destruct (tokenize_body s) as [[[tok|] s']| |]; reflexivity.
Qed.

Lemma tokenize_loop_fuel n : forall m tokens s,
  wf s -> (length (rest s) < n)%nat -> (length (rest s) < m)%nat ->
  tokenize_loop n tokens s = tokenize_loop m tokens s
  /\ tokenize_loop n tokens s <> OutOfFuel.
Proof.
  induction n as [|n IH]; intros m tokens s Hwf Hn Hm; [lia|].
  destruct m as [|m]; [lia|]. rewrite !tokenize_loop_unfold.
  pose proof (post_tokenize_body s Hwf) as Hp. unfold post in Hp.
  destruct (tokenize_body s) as [[[tok|] s']| |].
  - destruct Hp as [Hf Hc]. specialize (Hc ltac:(discriminate)).
    pose proof (follows_length s s' Hwf Hf) as Hl.
    apply IH; [apply Hf | lia | lia].
  - split; [reflexivity | discriminate].
  - split; [reflexivity | discriminate].
  - contradiction.
Qed.

(** The tokenizer never runs out of fuel: [tokenize] returns or raises. *)
Theorem tokenize_total (text : string) : tokens_of text <> OutOfFuel.
Proof.
  unfold tokens_of, tokenize, with_fuel.
  set (s := Stream_init (list_ascii_of_string text)).
  destruct (tokenize_loop_fuel (fuel_of s) (fuel_of s) [] s (wf_init _)
              (fuel_of_enough s) (fuel_of_enough s)) as [_ Hn].
  destruct (tokenize_loop (fuel_of s) [] s) as [[tokens s']| |];
    [discriminate | discriminate | congruence].
Qed.

Lemma loop_state_inv data s tokens :
  loop_state data s tokens ->
  wf s /\ _data s = data
  /\ tokenize (Stream_init data) = tokenize_loop (fuel_of s) tokens s.
Proof.
  induction 1 as [|s tokens token s' Hls (Hwf & Hd & IH) Hb].
  - split; [apply wf_init|]. split; reflexivity.
  - pose proof (post_tokenize_body s Hwf) as Hp. unfold post in Hp.
    rewrite Hb in Hp. destruct Hp as [Hf Hc]. specialize (Hc ltac:(discriminate)).
    split; [apply Hf|]. split; [destruct Hf as (_ & -> & _); assumption|].
    rewrite IH. unfold fuel_of at 1. rewrite tokenize_loop_unfold, Hb.
    pose proof (follows_length s s' Hwf Hf) as Hl.
    pose proof (fuel_of_enough s) as Hs. unfold fuel_of in Hs.
    assert (Hlt : (length (rest s') < length (_data s))%nat) by lia.
    apply (proj1 (tokenize_loop_fuel _ (fuel_of s') _ s' (proj1 Hf)
                    Hlt (fuel_of_enough s'))).
Qed.

Lemma loop_state_raise text s tokens e :
  loop_state (list_ascii_of_string text) s tokens ->
  tokenize_body s = Raise e ->
  tokens_of text = Raise e.
Proof.
  intros Hls Hb. destruct (loop_state_inv _ _ _ Hls) as (_ & _ & Ht).
  unfold tokens_of. rewrite Ht. unfold fuel_of.
  rewrite tokenize_loop_unfold, Hb. reflexivity.
Qed.

Lemma loop_state_done text s tokens s' :
  loop_state (list_ascii_of_string text) s tokens ->
  tokenize_body s = Ok (None, s') ->
  tokens_of text = Ok tokens.
Proof.
  intros Hls Hb. destruct (loop_state_inv _ _ _ Hls) as (_ & _ & Ht).
  unfold tokens_of. rewrite Ht. unfold fuel_of.
  rewrite tokenize_loop_unfold, Hb. reflexivity.
Qed.

(** ** The scans of the tokenizer *)

(** What one iteration of the loop of [tokenize] does once the
    whitespace is skipped and a character is left. *)
Lemma tokenize_body_dispatch s s1 c r :
  wf s -> skip_whitespace s = Ok (tt, s1) -> rest s1 = c :: r ->
  wf s1 /\
  tokenize_body s =
    (if is_punct c then
       (t <- next ;; ret (Some (TStr (String t EmptyString))))
     else if Ascii.eqb c quote then
       (t <- tokenize_str ;; ret (Some (TStr t)))
     else if isnumeric c then
       (t <- tokenize_num ;; ret (Some t))
     else
       (i <- get_cursor ;; raise (ValueError (UnexpectedChar c i)))) s1.
Proof.
  intros Hwf Hs Hr.
  pose proof (post_skip_whitespace s Hwf) as Hp. unfold post in Hp.
  rewrite Hs in Hp. assert (Hwf1 : wf s1) by apply Hp. split; [assumption|].
  pose proof (length_rest s1 Hwf1) as Hl. rewrite Hr in Hl. simpl length in Hl.
  unfold tokenize_body. unfold bind at 1. rewrite Hs.
  unfold bind at 1. unfold get_cursor at 1. unfold bind at 1. unfold get_end at 1.
  destruct (Z.geb_spec (_cursor s1) (_end s1)); [lia|].
  unfold bind at 1. rewrite peek_rest, Hr by assumption. reflexivity.
Qed.

Lemma tokenize_str_loop_unterminated fuel : forall chars s,
  wf s -> ~ In quote (rest s) -> (length (rest s) < fuel)%nat ->
  tokenize_str_loop fuel chars s = Raise IndexError.
Proof.
  induction fuel as [|n IH]; intros chars s Hwf Hq Hlen; [lia|].
  simpl. unfold bind. destruct (rest s) as [|x r] eqn:Hr.
  - rewrite next_nil by assumption. reflexivity.
  - rewrite (next_cons s x r) by assumption.
    destruct (wf_advance s x r Hwf Hr) as [Hw Hr'].
    destruct (Ascii.eqb_spec x quote) as [->|Hne].
    + exfalso. apply Hq. left. reflexivity.
    + apply IH; [assumption | | rewrite Hr'; simpl in Hlen; lia].
      rewrite Hr'. intros Hin. apply Hq. right. assumption.
Qed.

(** C6. When the loop of [tokenize] comes to a quote character after
    which the text has no further quote, [tokenize] raises
    [IndexError]. *)
Theorem unterminated_string_raises (text : string) s tokens s1 body :
  loop_state (list_ascii_of_string text) s tokens ->
  skip_whitespace s = Ok (tt, s1) ->
  rest s1 = quote :: body ->
  ~ In quote body ->
  tokens_of text = Raise IndexError.
Proof.
  intros Hls Hs Hr Hq. apply (loop_state_raise text s tokens); [assumption|].
  destruct (loop_state_inv _ _ _ Hls) as (Hwf & _ & _).
  destruct (tokenize_body_dispatch s s1 quote body Hwf Hs Hr) as [Hwf1 ->].
  change (is_punct quote) with false. change (Ascii.eqb quote quote) with true.
  cbv iota. unfold bind at 1. unfold tokenize_str. unfold bind at 1.
  unfold consume. unfold bind at 1.
  rewrite (next_cons s1 quote body) by assumption.
  destruct (wf_advance s1 quote body Hwf1 Hr) as [Hw Hr'].
  change (negb (elem_eqb quote quote)) with false. cbv iota.
  unfold ret at 1. unfold bind at 1. unfold with_fuel.
  rewrite tokenize_str_loop_unterminated;
    [reflexivity | assumption | rewrite Hr'; assumption | apply fuel_of_enough].
Qed.

Lemma unterminated_string_raises_witness :
  tokens_of text_unterminated = Raise IndexError
  /\ tokens_of text_unterminated_in_list = Raise IndexError.
Proof.
  split.
  - apply (unterminated_string_raises text_unterminated
             (Stream_init (list_ascii_of_string text_unterminated)) []
             (Stream_init (list_ascii_of_string text_unterminated))
             (list_ascii_of_string "abc")).
    + apply loop_start.
    + reflexivity.
    + reflexivity.
    + simpl. unfold quote. intuition discriminate.
  - apply (unterminated_string_raises text_unterminated_in_list
             (advance (Stream_init (list_ascii_of_string text_unterminated_in_list)) 3)
             [TStr "["; TInt 1; TStr ","]
             (advance (Stream_init (list_ascii_of_string text_unterminated_in_list)) 4)
             (list_ascii_of_string "abc")).
    + apply (loop_next _ (advance (Stream_init (list_ascii_of_string text_unterminated_in_list)) 2)
               [TStr "["; TInt 1] (TStr ",")); [|reflexivity].
      apply (loop_next _ (advance (Stream_init (list_ascii_of_string text_unterminated_in_list)) 1)
               [TStr "["] (TInt 1)); [|reflexivity].
      apply (loop_next _ (Stream_init (list_ascii_of_string text_unterminated_in_list))
               [] (TStr "[")); [|reflexivity].
      apply loop_start.
    + reflexivity.
    + reflexivity.
    + simpl. unfold quote. intuition discriminate.
Defined.

Lemma tokenize_num_loop_unfold n num is_float s :
  wf s ->
  tokenize_num_loop (S n) num is_float s =
  match rest s with
  | [] => Raise AttributeError
  | c :: _ =>
      if isnumeric c then tokenize_num_loop n (num ++ [c]) is_float (advance s 1)
      else if Ascii.eqb c dot then
        if is_float then Raise (ValueError (InvalidNumeric (_cursor s)))
        else tokenize_num_loop n (num ++ [c]) true (advance s 1)
      else Ok ((num, is_float), s)
  end.
Proof.
  intros Hwf. simpl. unfold bind at 1. rewrite peek_rest by assumption.
  destruct (rest s) as [|c r] eqn:Hr; [reflexivity|]. simpl.
  destruct (isnumeric c);
    [unfold bind; rewrite (next_cons s c r) by assumption; reflexivity|].
  destruct (Ascii.eqb c dot); [|reflexivity].
  destruct is_float; [reflexivity|].
  unfold bind. rewrite (next_cons s c r) by assumption. reflexivity.
Qed.

Lemma tokenize_num_loop_digits d : forall fuel num is_float s r,
  wf s -> rest s = d ++ r -> forallb isnumeric d = true ->
  exists s', wf s' /\ rest s' = r
             /\ _cursor s' = _cursor s + Z.of_nat (length d)
             /\ _data s' = _data s
             /\ tokenize_num_loop (length d + fuel) num is_float s
                = tokenize_num_loop fuel (num ++ d) is_float s'.
Proof.
  induction d as [|c d IH]; intros fuel num is_float s r Hwf Hr Hd.
  - exists s. rewrite app_nil_r. simpl.
    split; [assumption|]. split; [assumption|]. split; [lia|].
    split; reflexivity.
  - simpl in Hd. apply andb_prop in Hd. destruct Hd as [Hc Hd].
    simpl app in Hr. destruct (wf_advance s c (d ++ r) Hwf Hr) as [Hw Hr'].
    destruct (IH fuel (num ++ [c]) is_float (advance s 1) r Hw Hr' Hd)
      as (s' & Hw' & Hrs & Hcur & Hdat & Heq).
    exists s'. split; [assumption|]. split; [assumption|]. split; [|split].
    + rewrite Hcur. simpl _cursor. simpl length. lia.
    + rewrite Hdat. reflexivity.
    + simpl length. simpl Nat.add. rewrite tokenize_num_loop_unfold by assumption.
      rewrite Hr, Hc, Heq, <- app_assoc. reflexivity.
Qed.

Lemma numeric_not_special c :
  isnumeric c = true ->
  is_punct c = false /\ Ascii.eqb c quote = false /\ Ascii.eqb c dot = false.
Proof.
  destruct c as [[] [] [] [] [] [] [] []]; vm_compute; intuition discriminate.
Qed.

(** What the loop of [tokenize] does when, after the whitespace, the
    text goes on with the numeric characters [d] followed by [r]. *)
Lemma tokenize_body_number s s1 c d r :
  wf s -> skip_whitespace s = Ok (tt, s1) -> rest s1 = (c :: d) ++ r ->
  forallb isnumeric (c :: d) = true ->
  exists s2 fuel,
    wf s2 /\ rest s2 = r
    /\ _cursor s2 = _cursor s1 + Z.of_nat (length (c :: d))
    /\ _data s2 = _data s
    /\ (length r < fuel)%nat
    /\ tokenize_body s =
       (t <- (a <- tokenize_num_loop fuel (c :: d) false ;;
              let (joined, is_float) := a in
              if is_float then lift (py_float joined) TFloat
              else lift (py_int joined) TInt) ;;
        ret (Some t)) s2.
Proof.
  intros Hwf Hs Hr Hd.
  destruct (tokenize_body_dispatch s s1 c (d ++ r) Hwf Hs Hr) as [Hwf1 Hb].
  assert (Hc : isnumeric c = true) by (simpl in Hd; apply andb_prop in Hd; tauto).
  destruct (numeric_not_special c Hc) as (Hp & Hq & _).
  rewrite Hp, Hq, Hc in Hb.
  pose proof (fuel_of_enough s1) as Hlen. rewrite Hr, length_app in Hlen.
  destruct (tokenize_num_loop_digits (c :: d)
              (fuel_of s1 - length (c :: d)) [] false s1 r Hwf1 Hr Hd)
    as (s2 & Hw2 & Hr2 & Hc2 & Hd2 & Heq).
  exists s2, (fuel_of s1 - length (c :: d))%nat.
  split; [assumption|]. split; [assumption|]. split; [assumption|].
  split.
  { pose proof (post_skip_whitespace s Hwf) as Hsk. unfold post in Hsk.
    rewrite Hs in Hsk. destruct Hsk as (_ & Hds1 & _). congruence. }
  split; [lia|].
  rewrite Hb. unfold tokenize_num, with_fuel. unfold bind at 1 2 3 4.
  replace (fuel_of s1) with (length (c :: d) + (fuel_of s1 - length (c :: d)))%nat
    at 1 by lia.
  rewrite Heq. reflexivity.
Qed.

(** C7. When a number scan of [tokenize] has appended one dot and
    comes to a second one, [tokenize] raises the [ValueError] "Invalid
    numeric" with the index of the second dot. *)
Theorem second_dot_raises (text : string) s tokens s1 d1 d2 tail :
  loop_state (list_ascii_of_string text) s tokens ->
  skip_whitespace s = Ok (tt, s1) ->
  rest s1 = d1 ++ dot :: d2 ++ dot :: tail ->
  d1 <> [] ->
  forallb isnumeric d1 = true ->
  forallb isnumeric d2 = true ->
  let index := _cursor s1 + Z.of_nat (length d1) + 1 + Z.of_nat (length d2) in
  getitem (list_ascii_of_string text) index = Some dot
  /\ tokens_of text = Raise (ValueError (InvalidNumeric index)).
Proof.
  intros Hls Hs Hr Hne Hd1 Hd2 index.
  destruct (loop_state_inv _ _ _ Hls) as (Hwf & Hdata & _).
  destruct d1 as [|c d1]; [congruence|].
  destruct (tokenize_body_number s s1 c d1 _ Hwf Hs Hr Hd1)
    as (s2 & fuel & Hw2 & Hr2 & Hc2 & Hdat2 & Hfuel & Hb).
  destruct fuel as [|fuel]; [simpl in Hfuel; lia|].
  destruct (wf_advance s2 dot _ Hw2 Hr2) as [Hw3 Hr3].
  simpl length in Hfuel. rewrite length_app in Hfuel. simpl length in Hfuel.
  destruct (tokenize_num_loop_digits d2 (fuel - length d2)
              ((c :: d1) ++ [dot]) true (advance s2 1) _ Hw3 Hr3 Hd2)
    as (s4 & Hw4 & Hr4 & Hc4 & Hdat4 & Heq).
  assert (Hidx : _cursor s4 = index).
  { unfold index. rewrite Hc4. simpl _cursor. rewrite Hc2. lia. }
  split.
  - rewrite <- Hidx, <- Hdata.
    assert (Hd4 : _data s4 = _data s) by (rewrite Hdat4; exact Hdat2).
    rewrite <- Hd4, getitem_rest, Hr4 by assumption. reflexivity.
  - apply (loop_state_raise text s tokens); [assumption|].
    rewrite Hb. unfold bind at 1 2.
    rewrite tokenize_num_loop_unfold, Hr2 by assumption.
    change (isnumeric dot) with false. change (Ascii.eqb dot dot) with true.
    cbv iota.
    replace fuel with (length d2 + (fuel - length d2))%nat by lia.
    rewrite Heq.
    destruct (fuel - length d2)%nat as [|k] eqn:Hk; [lia|].
    rewrite tokenize_num_loop_unfold, Hr4 by assumption.
    change (isnumeric dot) with false. change (Ascii.eqb dot dot) with true.
    cbv iota. rewrite Hidx. reflexivity.
Qed.

Lemma second_dot_raises_witness :
  getitem (list_ascii_of_string "1.2.3") 3 = Some dot
  /\ tokens_of "1.2.3" = Raise (ValueError (InvalidNumeric 3)).
Proof.
  apply (second_dot_raises "1.2.3"
           (Stream_init (list_ascii_of_string "1.2.3")) []
           (Stream_init (list_ascii_of_string "1.2.3"))
           (list_ascii_of_string "1") (list_ascii_of_string "2")
           (list_ascii_of_string "3")).
  - apply loop_start.
  - reflexivity.
  - reflexivity.
  - discriminate.
  - reflexivity.
  - reflexivity.
Defined.

(** C1. When a number scan of [tokenize] runs to the end of the text
    (numeric characters, with at most one dot among them, up to the
    last character), [tokenize] does not return: the scan peeks [None]
    and raises [AttributeError]. *)
Theorem number_at_end_raises (text : string) s tokens s1 d1 tail :
  loop_state (list_ascii_of_string text) s tokens ->
  skip_whitespace s = Ok (tt, s1) ->
  rest s1 = d1 ++ tail ->
  d1 <> [] ->
  forallb isnumeric d1 = true ->
  tail = [] \/ (exists d2, tail = dot :: d2 /\ forallb isnumeric d2 = true) ->
  tokens_of text = Raise AttributeError.
Proof.
  intros Hls Hs Hr Hne Hd1 Htail.
  destruct (loop_state_inv _ _ _ Hls) as (Hwf & Hdata & _).
  destruct d1 as [|c d1]; [congruence|].
  destruct (tokenize_body_number s s1 c d1 _ Hwf Hs Hr Hd1)
    as (s2 & fuel & Hw2 & Hr2 & Hc2 & Hdat2 & Hfuel & Hb).
  apply (loop_state_raise text s tokens); [assumption|].
  rewrite Hb. unfold bind at 1 2.
  destruct fuel as [|fuel]; [lia|].
  rewrite tokenize_num_loop_unfold, Hr2 by assumption.
  destruct Htail as [->|(d2 & -> & Hd2)]; [reflexivity|].
  change (isnumeric dot) with false. change (Ascii.eqb dot dot) with true.
  cbv iota.
  destruct (wf_advance s2 dot _ Hw2 Hr2) as [Hw3 Hr3].
  rewrite <- (app_nil_r d2) in Hr3.
  destruct (tokenize_num_loop_digits d2 (fuel - length d2)
              ((c :: d1) ++ [dot]) true (advance s2 1) _ Hw3 Hr3 Hd2)
    as (s4 & Hw4 & Hr4 & Hc4 & Hdat4 & Heq).
  simpl length in Hfuel.
  replace fuel with (length d2 + (fuel - length d2))%nat by lia.
  rewrite Heq.
  destruct (fuel - length d2)%nat as [|k] eqn:Hk; [lia|].
  rewrite tokenize_num_loop_unfold, Hr4 by assumption. reflexivity.
Qed.

Lemma number_at_end_raises_witness : tokens_of "5" = Raise AttributeError.
Proof.
  apply (number_at_end_raises "5"
           (Stream_init (list_ascii_of_string "5")) []
           (Stream_init (list_ascii_of_string "5"))
           (list_ascii_of_string "5") []).
  - apply loop_start.
  - reflexivity.
  - reflexivity.
  - discriminate.
  - reflexivity.
  - left. reflexivity.
Defined.

(** The same defect on the text [[1]2]: the tokenizer raises before the
    parser is called. *)
Example bracket_1_bracket_2 : run "[1]2" = Raise AttributeError.
Proof. reflexivity. Qed.

(** ** The parser reads only what it needs

    A computation that returns on a reader returns the same on a
    reader with more elements behind ([ext]); for one that ends on a
    peek this holds when it did not end at the end of the data. *)

Lemma ext_refl {T} (s : Stream T) : wf s -> ext [] s s.
Proof. intros H. unfold ext. rewrite app_nil_r. auto. Qed.

Lemma ssim_wsim {T A} (m : M T A) : ssim m -> wsim m.
Proof.
  intros H post s s' a s1 He Hm. destruct (H post s s' a s1 He Hm). auto.
Qed.

Lemma ssim_ret {T A} (a : A) : ssim (@ret T A a).
Proof.
  intros post s s' b s1 He Hm. injection Hm as <- <-.
  split; [apply follows_refl, He|]. exists s'. auto.
Qed.

Lemma ssim_raise {T A} e : ssim (@raise T A e).
Proof. intros post s s' b s1 He Hm. discriminate. Qed.

Lemma ssim_out_of_fuel {T A} : ssim (@out_of_fuel T A).
Proof. intros post s s' b s1 He Hm. discriminate. Qed.

Lemma ssim_next {T} : ssim (@next T).
Proof.
  intros post s s' a s1 (Hw & Hw' & Hr) Hm.
  destruct (rest s) as [|x r] eqn:Hrs.
  - rewrite next_nil in Hm by assumption. discriminate.
  - rewrite (next_cons s x r) in Hm by assumption. injection Hm as <- <-.
    destruct (wf_advance s x r Hw Hrs) as [Hw1 Hr1].
    destruct (wf_advance s' x (r ++ post) Hw' Hr) as [Hw1' Hr1'].
    split.
    + unfold follows. simpl. repeat split; try apply Hw1; lia.
    + exists (advance s' 1). rewrite (next_cons s' x (r ++ post)) by assumption.
      split; [reflexivity|]. unfold ext. rewrite Hr1, Hr1'. auto.
Qed.

Lemma wsim_peek {T} : wsim (@peek T).
Proof.
  intros post s s' a s1 (Hw & Hw' & Hr) Hm.
  rewrite peek_rest in Hm by assumption. injection Hm as <- <-.
  split; [apply follows_refl, Hw|]. intros Hne. exists s'.
  split; [|unfold ext; auto].
  rewrite peek_rest, Hr by assumption.
  destruct (rest s); [congruence | reflexivity].
Qed.

Lemma bind_inv {T A B} (m : M T A) (k : A -> M T B) s b s1 :
  bind m k s = Ok (b, s1) ->
  exists a sa, m s = Ok (a, sa) /\ k a sa = Ok (b, s1).
Proof.
  unfold bind. destruct (m s) as [[a sa]| |]; try discriminate. eauto.
Qed.

Lemma bind_ok {T A B} (m : M T A) (k : A -> M T B) s a sa :
  m s = Ok (a, sa) -> bind m k s = k a sa.
Proof. unfold bind. intros ->. reflexivity. Qed.

Lemma ssim_bind {T A B} (m : M T A) (k : A -> M T B) :
  ssim m -> (forall a, ssim (k a)) -> ssim (bind m k).
Proof.
  intros Hm Hk post s s' b s1 He Hb.
  destruct (bind_inv m k s b s1 Hb) as (a & sa & Hma & Hka).
  destruct (Hm post s s' a sa He Hma) as (Hf & sa' & Hma' & Hea).
  destruct (Hk a post sa sa' b s1 Hea Hka) as (Hf1 & s1' & Hka' & He1).
  split; [eapply follows_trans; eassumption|].
  exists s1'. rewrite (bind_ok m k s' a sa') by assumption. auto.
Qed.

Lemma wsim_bind_s {T A B} (m : M T A) (k : A -> M T B) :
  ssim m -> (forall a, wsim (k a)) -> wsim (bind m k).
Proof.
  intros Hm Hk post s s' b s1 He Hb.
  destruct (bind_inv m k s b s1 Hb) as (a & sa & Hma & Hka).
  destruct (Hm post s s' a sa He Hma) as (Hf & sa' & Hma' & Hea).
  destruct (Hk a post sa sa' b s1 Hea Hka) as (Hf1 & Hex).
  split; [eapply follows_trans; eassumption|].
  intros Hne. destruct (Hex Hne) as (s1' & Hka' & He1).
  exists s1'. rewrite (bind_ok m k s' a sa') by assumption. auto.
Qed.

Lemma follows_rest_nonempty {T} (s s1 : Stream T) :
  wf s -> follows s s1 -> rest s1 <> [] -> rest s <> [].
Proof.
  intros Hw Hf Hne Hnil. pose proof (follows_length s s1 Hw Hf) as Hl.
  rewrite Hnil in Hl. simpl in Hl. destruct Hf as (_ & _ & Hc).
  destruct (rest s1); [congruence | simpl in Hl; lia].
Qed.

Lemma wsim_bind {T A B} (m : M T A) (k : A -> M T B) :
  wsim m -> (forall a, wsim (k a)) -> wsim (bind m k).
Proof.
  intros Hm Hk post s s' b s1 He Hb.
  destruct (bind_inv m k s b s1 Hb) as (a & sa & Hma & Hka).
  destruct (Hm post s s' a sa He Hma) as (Hf & Hex).
  destruct (Hk a [] sa sa b s1 (ext_refl sa (proj1 Hf)) Hka) as (Hf1 & _).
  split; [eapply follows_trans; eassumption|].
  intros Hne.
  destruct (Hex (follows_rest_nonempty sa s1 (proj1 Hf) Hf1 Hne))
    as (sa' & Hma' & Hea).
  destruct (Hk a post sa sa' b s1 Hea Hka) as (_ & Hex1).
  destruct (Hex1 Hne) as (s1' & Hka' & He1).
  exists s1'. rewrite (bind_ok m k s' a sa') by assumption. auto.
Qed.

Lemma ssim_bind_w {T A B} (m : M T A) (k : A -> M T B) :
  wsim m -> (forall a, ssim (k a)) -> (forall a, needs (k a)) -> ssim (bind m k).
Proof.
  intros Hm Hk Hn post s s' b s1 He Hb.
  destruct (bind_inv m k s b s1 Hb) as (a & sa & Hma & Hka).
  destruct (Hm post s s' a sa He Hma) as (Hf & Hex).
  destruct (Hex (Hn a sa b s1 (proj1 Hf) Hka)) as (sa' & Hma' & Hea).
  destruct (Hk a post sa sa' b s1 Hea Hka) as (Hf1 & s1' & Hka' & He1).
  split; [eapply follows_trans; eassumption|].
  exists s1'. rewrite (bind_ok m k s' a sa') by assumption. auto.
Qed.

Lemma needs_next {T} : needs (@next T).
Proof.
  intros s a s1 Hw Hm Hnil. rewrite next_nil in Hm by assumption. discriminate.
Qed.

Lemma needs_bind {T A B} (m : M T A) (k : A -> M T B) : needs m -> needs (bind m k).
Proof.
  intros Hm s b s1 Hw Hb.
  destruct (bind_inv m k s b s1 Hb) as (a & sa & Hma & _). eauto.
Qed.

Lemma needs_raise {T A} e : needs (@raise T A e).
Proof. intros s a s1 _ Hm. discriminate. Qed.

Lemma ssim_consume {T} `{Element T} (expected : T) : ssim (consume expected).
Proof.
  unfold consume. apply ssim_bind; [apply ssim_next|].
  intros a. destruct (negb _); [apply ssim_raise | apply ssim_ret].
Qed.

Lemma needs_consume {T} `{Element T} (expected : T) : needs (consume expected).
Proof. apply needs_bind, needs_next. Qed.

Lemma ssim_parse_str : ssim parse_str.
Proof.
  unfold parse_str. apply ssim_bind; [apply ssim_next|].
  intros [s|n|q]; [apply ssim_ret | apply ssim_raise | apply ssim_raise].
Qed.

Lemma needs_parse_str : needs parse_str.
Proof. apply needs_bind, needs_next. Qed.

Lemma parse_value_S n :
  parse_value (S n) =
  (token <- peek ;;
   if is_str token "{" then parse_dict n
   else if is_str token "[" then parse_list n
   else match token with
        | None => raise TypeError
        | Some (TStr EmptyString) => raise IndexError
        | Some (TStr (String c r)) =>
            if Ascii.eqb c quote then (x <- parse_str ;; ret (VStr x))
            else raise (ValueError (UnexpectedValue (TStr (String c r))))
        | Some _ => t <- next ;; ret (value_of_token t)
        end).
Proof. reflexivity. Qed.

Lemma parse_dict_loop_S n dict_ :
  parse_dict_loop (S n) dict_ =
  (key <- parse_str ;;
   consume (TStr ":") ;;
   value <- parse_value n ;;
   tok <- peek ;;
   if is_str tok "," then (next ;; parse_dict_loop n (dict_set key value dict_))
   else ret (dict_set key value dict_)).
Proof. reflexivity. Qed.

Lemma parse_list_loop_S n list_ :
  parse_list_loop (S n) list_ =
  (tok <- peek ;;
   if negb (is_str tok "]") then
     v <- parse_value n ;;
     tok <- peek ;;
     if is_str tok "," then (next ;; parse_list_loop n (list_ ++ [v]))
     else ret (list_ ++ [v])
   else ret list_).
Proof. reflexivity. Qed.

Lemma ssim_parse_dict_with loop :
  (forall d, wsim (loop d)) -> ssim (parse_dict_with loop).
Proof.
  intros Hl. unfold parse_dict_with.
  apply ssim_bind; [apply ssim_consume|]. intros _.
  apply ssim_bind_w; [apply Hl | |].
  - intros d. apply ssim_bind; [apply ssim_consume | intros _; apply ssim_ret].
  - intros d. apply needs_bind, needs_consume.
Qed.

Lemma ssim_parse_list_with loop :
  (forall l, wsim (loop l)) -> ssim (parse_list_with loop).
Proof.
  intros Hl. unfold parse_list_with.
  apply ssim_bind; [apply ssim_consume|]. intros _.
  apply ssim_bind_w; [apply Hl | |].
  - intros d. apply ssim_bind; [apply ssim_consume | intros _; apply ssim_ret].
  - intros d. apply needs_bind, needs_consume.
Qed.

Lemma needs_parse_value_branch n (token : option token) :
  needs (if is_str token "{" then parse_dict n
         else if is_str token "[" then parse_list n
         else match token with
              | None => raise TypeError
              | Some (TStr EmptyString) => raise IndexError
              | Some (TStr (String c r)) =>
                  if Ascii.eqb c quote then (x <- parse_str ;; ret (VStr x))
                  else raise (ValueError (UnexpectedValue (TStr (String c r))))
              | Some _ => t <- next ;; ret (value_of_token t)
              end).
Proof.
  destruct (is_str token "{"); [apply needs_bind, needs_consume|].
  destruct (is_str token "["); [apply needs_bind, needs_consume|].
  destruct token as [[[|c r]|z|q]|]; try apply needs_raise;
    try (apply needs_bind, needs_next).
  destruct (Ascii.eqb c quote); [apply needs_bind, needs_parse_str | apply needs_raise].
Qed.

Lemma sim_parser n :
  ssim (parse_value n)
  /\ (forall d, wsim (parse_dict_loop n d))
  /\ (forall l, wsim (parse_list_loop n l)).
Proof.
  induction n as [|n (IHv & IHd & IHl)].
  - split; [apply ssim_out_of_fuel|].
    split; intros; apply ssim_wsim, ssim_out_of_fuel.
  - split; [|split].
    + rewrite parse_value_S.
      apply ssim_bind_w; [apply wsim_peek | | apply needs_parse_value_branch].
      intros token.
      destruct (is_str token "{"); [apply ssim_parse_dict_with, IHd|].
      destruct (is_str token "["); [apply ssim_parse_list_with, IHl|].
      destruct token as [[[|c r]|z|q]|]; try apply ssim_raise;
        try (apply ssim_bind; [apply ssim_next | intros; apply ssim_ret]).
      destruct (Ascii.eqb c quote); [|apply ssim_raise].
      apply ssim_bind; [apply ssim_parse_str | intros; apply ssim_ret].
    + intros d. rewrite parse_dict_loop_S.
      apply wsim_bind_s; [apply ssim_parse_str|]. intros key.
      apply wsim_bind_s; [apply ssim_consume|]. intros _.
      apply wsim_bind_s; [apply IHv|]. intros value.
      apply wsim_bind; [apply wsim_peek|]. intros tok.
      destruct (is_str tok ","); [|apply ssim_wsim, ssim_ret].
      apply wsim_bind_s; [apply ssim_next | intros; apply IHd].
    + intros l. rewrite parse_list_loop_S.
      apply wsim_bind; [apply wsim_peek|]. intros tok.
      destruct (negb (is_str tok "]")); [|apply ssim_wsim, ssim_ret].
      apply wsim_bind_s; [apply IHv|]. intros v.
      apply wsim_bind; [apply wsim_peek|]. intros tok'.
      destruct (is_str tok' ","); [|apply ssim_wsim, ssim_ret].
      apply wsim_bind_s; [apply ssim_next | intros; apply IHl].
Qed.

(** ** Fuel of the parser *)

Lemma le_fuel_refl {T A} (m : M T A) : le_fuel m m.
Proof. intros s _. reflexivity. Qed.

Lemma le_fuel_trans {T A} (m1 m2 m3 : M T A) :
  le_fuel m1 m2 -> le_fuel m2 m3 -> le_fuel m1 m3.
Proof.
  intros H12 H23 s Hs. rewrite H23; rewrite H12; auto.
Qed.

Lemma le_fuel_bind {T A B} (m m' : M T A) (k k' : A -> M T B) :
  le_fuel m m' -> (forall a, le_fuel (k a) (k' a)) ->
  le_fuel (bind m k) (bind m' k').
Proof.
  intros Hm Hk s Hs. unfold bind in *.
  destruct (m s) as [[a sa]| |] eqn:E.
  - rewrite Hm, E by congruence. apply Hk. assumption.
  - rewrite Hm, E by congruence. reflexivity.
  - congruence.
Qed.

Lemma le_fuel_out {T A} (m : M T A) : le_fuel out_of_fuel m.
Proof. intros s Hs. exfalso. apply Hs. reflexivity. Qed.

Lemma mono_parser n :
  le_fuel (parse_value n) (parse_value (S n))
  /\ (forall d, le_fuel (parse_dict_loop n d) (parse_dict_loop (S n) d))
  /\ (forall l, le_fuel (parse_list_loop n l) (parse_list_loop (S n) l)).
Proof.
  induction n as [|n (IHv & IHd & IHl)].
  - split; [apply le_fuel_out|]. split; intros; apply le_fuel_out.
  - split; [|split].
    + rewrite (parse_value_S (S n)), (parse_value_S n).
      apply le_fuel_bind; [apply le_fuel_refl|]. intros token.
      destruct (is_str token "{").
      { unfold parse_dict, parse_dict_with.
        apply le_fuel_bind; [apply le_fuel_refl|]. intros _.
        apply le_fuel_bind; [apply IHd | intros; apply le_fuel_refl]. }
      destruct (is_str token "[").
      { unfold parse_list, parse_list_with.
        apply le_fuel_bind; [apply le_fuel_refl|]. intros _.
        apply le_fuel_bind; [apply IHl | intros; apply le_fuel_refl]. }
      apply le_fuel_refl.
    + intros d. rewrite (parse_dict_loop_S (S n)), (parse_dict_loop_S n).
      apply le_fuel_bind; [apply le_fuel_refl|]. intros key.
      apply le_fuel_bind; [apply le_fuel_refl|]. intros _.
      apply le_fuel_bind; [apply IHv|]. intros value.
      apply le_fuel_bind; [apply le_fuel_refl|]. intros tok.
      destruct (is_str tok ","); [|apply le_fuel_refl].
      apply le_fuel_bind; [apply le_fuel_refl | intros; apply IHd].
    + intros l. rewrite (parse_list_loop_S (S n)), (parse_list_loop_S n).
      apply le_fuel_bind; [apply le_fuel_refl|]. intros tok.
      destruct (negb (is_str tok "]")); [|apply le_fuel_refl].
      apply le_fuel_bind; [apply IHv|]. intros v.
      apply le_fuel_bind; [apply le_fuel_refl|]. intros tok'.
      destruct (is_str tok' ","); [|apply le_fuel_refl].
      apply le_fuel_bind; [apply le_fuel_refl | intros; apply IHl].
Qed.

Lemma mono_parser_le n m :
  (n <= m)%nat ->
  le_fuel (parse_value n) (parse_value m)
  /\ (forall d, le_fuel (parse_dict_loop n d) (parse_dict_loop m d))
  /\ (forall l, le_fuel (parse_list_loop n l) (parse_list_loop m l)).
Proof.
  induction 1 as [|m Hle (IHv & IHd & IHl)].
  - split; [apply le_fuel_refl|]. split; intros; apply le_fuel_refl.
  - destruct (mono_parser m) as (Hv & Hd & Hl).
    split; [eapply le_fuel_trans; eassumption|].
    split; intros; eapply le_fuel_trans; eauto.
Qed.

Lemma mono_parse_dict n m : (n <= m)%nat -> le_fuel (parse_dict n) (parse_dict m).
Proof.
  intros Hle. destruct (mono_parser_le n m Hle) as (_ & Hd & _).
  unfold parse_dict, parse_dict_with.
  apply le_fuel_bind; [apply le_fuel_refl|]. intros _.
  apply le_fuel_bind; [apply Hd | intros; apply le_fuel_refl].
Qed.

Lemma mono_parse_list n m : (n <= m)%nat -> le_fuel (parse_list n) (parse_list m).
Proof.
  intros Hle. destruct (mono_parser_le n m Hle) as (_ & _ & Hl).
  unfold parse_list, parse_list_with.
  apply le_fuel_bind; [apply le_fuel_refl|]. intros _.
  apply le_fuel_bind; [apply Hl | intros; apply le_fuel_refl].
Qed.

Lemma post_parse_str s :
  wf s ->
  post parse_str s (fun _ s' => follows s s' /\ _cursor s' = _cursor s + 1).
Proof.
  intros Hwf. unfold parse_str. apply post_bind; eapply post_weaken; [apply post_next; assumption | cbv beta].
  intros [x|n|q] s' (Hf & Hc & _); [apply post_ret; auto | exact I | exact I].
Qed.

Lemma post_parse_dict_with loop s :
  wf s ->
  (forall d s1, follows s s1 -> _cursor s < _cursor s1 ->
                post (loop d) s1 (fun _ s2 => follows s1 s2)) ->
  post (parse_dict_with loop) s (fun _ s' => follows s s' /\ _cursor s < _cursor s').
Proof.
  intros Hwf Hloop. unfold parse_dict_with.
  apply post_bind; eapply post_weaken; [apply post_consume; assumption | cbv beta].
  intros ? s1 (Hf1 & Hc1 & _).
  apply post_bind; eapply post_weaken; [apply Hloop; [assumption | lia] | cbv beta].
  intros d s2 Hf2.
  apply post_bind; eapply post_weaken; [apply post_consume; apply Hf2 | cbv beta].
  intros ? s3 (Hf3 & Hc3 & _). apply post_ret. follows_tac.
Qed.

Lemma post_parse_list_with loop s :
  wf s ->
  (forall l s1, follows s s1 -> _cursor s < _cursor s1 ->
                post (loop l) s1 (fun _ s2 => follows s1 s2)) ->
  post (parse_list_with loop) s (fun _ s' => follows s s' /\ _cursor s < _cursor s').
Proof.
  intros Hwf Hloop. unfold parse_list_with.
  apply post_bind; eapply post_weaken; [apply post_consume; assumption | cbv beta].
  intros ? s1 (Hf1 & Hc1 & _).
  apply post_bind; eapply post_weaken; [apply Hloop; [assumption | lia] | cbv beta].
  intros d s2 Hf2.
  apply post_bind; eapply post_weaken; [apply post_consume; apply Hf2 | cbv beta].
  intros ? s3 (Hf3 & Hc3 & _). apply post_ret. follows_tac.
Qed.

Lemma follows_shorter {T} (s s' : Stream T) (k : Z) :
  wf s -> follows s s' -> _cursor s + k <= _cursor s' ->
  Z.of_nat (length (rest s')) <= Z.of_nat (length (rest s)) - k.
Proof.
  intros Hwf Hf Hc. rewrite (follows_length s s' Hwf Hf). lia.
Qed.

Lemma total_parser n :
  (forall s, wf s -> (2 * length (rest s) + 1 <= n)%nat ->
     post (parse_value n) s (fun _ s' => follows s s' /\ _cursor s < _cursor s'))
  /\ (forall d s, wf s -> (2 * length (rest s) + 1 <= n)%nat ->
        post (parse_dict_loop n d) s (fun _ s' => follows s s'))
  /\ (forall l s, wf s -> (2 * length (rest s) + 2 <= n)%nat ->
        post (parse_list_loop n l) s (fun _ s' => follows s s')).
Proof.
  induction n as [|n (IHv & IHd & IHl)].
  - split; [|split]; intros; lia.
  - split; [|split].
    + intros s Hwf Hn. rewrite parse_value_S.
      apply post_bind; eapply post_weaken; [apply post_peek; assumption | cbv beta].
      intros token s' [-> ->].
      destruct (is_str (hd_error (rest s)) "{").
      { apply post_parse_dict_with; [assumption|]. intros d s1 Hf Hc.
        apply IHd; [apply Hf|].
        pose proof (follows_shorter s s1 1 Hwf Hf ltac:(lia)). lia. }
      destruct (is_str (hd_error (rest s)) "[").
      { apply post_parse_list_with; [assumption|]. intros l s1 Hf Hc.
        apply IHl; [apply Hf|].
        pose proof (follows_shorter s s1 1 Hwf Hf ltac:(lia)). lia. }
      destruct (hd_error (rest s)) as [[[|c r]|z|q]|]; try exact I.
      * destruct (Ascii.eqb c quote); [|exact I].
        apply post_bind; eapply post_weaken; [apply post_parse_str; assumption | cbv beta].
        intros x s1 (Hf & Hc). apply post_ret. split; [assumption | lia].
      * apply post_bind; eapply post_weaken; [apply post_next; assumption | cbv beta].
        intros x s1 (Hf & Hc & _). apply post_ret. split; [assumption | lia].
      * apply post_bind; eapply post_weaken; [apply post_next; assumption | cbv beta].
        intros x s1 (Hf & Hc & _). apply post_ret. split; [assumption | lia].
    + intros d s Hwf Hn. rewrite parse_dict_loop_S.
      apply post_bind; eapply post_weaken; [apply post_parse_str; assumption | cbv beta].
      intros key s1 (Hf1 & Hc1).
      apply post_bind; eapply post_weaken; [apply post_consume; apply Hf1 | cbv beta].
      intros ? s2 (Hf2 & Hc2 & _).
      assert (Hf02 : follows s s2) by (eapply follows_trans; eassumption).
      pose proof (follows_shorter s s2 2 Hwf Hf02 ltac:(lia)) as Hl2.
      apply post_bind; eapply post_weaken; [apply IHv; [apply Hf2 | lia] | cbv beta].
      intros value s3 (Hf3 & Hc3).
      assert (Hf03 : follows s s3) by (eapply follows_trans; eassumption).
      apply post_bind; eapply post_weaken; [apply post_peek; apply Hf3 | cbv beta].
      intros tok s' [-> ->].
      destruct (is_str _ ","); [|apply post_ret; assumption].
      apply post_bind; eapply post_weaken; [apply post_next; apply Hf3 | cbv beta].
      intros x s4 (Hf4 & Hc4 & _).
      assert (Hf04 : follows s s4) by (eapply follows_trans; eassumption).
      pose proof (follows_shorter s s4 4 Hwf Hf04 ltac:(lia)) as Hl4.
      eapply post_weaken; [apply IHd; [apply Hf4 | lia] | cbv beta].
      intros ? s5 Hf5. eapply follows_trans; eassumption.
    + intros l s Hwf Hn. rewrite parse_list_loop_S.
      apply post_bind; eapply post_weaken; [apply post_peek; assumption | cbv beta].
      intros tok s' [-> ->].
      destruct (negb _); [|apply post_ret, follows_refl; assumption].
      apply post_bind; eapply post_weaken; [apply IHv; [assumption | lia] | cbv beta].
      intros v s1 (Hf1 & Hc1).
      apply post_bind; eapply post_weaken; [apply post_peek; apply Hf1 | cbv beta].
      intros tok s' [-> ->].
      destruct (is_str _ ","); [|apply post_ret; assumption].
      apply post_bind; eapply post_weaken; [apply post_next; apply Hf1 | cbv beta].
      intros x s2 (Hf2 & Hc2 & _).
      assert (Hf02 : follows s s2) by (eapply follows_trans; eassumption).
      pose proof (follows_shorter s s2 2 Hwf Hf02 ltac:(lia)) as Hl2.
      eapply post_weaken; [apply IHl; [apply Hf2 | lia] | cbv beta].
      intros ? s3 Hf3. eapply follows_trans; eassumption.
Qed.

Lemma length_rest_le {T} (s : Stream T) : (length (rest s) <= length (_data s))%nat.
Proof. unfold rest. rewrite length_skipn. lia. Qed.

Lemma post_parse_dict n s :
  wf s -> (2 * length (rest s) <= n)%nat ->
  post (parse_dict n) s (fun v s' => follows s s' /\ _cursor s < _cursor s').
Proof.
  intros Hwf Hn. apply post_parse_dict_with; [assumption|].
  intros d s1 Hf Hc. destruct (total_parser n) as (_ & Hd & _).
  apply Hd; [apply Hf|].
  pose proof (follows_shorter s s1 1 Hwf Hf ltac:(lia)). lia.
Qed.

Lemma post_parse_list n s :
  wf s -> (2 * length (rest s) <= n)%nat ->
  post (parse_list n) s (fun v s' => follows s s' /\ _cursor s < _cursor s').
Proof.
  intros Hwf Hn. apply post_parse_list_with; [assumption|].
  intros l s1 Hf Hc. destruct (total_parser n) as (_ & _ & Hl).
  apply Hl; [apply Hf|].
  pose proof (follows_shorter s s1 1 Hwf Hf ltac:(lia)). lia.
Qed.

Lemma post_parse s : wf s -> post parse s (fun _ s' => follows s s').
Proof.
  intros Hwf. unfold parse.
  apply post_bind; eapply post_weaken; [apply post_peek; assumption | cbv beta].
  intros token s' [-> ->].
  pose proof (length_rest_le s) as Hle.
  assert (Hfuel : (2 * length (rest s) <= parse_fuel s)%nat)
    by (unfold parse_fuel; lia).
  apply post_bind.
  apply (post_weaken
           (if is_str (hd_error (rest s)) "{" then with_fuel parse_fuel parse_dict
            else if is_str (hd_error (rest s)) "[" then with_fuel parse_fuel parse_list
            else (i <- get_cursor ;; raise (ValueError (UnexpectedTokenNumber i))))
           s (fun _ s' => follows s s')).
  - destruct (is_str (hd_error (rest s)) "{").
    { eapply post_weaken; [apply (post_parse_dict (parse_fuel s)); assumption|].
      cbv beta. tauto. }
    destruct (is_str (hd_error (rest s)) "[").
    { eapply post_weaken; [apply (post_parse_list (parse_fuel s)); assumption|].
      cbv beta. tauto. }
    exact I.
  - intros tree s1 Hf. unfold get_cursor, get_end.
    apply post_bind. unfold post at 1. apply post_bind. unfold post at 1.
    destruct (_cursor s1 <? _end s1); [|apply post_ret; assumption].
    apply post_bind; eapply post_weaken; [apply post_peek; apply Hf | cbv beta].
    intros t s2 _. exact I.
Qed.

(** The parser never runs out of fuel: [parse] returns or raises. *)
Theorem parse_total (tokens : list token) : parse_tokens tokens <> OutOfFuel.
Proof.
  unfold parse_tokens.
  pose proof (post_parse (Stream_init tokens) (wf_init tokens)) as Hp.
  unfold post in Hp.
  destruct (parse (Stream_init tokens)) as [[v s']| |];
    [discriminate | discriminate | contradiction].
Qed.

Theorem run_total (text : string) : run text <> OutOfFuel.
Proof.
  pose proof (tokenize_total text) as Ht. unfold tokens_of in Ht. unfold run.
  destruct (tokenize _) as [[tokens s']| |]; [|discriminate|congruence].
  apply (parse_total tokens).
Qed.

Lemma run_parse_tokens (text : string) :
  run text = match tokens_of text with
             | Ok tokens => parse_tokens tokens
             | Raise e => Raise e
             | OutOfFuel => OutOfFuel
             end.
Proof.
  unfold run, tokens_of, parse_tokens.
  destruct (tokenize _) as [[tokens s']| |]; reflexivity.
Qed.

(** ** The top level *)

Lemma is_str_false_neq (t : token) (p : string) :
  t <> TStr p -> is_str (Some t) p = false.
Proof.
  intros Hne. destruct t as [s|n|q]; simpl; try reflexivity.
  apply String.eqb_neq. congruence.
Qed.

(** C8. [parse] raises on a token stream that is empty or does not
    start with the token [{] or [[]; so the tree a parse returns is a
    [dict] or a [list]. *)
Theorem top_level_is_container (tokens : list token) :
  (tokens = []
   \/ (exists t r, tokens = t :: r /\ t <> TStr "{" /\ t <> TStr "[") ->
   parse_tokens tokens = Raise (ValueError (UnexpectedTokenNumber 0)))
  /\ (forall v, parse_tokens tokens = Ok v -> is_container v = true).
Proof.
  split.
  - intros H. unfold parse_tokens, parse. unfold bind at 1.
    rewrite peek_rest by apply wf_init. rewrite rest_init.
    destruct H as [->|(t & r & -> & H1 & H2)].
    + reflexivity.
    + simpl hd_error. unfold bind at 1.
      rewrite (is_str_false_neq t "{" H1), (is_str_false_neq t "[" H2).
      reflexivity.
  - intros v H. unfold parse_tokens in H.
    destruct (parse (Stream_init tokens)) as [[tree s']| |] eqn:Hp;
      try discriminate.
    injection H as ->. unfold parse in Hp.
    apply bind_inv in Hp. destruct Hp as (token & s0 & _ & Hp).
    apply bind_inv in Hp. destruct Hp as (tree & s1 & Htree & Hp).
    assert (Hc : is_container tree = true).
    { destruct (is_str token "{").
      - unfold with_fuel, parse_dict, parse_dict_with in Htree.
        apply bind_inv in Htree. destruct Htree as (? & ? & _ & Htree).
        apply bind_inv in Htree. destruct Htree as (d & ? & _ & Htree).
        apply bind_inv in Htree. destruct Htree as (? & ? & _ & Htree).
        injection Htree as <- _. reflexivity.
      - destruct (is_str token "[").
        + unfold with_fuel, parse_list, parse_list_with in Htree.
          apply bind_inv in Htree. destruct Htree as (? & ? & _ & Htree).
          apply bind_inv in Htree. destruct Htree as (l & ? & _ & Htree).
          apply bind_inv in Htree. destruct Htree as (? & ? & _ & Htree).
          injection Htree as <- _. reflexivity.
        + apply bind_inv in Htree. destruct Htree as (? & ? & _ & Htree).
          discriminate. }
    apply bind_inv in Hp. destruct Hp as (cur & s2 & _ & Hp).
    apply bind_inv in Hp. destruct Hp as (e & s3 & _ & Hp).
    destruct (cur <? e).
    + apply bind_inv in Hp. destruct Hp as (? & ? & _ & Hp). discriminate.
    + injection Hp as <- _. assumption.
Qed.

Lemma top_level_is_container_witness :
  parse_tokens [TInt 5] = Raise (ValueError (UnexpectedTokenNumber 0))
  /\ is_container (VList [VInt 1]) = true.
Proof.
  split.
  - apply (proj1 (top_level_is_container [TInt 5])).
    right. exists (TInt 5), []. repeat split; discriminate.
  - apply (proj2 (top_level_is_container [TStr "["; TInt 1; TStr "]"])).
    reflexivity.
Defined.

Lemma rest_nil_iff {T} (s : Stream T) :
  wf s -> (rest s = [] <-> (_cursor s <? _end s) = false).
Proof.
  intros Hwf. pose proof (length_rest s Hwf) as Hl. destruct Hwf as [_ Hc].
  destruct (Z.ltb_spec (_cursor s) (_end s)); split; intros H'.
  - rewrite H' in Hl. simpl in Hl. lia.
  - discriminate.
  - reflexivity.
  - destruct (rest s); [reflexivity | simpl in Hl; lia].
Qed.

(** A computation that returned at the end of the tokens [t1] returns
    the same in front of the further tokens [t2], which it leaves. *)
Lemma top_extend {A} (m1 m2 : M token A) t1 t2 a sa :
  ssim m1 -> le_fuel m1 m2 ->
  m1 (Stream_init t1) = Ok (a, sa) ->
  (_cursor sa <? _end sa) = false ->
  exists sa', m2 (Stream_init (t1 ++ t2)) = Ok (a, sa') /\ wf sa' /\ rest sa' = t2.
Proof.
  intros Hs Hle Hm Hend.
  assert (He : ext t2 (Stream_init t1) (Stream_init (t1 ++ t2))).
  { unfold ext. rewrite !rest_init. auto using wf_init. }
  destruct (Hs t2 _ _ a sa He Hm) as (Hf & sa' & Hm' & (Hw & Hw' & Hr)).
  exists sa'. split; [|split; [assumption|]].
  - rewrite Hle; [assumption | congruence].
  - rewrite Hr. apply rest_nil_iff in Hend; [|assumption]. rewrite Hend. reflexivity.
Qed.

Lemma ensure_end_trailing (tree : value) (s : Stream token) t r :
  wf s -> rest s = t :: r ->
  (cur <- get_cursor ;;
   e <- get_end ;;
   if cur <? e then (t <- peek ;; raise (ValueError (UnexpectedTokenAtEnd t)))
   else ret tree) s = Raise (ValueError (UnexpectedTokenAtEnd (Some t))).
Proof.
  intros Hwf Hr. unfold bind at 1 2. unfold get_cursor, get_end.
  destruct (_cursor s <? _end s) eqn:E.
  - unfold bind. rewrite peek_rest, Hr by assumption. reflexivity.
  - apply rest_nil_iff in E; [congruence | assumption].
Qed.

Lemma parse_trailing (t1 t2 : list token) (v : value) :
  parse_tokens t1 = Ok v -> t2 <> [] ->
  parse_tokens (t1 ++ t2) = Raise (ValueError (UnexpectedTokenAtEnd (hd_error t2))).
Proof.
  unfold parse_tokens. intros Hp Hne.
  destruct (parse (Stream_init t1)) as [[tree s1]| |] eqn:H; try discriminate.
  clear Hp. unfold parse in H.
  apply bind_inv in H. destruct H as (token & s0 & Hpeek & H).
  rewrite peek_rest, rest_init in Hpeek by apply wf_init.
  injection Hpeek as <- <-.
  apply bind_inv in H. destruct H as (tree' & sa & Htree & H).
  apply bind_inv in H. destruct H as (cur & s2 & Hcur & H).
  apply bind_inv in H. destruct H as (e & s3 & He & H).
  injection Hcur as <- <-. injection He as <- <-.
  destruct (_cursor sa <? _end sa) eqn:Hend.
  { apply bind_inv in H. destruct H as (? & ? & _ & H). discriminate. }
  clear H.
  destruct t1 as [|t t1].
  { simpl in Htree. apply bind_inv in Htree.
    destruct Htree as (? & ? & _ & Htree). discriminate. }
  destruct t2 as [|t' t2]; [congruence|].
  set (F1 := parse_fuel (Stream_init (t :: t1))) in *.
  set (F2 := parse_fuel (Stream_init ((t :: t1) ++ t' :: t2))).
  assert (HF : (F1 <= F2)%nat).
  { unfold F1, F2, parse_fuel. simpl. rewrite length_app. simpl. lia. }
  unfold parse. unfold bind at 1.
  rewrite peek_rest, rest_init by apply wf_init.
  change (hd_error ((t :: t1) ++ t' :: t2)) with (Some t).
  change (hd_error (t :: t1)) with (Some t) in Htree.
  unfold bind at 1. unfold with_fuel in *.
  destruct (sim_parser F1) as (_ & Sd & Sl).
  destruct (is_str (Some t) "{").
  { change (parse_dict F1 (Stream_init (t :: t1)) = Ok (tree', sa)) in Htree.
    fold F2.
    destruct (top_extend (parse_dict F1) (parse_dict F2) _ (t' :: t2) _ _
                (ssim_parse_dict_with _ Sd) (mono_parse_dict _ _ HF) Htree Hend)
      as (sa' & Heq & Hw & Hr).
    rewrite Heq, (ensure_end_trailing tree' sa' t' t2 Hw Hr). reflexivity. }
  destruct (is_str (Some t) "[").
  { change (parse_list F1 (Stream_init (t :: t1)) = Ok (tree', sa)) in Htree.
    fold F2.
    destruct (top_extend (parse_list F1) (parse_list F2) _ (t' :: t2) _ _
                (ssim_parse_list_with _ Sl) (mono_parse_list _ _ HF) Htree Hend)
      as (sa' & Heq & Hw & Hr).
    rewrite Heq, (ensure_end_trailing tree' sa' t' t2 Hw Hr). reflexivity. }
  apply bind_inv in Htree. destruct Htree as (? & ? & _ & Htree). discriminate.
Qed.

(** X24. The test of [parse] for further tokens: when [tokenize]
    accepts the text and its tokens are those of a document that
    [parse] accepts, followed by at least one more token, [parse]
    raises the [ValueError] "Unexpected token at end of file" with the
    first of the further tokens. *)
Theorem trailing_tokens_raise (text : string) (t1 t2 : list token) (v : value) :
  tokens_of text = Ok (t1 ++ t2) ->
  parse_tokens t1 = Ok v ->
  t2 <> [] ->
  run text = Raise (ValueError (UnexpectedTokenAtEnd (hd_error t2))).
Proof.
  intros Ht Hp Hne. rewrite run_parse_tokens, Ht.
  apply (parse_trailing t1 t2 v); assumption.
Qed.

Lemma trailing_tokens_raise_witness :
  run "[1]2 " = Raise (ValueError (UnexpectedTokenAtEnd (Some (TInt 2)))).
Proof.
  apply (trailing_tokens_raise "[1]2 " [TStr "["; TInt 1; TStr "]"] [TInt 2]
           (VList [VInt 1])).
  - reflexivity.
  - reflexivity.
  - discriminate.
Defined.

(** Trailing content that is not a token: the error comes from
    [tokenize] and [parse] is not called. *)
Lemma trailing_content_not_trailing_tokens :
  run "[1]" = Ok (VList [VInt 1])
  /\ run "[1]x" = Raise (ValueError (UnexpectedChar "x" 3))
  /\ ~ (exists t, run "[1]x" = Raise (ValueError (UnexpectedTokenAtEnd t))).
Proof.
  split; [reflexivity|]. split; [reflexivity|].
  intros [t H]. vm_compute in H. discriminate.
Qed.

(** ** Arrays *)

Lemma peek_cons {T} (s : Stream T) x r :
  wf s -> rest s = x :: r -> peek s = Ok (Some x, s).
Proof. intros Hwf Hr. rewrite peek_rest, Hr by assumption. reflexivity. Qed.

Lemma consume_ok {T} `{Element T} (expected : T) (s : Stream T) x r :
  wf s -> rest s = x :: r -> elem_eqb x expected = true ->
  consume expected s = Ok (tt, advance s 1).
Proof.
  intros Hwf Hr He. unfold consume.
  rewrite (bind_ok _ _ _ _ _ (next_cons s x r Hwf Hr)), He. reflexivity.
Qed.

(** A value does not start with the token []]. *)
Lemma parse_value_not_close fuel s v s1 :
  wf s -> parse_value fuel s = Ok (v, s1) ->
  exists t r, rest s = t :: r /\ is_str (Some t) "]" = false.
Proof.
  intros Hwf H. destruct fuel as [|n]; [discriminate|].
  rewrite parse_value_S in H. unfold bind at 1 in H.
  rewrite peek_rest in H by assumption.
  destruct (rest s) as [|t r]; [discriminate|].
  exists t, r. split; [reflexivity|].
  destruct t as [str|z|q]; try reflexivity.
  simpl. destruct (String.eqb_spec str "]") as [->|Hne]; [|reflexivity].
  discriminate.
Qed.

Lemma wf_rest_nil {T} (s : Stream T) :
  wf s -> _cursor s = Z.of_nat (length (_data s)) -> rest s = [].
Proof.
  intros Hwf Hc. apply rest_nil_iff; [assumption|].
  destruct Hwf as [He _]. apply Z.ltb_ge. lia.
Qed.

Lemma parse_value_fuel F F' s v s1 :
  wf s -> parse_value F s = Ok (v, s1) ->
  (2 * length (rest s) + 1 <= F')%nat ->
  parse_value F' s = Ok (v, s1).
Proof.
  intros Hwf H HF'.
  destruct (mono_parser_le F (Nat.max F F') ltac:(lia)) as (Hm1 & _ & _).
  destruct (mono_parser_le F' (Nat.max F F') ltac:(lia)) as (Hm2 & _ & _).
  destruct (total_parser F') as (Tv & _ & _).
  specialize (Tv s Hwf HF'). unfold post in Tv.
  rewrite <- H, <- Hm1 by congruence. symmetry. apply Hm2.
  destruct (parse_value F' s) as [[? ?]| |];
    [discriminate | discriminate | contradiction].
Qed.

(** A value read where it stands among other tokens. *)
Lemma value_in_context tokens v post n s :
  value_tokens tokens v ->
  wf s -> rest s = tokens ++ post ->
  (2 * length (rest s) + 1 <= n)%nat ->
  exists s1, parse_value n s = Ok (v, s1) /\ wf s1 /\ rest s1 = post
             /\ _cursor s1 = _cursor s + Z.of_nat (length tokens).
Proof.
  intros (fuel & s' & Hv & Hc) Hwf Hr Hn.
  assert (He : ext post (Stream_init tokens) s).
  { unfold ext. rewrite rest_init. auto using wf_init. }
  destruct (sim_parser fuel) as (Sv & _ & _).
  destruct (Sv post _ _ v s' He Hv) as (Hf & s1 & Hv' & (Hw & Hw' & Hr')).
  assert (Hrs : rest s1 = post).
  { rewrite Hr', (wf_rest_nil s' Hw); [reflexivity|].
    destruct Hf as (_ & -> & _). exact Hc. }
  exists s1. split; [|split; [assumption | split; [assumption|]]].
  - apply (parse_value_fuel fuel); assumption.
  - pose proof (length_rest s Hwf) as L0. pose proof (length_rest s1 Hw') as L1.
    rewrite Hr, length_app in L0. rewrite Hrs in L1.
    assert (Hd : _end s1 = _end s).
    { destruct (sim_parser fuel) as (Sv' & _ & _).
      destruct (Sv' [] s s v s1) as (Hfs & _).
      - apply ext_refl. assumption.
      - assumption.
      - destruct Hfs as (Hws & Hds & _). destruct Hwf as [E0 _], Hws as [E1 _].
        rewrite E0, E1, Hds. reflexivity. }
    lia.
Qed.

Lemma parse_one_element (tokens : list token) (v : value) (tail : list token) :
  value_tokens tokens v ->
  tail = [TStr "]"] \/ tail = [TStr ","; TStr "]"] ->
  parse_tokens (TStr "[" :: tokens ++ tail) = Ok (VList [v]).
Proof.
  intros Hv Htail.
  set (whole := TStr "[" :: tokens ++ tail).
  set (S0 := Stream_init whole).
  set (S1 := advance S0 1).
  destruct (wf_advance S0 (TStr "[") (tokens ++ tail) (wf_init whole) (rest_init whole))
    as [Hw1 Hr1]. fold S1 in Hw1, Hr1.
  set (F' := (2 * length whole)%nat).
  assert (HF : parse_fuel S0 = S (S F')) by (unfold parse_fuel, F'; simpl; lia).
  (* the value, read in the middle of the array *)
  assert (Hval : exists s1', parse_value (S F') S1 = Ok (v, s1')
                             /\ wf s1' /\ rest s1' = tail).
  { destruct (value_in_context tokens v tail (S F') S1 Hv Hw1 Hr1)
      as (s1' & H1 & H2 & H3 & _); [|eauto].
    rewrite Hr1. unfold F', whole. simpl length. lia. }
  destruct Hval as (s1' & Hval & Hw1' & Hr1').
  destruct (parse_value_not_close _ _ _ _ Hw1 Hval) as (t & r & Hrt & Hnc).
  (* the loop of parse_list *)
  assert (Hloop : exists s2, parse_list_loop (S (S F')) [] S1 = Ok ([v], s2)
                             /\ wf s2 /\ rest s2 = [TStr "]"]).
  { rewrite parse_list_loop_S.
    rewrite (bind_ok _ _ _ _ _ (peek_cons S1 t r Hw1 Hrt)), Hnc. cbv [negb].
    rewrite (bind_ok _ _ _ _ _ Hval).
    destruct Htail as [Ht|Ht]; rewrite Ht in Hr1'.
    - exists s1'.
      rewrite (bind_ok _ _ _ _ _ (peek_cons s1' _ _ Hw1' Hr1')). auto.
    - destruct (wf_advance s1' _ _ Hw1' Hr1') as [Hw2 Hr2].
      exists (advance s1' 1).
      rewrite (bind_ok _ _ _ _ _ (peek_cons s1' _ _ Hw1' Hr1')).
      change (is_str (Some (TStr ",")) ",") with true. cbv iota.
      rewrite (bind_ok _ _ _ _ _ (next_cons s1' _ _ Hw1' Hr1')).
      rewrite parse_list_loop_S.
      rewrite (bind_ok _ _ _ _ _ (peek_cons _ _ _ Hw2 Hr2)). auto. }
  destruct Hloop as (s2 & Hloop & Hw2 & Hr2).
  destruct (wf_advance s2 _ _ Hw2 Hr2) as [Hw3 Hr3].
  unfold parse_tokens, parse. fold S0.
  rewrite (bind_ok _ _ _ _ _ (peek_cons S0 _ _ (wf_init whole) (rest_init whole))).
  change (is_str (Some (TStr "[")) "{") with false.
  change (is_str (Some (TStr "[")) "[") with true. cbv iota.
  assert (Hlist : with_fuel parse_fuel parse_list S0 = Ok (VList [v], advance s2 1)).
  { assert (Hopen : py_eq (TStr "[") (TStr "[") = true) by reflexivity.
    assert (Hclose : py_eq (TStr "]") (TStr "]") = true) by reflexivity.
    unfold with_fuel. rewrite HF. unfold parse_list, parse_list_with.
    rewrite (bind_ok _ _ _ _ _
               (@consume_ok token Element_token (TStr "[") S0 _ _
                  (wf_init whole) (rest_init whole) Hopen)).
    fold S1. rewrite (bind_ok _ _ _ _ _ Hloop).
    rewrite (bind_ok _ _ _ _ _ (@consume_ok token Element_token (TStr "]") s2 _ _ Hw2 Hr2 Hclose)).
    reflexivity. }
  rewrite (bind_ok _ _ _ _ _ Hlist).
  unfold bind, get_cursor, get_end.
  rewrite (proj1 (rest_nil_iff _ Hw3) Hr3). reflexivity.
Qed.

(** C10. A comma before the closing []] of an array is accepted: when
    [tokens] is read by [parse_value] as the value [v], the tokens
    [[], [tokens], [,], []] parse to the one-element list of [v], as
    the tokens [[], [tokens], []] do. *)
Theorem trailing_comma_accepted (tokens : list token) (v : value) :
  value_tokens tokens v ->
  parse_tokens (TStr "[" :: tokens ++ [TStr ","; TStr "]"]) = Ok (VList [v])
  /\ parse_tokens (TStr "[" :: tokens ++ [TStr "]"]) = Ok (VList [v]).
Proof.
  intros Hv. split; apply parse_one_element; auto.
Qed.

Lemma trailing_comma_accepted_witness :
  parse_tokens [TStr "["; TStr "{"; TStr (quoted "a"); TStr ":"; TInt 1; TStr "}";
                TStr ","; TStr "]"] = Ok (VList [VDict [("a"%string, VInt 1)]])
  /\ parse_tokens [TStr "["; TStr "{"; TStr (quoted "a"); TStr ":"; TInt 1; TStr "}";
                   TStr "]"] = Ok (VList [VDict [("a"%string, VInt 1)]]).
Proof.
  apply (trailing_comma_accepted
           [TStr "{"; TStr (quoted "a"); TStr ":"; TInt 1; TStr "}"]
           (VDict [("a"%string, VInt 1)])).
  exists 3%nat, (advance (Stream_init
                      [TStr "{"; TStr (quoted "a"); TStr ":"; TInt 1; TStr "}"]) 5).
  split; reflexivity.
Defined.

(** ** Values *)

(** C3 (the exhausted reader). On a reader with no token left,
    [parse_value] peeks [None] and raises [TypeError], not the
    [ValueError] "Unexpected JSON value". *)
Theorem parse_value_exhausted (tokens : list token) (n : nat) :
  parse_value (S n) (advance (Stream_init tokens) (Z.of_nat (length tokens)))
  = Raise TypeError.
Proof.
  rewrite parse_value_S. unfold bind.
  assert (Hwf : wf (advance (Stream_init tokens) (Z.of_nat (length tokens)))).
  { unfold wf, advance, Stream_init; simpl. lia. }
  rewrite peek_rest by assumption.
  rewrite wf_rest_nil; [reflexivity | assumption | simpl; lia].
Qed.

(** The text [[]: the value after the bracket is read on an exhausted
    reader. *)
Example open_bracket_alone :
  tokens_of "[" = Ok [TStr "["] /\ run "[" = Raise TypeError.
Proof. split; reflexivity. Qed.

(** On a token that is left, is a string, and starts no value,
    [parse_value] raises the [ValueError] with that token. *)
Lemma parse_value_unexpected n s c str r :
  wf s -> rest s = TStr (String c str) :: r ->
  String c str <> "{"%string -> String c str <> "["%string -> c <> quote ->
  parse_value (S n) s = Raise (ValueError (UnexpectedValue (TStr (String c str)))).
Proof.
  intros Hwf Hr H1 H2 H3. rewrite parse_value_S.
  rewrite (bind_ok _ _ _ _ _ (peek_cons s _ _ Hwf Hr)).
  rewrite !is_str_false_neq by congruence.
  destruct (Ascii.eqb_spec c quote); [contradiction | reflexivity].
Qed.

(** ** Objects *)

(** C4. The text [{}] gives the tokens [{] and [}]; [parse_dict] takes
    [}] as the key (the empty string once sliced) and the parse raises
    [IndexError]: no empty dict is returned. *)
Theorem empty_object_raises :
  tokens_of "{}" = Ok [TStr "{"; TStr "}"]
  /\ parse_str (advance (Stream_init [TStr "{"; TStr "}"]) 1)
     = Ok (EmptyString, advance (Stream_init [TStr "{"; TStr "}"]) 2)
  /\ parse_tokens [TStr "{"; TStr "}"] = Raise IndexError
  /\ run "{}" = Raise IndexError.
Proof. repeat split. Qed.

Lemma dict_set_not_nil {V} (k : string) (v : V) d : dict_set k v d <> [].
Proof.
  destruct d as [|[k' v'] r]; simpl; [discriminate|].
  destruct (String.eqb k' k); discriminate.
Qed.

Lemma parse_dict_loop_not_nil n : forall d s d' s',
  parse_dict_loop n d s = Ok (d', s') -> d' <> [].
Proof.
  induction n as [|n IH]; intros d s d' s' H; [discriminate|].
  rewrite parse_dict_loop_S in H.
  apply bind_inv in H. destruct H as (key & s1 & _ & H).
  apply bind_inv in H. destruct H as (? & s2 & _ & H).
  apply bind_inv in H. destruct H as (value & s3 & _ & H).
  apply bind_inv in H. destruct H as (tok & s4 & _ & H).
  destruct (is_str tok ",").
  - apply bind_inv in H. destruct H as (? & s5 & _ & H).
    apply (IH _ _ _ _ H).
  - injection H as <- _. apply dict_set_not_nil.
Qed.

(** No token stream parses to the empty dict. *)
Theorem parse_never_empty_dict (tokens : list token) :
  parse_tokens tokens <> Ok (VDict []).
Proof.
  unfold parse_tokens. intros H.
  destruct (parse (Stream_init tokens)) as [[tree s']| |] eqn:Hp; try discriminate.
  injection H as ->. unfold parse in Hp.
  apply bind_inv in Hp. destruct Hp as (token & s0 & _ & Hp).
  apply bind_inv in Hp. destruct Hp as (tree & s1 & Htree & Hp).
  apply bind_inv in Hp. destruct Hp as (cur & s2 & _ & Hp).
  apply bind_inv in Hp. destruct Hp as (e & s3 & _ & Hp).
  destruct (cur <? e).
  { apply bind_inv in Hp. destruct Hp as (? & ? & _ & Hp). discriminate. }
  injection Hp as -> _.
  destruct (is_str token "{").
  - unfold with_fuel, parse_dict, parse_dict_with in Htree.
    apply bind_inv in Htree. destruct Htree as (? & ? & _ & Htree).
    apply bind_inv in Htree. destruct Htree as (d & ? & Hloop & Htree).
    apply bind_inv in Htree. destruct Htree as (? & ? & _ & Htree).
    injection Htree as -> _.
    apply (parse_dict_loop_not_nil _ _ _ _ _ Hloop). reflexivity.
  - destruct (is_str token "[").
    + unfold with_fuel, parse_list, parse_list_with in Htree.
      apply bind_inv in Htree. destruct Htree as (? & ? & _ & Htree).
      apply bind_inv in Htree. destruct Htree as (l & ? & _ & Htree).
      apply bind_inv in Htree. destruct Htree as (? & ? & _ & Htree).
      discriminate.
    + apply bind_inv in Htree. destruct Htree as (? & ? & _ & Htree).
      discriminate.
Qed.

Lemma parse_str_ok s k r :
  wf s -> rest s = TStr k :: r -> parse_str s = Ok (slice_1_m1 k, advance s 1).
Proof.
  intros Hwf Hr. unfold parse_str.
  rewrite (bind_ok _ _ _ _ _ (next_cons s _ _ Hwf Hr)). reflexivity.
Qed.

Lemma dict_loop_entries (es : list entry) :
  es <> [] -> Forall entry_ok es ->
  forall n d s r,
    wf s -> rest s = entries_tokens es ++ TStr "}" :: r ->
    (2 * length (rest s) + 1 <= n)%nat ->
    exists s', parse_dict_loop n d s = Ok (dict_from es d, s')
               /\ wf s' /\ rest s' = TStr "}" :: r.
Proof.
  induction es as [|[[k ts] v] es' IH]; intros Hne Hok n d s r Hwf Hr Hn;
    [congruence|].
  inversion Hok as [|e l Hv Hok']; subst e l. unfold entry_ok in Hv. simpl in Hv.
  destruct n as [|n]; [lia|].
  assert (Hcolon : py_eq (TStr ":") (TStr ":") = true) by reflexivity.
  simpl entries_tokens in Hr.
  set (X := match es' with
            | [] => []
            | _ :: _ => TStr "," :: entries_tokens es'
            end) in Hr.
  simpl app in Hr. rewrite <- app_assoc in Hr.
  set (post := X ++ TStr "}" :: r) in Hr.
  rewrite Hr in Hn. simpl length in Hn.
  destruct (wf_advance s _ _ Hwf Hr) as [Hw1 Hr1].
  destruct (wf_advance _ _ _ Hw1 Hr1) as [Hw2 Hr2].
  destruct (value_in_context ts v post n _ Hv Hw2 Hr2) as (s3 & Hv3 & Hw3 & Hr3 & _).
  { rewrite Hr2. lia. }
  rewrite parse_dict_loop_S.
  rewrite (bind_ok _ _ _ _ _ (parse_str_ok s k _ Hwf Hr)).
  rewrite (bind_ok _ _ _ _ _
             (@consume_ok token Element_token (TStr ":") _ _ _ Hw1 Hr1 Hcolon)).
  rewrite (bind_ok _ _ _ _ _ Hv3).
  destruct es' as [|e' es''].
  - exists s3. unfold post, X in Hr3. simpl app in Hr3.
    rewrite (bind_ok _ _ _ _ _ (peek_cons s3 _ _ Hw3 Hr3)).
    split; [reflexivity | auto].
  - unfold post, X in Hr3. simpl app in Hr3.
    destruct (wf_advance _ _ _ Hw3 Hr3) as [Hw4 Hr4].
    rewrite (bind_ok _ _ _ _ _ (peek_cons s3 _ _ Hw3 Hr3)).
    change (is_str (Some (TStr ",")) ",") with true. cbv iota.
    rewrite (bind_ok _ _ _ _ _ (next_cons s3 _ _ Hw3 Hr3)).
    apply (IH ltac:(discriminate) Hok'); [assumption | assumption|].
    rewrite Hr4. rewrite length_app in Hn. unfold post, X in Hn.
    simpl length in Hn. lia.
Qed.

Lemma parse_object (es : list entry) :
  es <> [] -> Forall entry_ok es ->
  parse_tokens (object_tokens es) = Ok (VDict (dict_of es)).
Proof.
  intros Hne Hok.
  set (whole := object_tokens es). set (S0 := Stream_init whole).
  assert (Hr0 : rest S0 = TStr "{" :: entries_tokens es ++ [TStr "}"])
    by reflexivity.
  pose proof (wf_init whole) as Hw0. fold S0 in Hw0.
  destruct (wf_advance S0 _ _ Hw0 Hr0) as [Hw1 Hr1].
  destruct (dict_loop_entries es Hne Hok (parse_fuel S0) [] _ [] Hw1 Hr1)
    as (s2 & Hloop & Hw2 & Hr2).
  { rewrite Hr1. unfold parse_fuel, S0, whole, object_tokens. simpl. lia. }
  destruct (wf_advance s2 _ _ Hw2 Hr2) as [Hw3 Hr3].
  assert (Hopen : py_eq (TStr "{") (TStr "{") = true) by reflexivity.
  assert (Hclose : py_eq (TStr "}") (TStr "}") = true) by reflexivity.
  unfold parse_tokens, parse. fold whole. fold S0.
  rewrite (bind_ok _ _ _ _ _ (peek_cons S0 _ _ Hw0 Hr0)).
  change (is_str (Some (TStr "{")) "{") with true. cbv iota.
  assert (Hdict : with_fuel parse_fuel parse_dict S0 = Ok (VDict (dict_of es), advance s2 1)).
  { unfold with_fuel, parse_dict, parse_dict_with.
    rewrite (bind_ok _ _ _ _ _
               (@consume_ok token Element_token (TStr "{") S0 _ _ Hw0 Hr0 Hopen)).
    rewrite (bind_ok _ _ _ _ _ Hloop).
    rewrite (bind_ok _ _ _ _ _
               (@consume_ok token Element_token (TStr "}") s2 _ _ Hw2 Hr2 Hclose)).
    reflexivity. }
  rewrite (bind_ok _ _ _ _ _ Hdict).
  unfold bind, get_cursor, get_end.
  rewrite (proj1 (rest_nil_iff _ Hw3) Hr3). reflexivity.
Qed.

(** *** The dict *)

Lemma dict_get_set_same {V} (k : string) (v : V) d :
  dict_get k (dict_set k v d) = Some v.
Proof.
  induction d as [|[k' v'] r IH]; simpl.
  - rewrite String.eqb_refl. reflexivity.
  - destruct (String.eqb k' k) eqn:E; simpl; rewrite E; auto.
Qed.

Lemma dict_get_set_other {V} (k k' : string) (v : V) d :
  k <> k' -> dict_get k' (dict_set k v d) = dict_get k' d.
Proof.
  intros Hne. induction d as [|[k0 v0] r IH]; simpl.
  - destruct (String.eqb_spec k k'); [contradiction | reflexivity].
  - destruct (String.eqb_spec k0 k) as [->|E]; simpl.
    + destruct (String.eqb_spec k k'); [contradiction | reflexivity].
    + destruct (String.eqb k0 k'); [reflexivity | exact IH].
Qed.

Lemma keys_dict_set {V} (k : string) (v : V) d :
  keys (dict_set k v d)
  = if existsb (String.eqb k) (keys d) then keys d else keys d ++ [k].
Proof.
  induction d as [|[k' v'] r IH]; simpl; [reflexivity|].
  rewrite (String.eqb_sym k k').
  destruct (String.eqb k' k) eqn:E; simpl; [reflexivity|].
  rewrite IH.
  destruct (existsb (String.eqb k) (keys r)); reflexivity.
Qed.

Lemma existsb_eqb_In (k : string) (l : list string) :
  existsb (String.eqb k) l = true <-> In k l.
Proof.
  rewrite existsb_exists. split.
  - intros (x & Hin & E). apply String.eqb_eq in E. subst. assumption.
  - intros Hin. exists k. split; [assumption | apply String.eqb_refl].
Qed.

Lemma NoDup_keys_dict_set {V} (k : string) (v : V) d :
  NoDup (keys d) -> NoDup (keys (dict_set k v d)).
Proof.
  intros Hnd. rewrite keys_dict_set.
  destruct (existsb (String.eqb k) (keys d)) eqn:E; [assumption|].
  apply NoDup_app; [assumption | repeat constructor; intros [] |].
  intros x Hx [<-|[]].
  apply existsb_eqb_In in Hx. congruence.
Qed.

Lemma NoDup_keys_dict_from es : forall d,
  NoDup (keys d) -> NoDup (keys (dict_from es d)).
Proof.
  induction es as [|e es IH]; intros d Hd; simpl; [assumption|].
  apply IH, NoDup_keys_dict_set, Hd.
Qed.

Lemma keys_dict_from es : forall d,
  keys (dict_from es d) = first_seen (map entry_key es) (keys d).
Proof.
  induction es as [|e es IH]; intros d; simpl; [reflexivity|].
  unfold dict_from in IH. rewrite IH, keys_dict_set. reflexivity.
Qed.

Lemma dict_get_dict_from_other es k : forall d,
  ~ In k (map entry_key es) -> dict_get k (dict_from es d) = dict_get k d.
Proof.
  induction es as [|e es IH]; intros d Hnin; simpl; [reflexivity|].
  unfold dict_from in IH. rewrite IH.
  - apply dict_get_set_other. intros E. apply Hnin. left. assumption.
  - intros Hin. apply Hnin. right. assumption.
Qed.

Lemma dict_get_last es1 e es2 d :
  ~ In (entry_key e) (map entry_key es2) ->
  dict_get (entry_key e) (dict_from (es1 ++ e :: es2) d) = Some (entry_value e).
Proof.
  intros Hnin. unfold dict_from. rewrite fold_left_app. simpl.
  fold (dict_from es1 d).
  fold (dict_from es2 (dict_set (entry_key e) (entry_value e) (dict_from es1 d))).
  rewrite dict_get_dict_from_other by assumption.
  apply dict_get_set_same.
Qed.

(** C5. An object whose entries repeat a key parses without an error:
    the tokens of the entries [es] parse to the dict that the
    assignments [dict_[key] = value] build in order.  That dict has
    each key once, in the order in which the keys are first seen, and
    gives for a key the value of its last entry. *)
Theorem duplicate_key_overwrites (es : list entry) :
  es <> [] -> Forall entry_ok es ->
  parse_tokens (object_tokens es) = Ok (VDict (dict_of es))
  /\ NoDup (keys (dict_of es))
  /\ keys (dict_of es) = first_seen (map entry_key es) []
  /\ (forall es1 e es2,
        es = es1 ++ e :: es2 -> ~ In (entry_key e) (map entry_key es2) ->
        dict_get (entry_key e) (dict_of es) = Some (entry_value e)).
Proof.
  intros Hne Hok. split; [apply parse_object; assumption|].
  split; [apply NoDup_keys_dict_from; constructor|].
  split; [apply keys_dict_from|].
  intros es1 e es2 -> Hnin. apply dict_get_last. assumption.
Qed.

Lemma duplicate_key_overwrites_witness :
  tokens_of text_duplicate_key
  = Ok [TStr "{"; TStr (quoted "a"); TStr ":"; TInt 1; TStr ",";
        TStr (quoted "a"); TStr ":"; TInt 2; TStr "}"]
  /\ parse_tokens [TStr "{"; TStr (quoted "a"); TStr ":"; TInt 1; TStr ",";
                   TStr (quoted "a"); TStr ":"; TInt 2; TStr "}"]
     = Ok (VDict [("a"%string, VInt 2)])
  /\ run text_duplicate_key_apart
     = Ok (VDict [("a"%string, VInt 2); ("b"%string, VInt 3)]).
Proof.
  split; [reflexivity|]. split; [|reflexivity].
  apply (duplicate_key_overwrites
           [(quoted "a", [TInt 1], VInt 1); (quoted "a", [TInt 2], VInt 2)]).
  - discriminate.
  - repeat constructor.
    + exists 1%nat, (advance (Stream_init [TInt 1]) 1). split; reflexivity.
    + exists 1%nat, (advance (Stream_init [TInt 2]) 1). split; reflexivity.
Defined.

(** ** Sample runs *)

Example numbers_array :
  run "[1, 2.5, 3]" = Ok (VList [VInt 1; VFloat (binary64_div 5 2); VInt 3]).
Proof. reflexivity. Qed.

Example empty_array : run "[]" = Ok (VList []).
Proof. reflexivity. Qed.

Example top_level_scalar :
  run "5 " = Raise (ValueError (UnexpectedTokenNumber 0)).
Proof. reflexivity. Qed.

Example unquoted_key :
  run "{a:1}" = Raise (ValueError (UnexpectedChar "a" 1)).
Proof. reflexivity. Qed.

Example comma_then_brace :
  run (String.append "{" (String.append (quoted "a") ":1,}")) = Raise IndexError.
Proof. reflexivity. Qed.

(** ** More on the reader *)

(** X1. On a reader before its end, [next] returns the element [peek]
    shows, moves the cursor by one and leaves a reader state; on a reader
    at its end, [peek] returns [None] and [next] raises [IndexError]. *)
Theorem next_spec {T} (s : Stream T) :
  wf s ->
  (_cursor s < _end s ->
   exists x, nth_error (_data s) (Z.to_nat (_cursor s)) = Some x
             /\ peek s = Ok (Some x, s)
             /\ next s = Ok (x, advance s 1)
             /\ wf (advance s 1))
  /\ (_cursor s = _end s -> peek s = Ok (None, s) /\ next s = Raise IndexError).
Proof.
  intros Hwf. pose proof (length_rest s Hwf) as Hl.
  pose proof (getitem_rest s Hwf) as Hg.
  rewrite getitem_nth in Hg by (destruct Hwf; lia).
  destruct (rest s) as [|x r] eqn:Hr; simpl in Hl; split; intros Hc; try lia.
  - split; [rewrite peek_rest, Hr by assumption; reflexivity|].
    apply next_nil; assumption.
  - exists x. split; [assumption|].
    split; [apply (peek_cons s x r); assumption|].
    split; [apply (next_cons s x r); assumption|].
    apply (wf_advance s x r); assumption.
Qed.

Lemma next_spec_witness :
  next (Stream_init [TInt 1; TInt 2]) = Ok (TInt 1, advance (Stream_init [TInt 1; TInt 2]) 1)
  /\ next (advance (Stream_init [TInt 1; TInt 2]) 2) = Raise IndexError.
Proof.
  split.
  - destruct (proj1 (next_spec (Stream_init [TInt 1; TInt 2]) (wf_init _))
                ltac:(simpl; lia)) as (x & Hx & _ & Hn & _).
    simpl in Hx. injection Hx as <-. exact Hn.
  - apply (next_spec (advance (Stream_init [TInt 1; TInt 2]) 2)).
    + unfold wf; simpl; lia.
    + reflexivity.
Defined.

(** ** More on the tokenizer *)

Lemma char_classes (c : ascii) :
  (isdecimal c = true -> isnumeric c = true)
  /\ (isspace c = true ->
      isnumeric c = false /\ is_punct c = false
      /\ Ascii.eqb c quote = false /\ Ascii.eqb c dot = false)
  /\ (is_punct c = true ->
      isnumeric c = false /\ isspace c = false
      /\ Ascii.eqb c quote = false /\ Ascii.eqb c dot = false).
Proof.
  destruct c as [[] [] [] [] [] [] [] []]; vm_compute; intuition discriminate.
Qed.

Lemma skip_whitespace_loop_dropwhile fuel : forall s,
  wf s -> (length (rest s) < fuel)%nat ->
  exists s', skip_whitespace_loop fuel s = Ok (tt, s')
             /\ follows s s' /\ rest s' = dropwhile isspace (rest s).
Proof.
  induction fuel as [|n IH]; intros s Hwf Hlen; [lia|].
  simpl. unfold bind at 1. rewrite peek_rest by assumption.
  destruct (rest s) as [|c r] eqn:Hr; simpl.
  - exists s. split; [reflexivity|]. split; [apply follows_refl|]; assumption.
  - destruct (isspace c) eqn:Hc.
    + rewrite (bind_ok _ _ _ _ _ (next_cons s c r Hwf Hr)).
      destruct (wf_advance s c r Hwf Hr) as [Hw1 Hr1].
      destruct (IH (advance s 1) Hw1) as (s' & Hs & Hf & Hd).
      { rewrite Hr1. simpl in Hlen. lia. }
      exists s'. split; [assumption|]. split; [|rewrite Hd, Hr1; reflexivity].
      eapply follows_trans; [|eassumption].
      unfold follows. simpl. repeat split; try apply Hw1; lia.
    + exists s. split; [reflexivity|]. split; [apply follows_refl|]; assumption.
Qed.

Lemma skip_whitespace_dropwhile s :
  wf s ->
  exists s', skip_whitespace s = Ok (tt, s')
             /\ follows s s' /\ rest s' = dropwhile isspace (rest s).
Proof.
  intros Hwf. apply (skip_whitespace_loop_dropwhile (fuel_of s));
    [assumption | apply fuel_of_enough].
Qed.

(** X2. [skip_whitespace] raises nothing: it moves the reader, on the
    same data, past the whitespace characters in front of it and stops
    at the first other character or at the end. *)
Theorem skip_whitespace_spec (s : Stream ascii) :
  wf s ->
  exists s', skip_whitespace s = Ok (tt, s')
             /\ wf s' /\ _data s' = _data s
             /\ rest s' = dropwhile isspace (rest s)
             /\ _cursor s' = _end s - Z.of_nat (length (dropwhile isspace (rest s))).
Proof.
  intros Hwf. destruct (skip_whitespace_dropwhile s Hwf) as (s' & Hs & Hf & Hr).
  exists s'. split; [assumption|]. split; [apply Hf|]. split; [apply Hf|].
  split; [assumption|].
  pose proof (length_rest s' (proj1 Hf)) as Hl. rewrite Hr in Hl.
  destruct Hf as ((He' & _) & Hd & _). destruct Hwf as (He & _).
  rewrite He, <- Hd, <- He'. lia.
Qed.

Lemma skip_whitespace_spec_witness :
  exists s', skip_whitespace (Stream_init (list_ascii_of_string "  [ "))
             = Ok (tt, s')
             /\ rest s' = list_ascii_of_string "[ " /\ _cursor s' = 2.
Proof.
  destruct (skip_whitespace_spec (Stream_init (list_ascii_of_string "  [ "))
              (wf_init _)) as (s' & Hs & _ & _ & Hr & Hc).
  exists s'. split; [exact Hs|]. split; [exact Hr | exact Hc].
Defined.

Lemma tokenize_str_loop_ok body : forall fuel chars s tail,
  wf s -> rest s = body ++ quote :: tail -> ~ In quote body ->
  (length body < fuel)%nat ->
  exists s', tokenize_str_loop fuel chars s = Ok (chars ++ body ++ [quote], s')
             /\ follows s s' /\ rest s' = tail.
Proof.
  induction body as [|c body IH]; intros fuel chars s tail Hwf Hr Hq Hlen;
    (destruct fuel as [|n]; [simpl in Hlen; lia|]); simpl app in Hr;
    destruct (wf_advance s _ _ Hwf Hr) as [Hw1 Hr1];
    assert (Hf1 : follows s (advance s 1))
      by (unfold follows; simpl; repeat split; try apply Hw1; lia);
    simpl tokenize_str_loop;
    rewrite (bind_ok _ _ _ _ _ (next_cons s _ _ Hwf Hr)).
  - change (Ascii.eqb quote quote) with true. cbv iota.
    exists (advance s 1). auto.
  - destruct (Ascii.eqb_spec c quote) as [->|Hne].
    { exfalso. apply Hq. left. reflexivity. }
    destruct (IH n (chars ++ [c]) (advance s 1) tail Hw1 Hr1) as (s' & Hs & Hf & Hr').
    { intros Hin. apply Hq. right. assumption. }
    { simpl in Hlen. lia. }
    exists s'. rewrite Hs, <- app_assoc. simpl.
    split; [reflexivity|]. split; [eapply follows_trans; eassumption | assumption].
Qed.

Lemma tokenize_str_ok s body tail :
  wf s -> rest s = quote :: body ++ quote :: tail -> ~ In quote body ->
  exists s', tokenize_str s = Ok (string_of_list_ascii (quote :: body ++ [quote]), s')
             /\ follows s s' /\ rest s' = tail.
Proof.
  intros Hwf Hr Hq. destruct (wf_advance s _ _ Hwf Hr) as [Hw1 Hr1].
  assert (Hquote : Ascii.eqb quote quote = true) by reflexivity.
  destruct (tokenize_str_loop_ok body (fuel_of (advance s 1)) [quote]
              (advance s 1) tail Hw1 Hr1 Hq) as (s' & Hs & Hf & Hr').
  { pose proof (fuel_of_enough (advance s 1)) as Hl.
    rewrite Hr1, length_app in Hl. lia. }
  exists s'. unfold tokenize_str.
  rewrite (bind_ok _ _ _ _ _
             (@consume_ok ascii Element_char quote s _ _ Hwf Hr Hquote)).
  change (tokenize_str_loop (fuel_of (advance s 1)) [quote] (advance s 1))
    with (with_fuel fuel_of (fun fuel => tokenize_str_loop fuel [quote]) (advance s 1))
    in Hs.
  rewrite (bind_ok _ _ _ _ _ Hs).
  split; [reflexivity|]. split; [|assumption].
  eapply follows_trans; [|eassumption].
  unfold follows; simpl; repeat split; try apply Hw1; lia.
Qed.

Lemma slice_quoted (body : list ascii) :
  slice_1_m1 (string_of_list_ascii (quote :: body ++ [quote]))
  = string_of_list_ascii body.
Proof.
  unfold slice_1_m1. rewrite list_ascii_of_string_of_list_ascii.
  simpl tl. rewrite removelast_last. reflexivity.
Qed.

(** X3. A string literal: at a quote that is followed by the characters
    [body], none of them a quote, and a closing quote, [tokenize_str]
    returns the literal with both quotes and leaves the reader behind
    the closing quote.  Nothing is escaped: the literal ends at the
    first quote.  [parse_value] reads the token back as [body]. *)
Theorem string_literal_round_trip (s : Stream ascii) body tail (n : nat) :
  wf s -> rest s = quote :: body ++ quote :: tail -> ~ In quote body ->
  exists s' lit,
    tokenize_str s = Ok (lit, s')
    /\ lit = string_of_list_ascii (quote :: body ++ [quote])
    /\ wf s' /\ rest s' = tail
    /\ parse_value (S n) (Stream_init [TStr lit])
       = Ok (VStr (string_of_list_ascii body), advance (Stream_init [TStr lit]) 1).
Proof.
  intros Hwf Hr Hq.
  destruct (tokenize_str_ok s body tail Hwf Hr Hq) as (s' & Hs & Hf & Hr').
  exists s', (string_of_list_ascii (quote :: body ++ [quote])).
  split; [assumption|]. split; [reflexivity|]. split; [apply Hf|].
  split; [assumption|].
  change (string_of_list_ascii (quote :: body ++ [quote]))
    with (String quote (string_of_list_ascii (body ++ [quote]))).
  set (lit_tail := string_of_list_ascii (body ++ [quote])).
  rewrite parse_value_S.
  rewrite (bind_ok _ _ _ _ _ (peek_cons _ _ _ (wf_init _) (rest_init _))).
  change (is_str (Some (TStr (String quote lit_tail))) "{") with false.
  change (is_str (Some (TStr (String quote lit_tail))) "[") with false.
  cbv iota. change (Ascii.eqb quote quote) with true. cbv iota.
  rewrite (bind_ok _ _ _ _ _ (parse_str_ok _ _ _ (wf_init _) (rest_init _))).
  unfold ret. f_equal. f_equal. f_equal.
  apply (slice_quoted body).
Qed.

Lemma string_literal_round_trip_witness :
  exists s' lit,
    tokenize_str (Stream_init (list_ascii_of_string (String.append (quoted "a\") " :")))
    = Ok (lit, s')
    /\ lit = quoted "a\"
    /\ rest s' = list_ascii_of_string " :"
    /\ parse_value 1 (Stream_init [TStr lit])
       = Ok (VStr "a\", advance (Stream_init [TStr lit]) 1).
Proof.
  destruct (string_literal_round_trip
              (Stream_init (list_ascii_of_string (String.append (quoted "a\") " :")))
              (list_ascii_of_string "a\") (list_ascii_of_string " :") 0
              (wf_init _) eq_refl)
    as (s' & lit & H1 & H2 & _ & H3 & H4).
  { simpl. unfold quote. intuition discriminate. }
  exists s', lit. rewrite H2 in *. repeat split; assumption.
Defined.

Lemma forallb_decimal_numeric (d : list ascii) :
  forallb isdecimal d = true -> forallb isnumeric d = true.
Proof.
  induction d as [|c d IH]; simpl; [reflexivity|].
  intros H. apply andb_prop in H. destruct H as [Hc Hd].
  rewrite (proj1 (char_classes c) Hc), IH by assumption. reflexivity.
Qed.

(** The scan of [tokenize_num] over the numeric characters [d], when the
    character after them is neither numeric nor a dot. *)
Lemma tokenize_num_scan_int s d t tail :
  wf s -> rest s = d ++ t :: tail -> d <> [] ->
  forallb isnumeric d = true -> isnumeric t = false -> Ascii.eqb t dot = false ->
  exists s', follows s s' /\ rest s' = t :: tail
             /\ tokenize_num s = lift (py_int d) TInt s'.
Proof.
  intros Hwf Hr Hne Hd Ht Hdot.
  pose proof (fuel_of_enough s) as Hlen. rewrite Hr, length_app in Hlen.
  simpl length in Hlen.
  destruct (tokenize_num_loop_digits d (fuel_of s - length d) [] false s _ Hwf Hr Hd)
    as (s' & Hw' & Hr' & Hc' & Hd' & Heq).
  exists s'. split; [unfold follows; repeat split; try apply Hw'; try assumption; lia|].
  split; [assumption|].
  unfold tokenize_num, with_fuel. unfold bind.
  replace (fuel_of s) with (length d + (fuel_of s - length d))%nat at 1 by lia.
  rewrite Heq.
  destruct (fuel_of s - length d)%nat as [|k] eqn:Hk; [lia|].
  rewrite tokenize_num_loop_unfold, Hr', Ht, Hdot by assumption. reflexivity.
Qed.

(** The same scan over [d], a dot and [f]. *)
Lemma tokenize_num_scan_float s d f t tail :
  wf s -> rest s = d ++ dot :: f ++ t :: tail -> d <> [] ->
  forallb isnumeric d = true -> forallb isnumeric f = true ->
  isnumeric t = false -> Ascii.eqb t dot = false ->
  exists s', follows s s' /\ rest s' = t :: tail
             /\ tokenize_num s = lift (py_float (d ++ dot :: f)) TFloat s'.
Proof.
  intros Hwf Hr Hne Hd Hf Ht Hdot.
  pose proof (fuel_of_enough s) as Hlen. rewrite Hr in Hlen.
  rewrite length_app in Hlen. simpl length in Hlen.
  rewrite length_app in Hlen. simpl length in Hlen.
  assert (HK : exists K, fuel_of s = (length d + S (length f + S K))%nat).
  { exists (fuel_of s - length d - length f - 2)%nat. lia. }
  destruct HK as [K HK].
  destruct (tokenize_num_loop_digits d (S (length f + S K)) [] false s _ Hwf Hr Hd)
    as (s1 & Hw1 & Hr1 & Hc1 & Hd1 & Heq1).
  destruct (wf_advance s1 _ _ Hw1 Hr1) as [Hw2 Hr2].
  destruct (tokenize_num_loop_digits f (S K) (d ++ [dot]) true (advance s1 1) _
              Hw2 Hr2 Hf)
    as (s' & Hw' & Hr' & Hc' & Hd' & Heq2).
  exists s'. split.
  { unfold follows. split; [assumption|]. simpl in Hc', Hd'. split; [congruence | lia]. }
  split; [assumption|].
  unfold tokenize_num, with_fuel. unfold bind.
  rewrite HK, Heq1.
  rewrite tokenize_num_loop_unfold, Hr1 by assumption.
  change (isnumeric dot) with false. change (Ascii.eqb dot dot) with true. cbv iota.
  simpl app. rewrite Heq2.
  rewrite tokenize_num_loop_unfold, Hr', Ht, Hdot by assumption.
  rewrite <- app_assoc. reflexivity.
Qed.

Lemma forallb_decimal_no_dot (d : list ascii) :
  forallb isdecimal d = true -> ~ In dot d.
Proof.
  intros H Hin. rewrite forallb_forall in H. specialize (H dot Hin). discriminate.
Qed.

Lemma split_dot_app d f :
  ~ In dot d -> split_dot (d ++ dot :: f) = (d, Some f).
Proof.
  induction d as [|c d IH]; intros Hn; simpl.
  - reflexivity.
  - destruct (Ascii.eqb_spec c "."%char) as [->|Hne].
    + exfalso. apply Hn. left. reflexivity.
    + rewrite IH; [reflexivity|]. intros Hin. apply Hn. right. assumption.
Qed.

Lemma py_int_decimal d :
  d <> [] -> forallb isdecimal d = true -> py_int d = Ok (decimal_value d).
Proof.
  intros Hne Hd. unfold py_int. destruct d; [congruence|]. rewrite Hd. reflexivity.
Qed.

Lemma py_float_decimal d f :
  d <> [] -> forallb isdecimal d = true -> forallb isdecimal f = true ->
  py_float (d ++ dot :: f) = Ok (float_of_decimal (d ++ f) (length f)).
Proof.
  intros Hne Hd Hf. unfold py_float.
  rewrite split_dot_app by (apply forallb_decimal_no_dot; assumption).
  destruct (d ++ f) as [|c l] eqn:E.
  - destruct d; [congruence | discriminate].
  - rewrite <- E, forallb_app, Hd, Hf. reflexivity.
Qed.

Lemma decimal_value_snoc d c :
  decimal_value (d ++ [c]) = 10 * decimal_value d + digit_value c.
Proof. unfold decimal_value. rewrite fold_left_app. reflexivity. Qed.

Lemma decimal_value_nonneg_from d : forall acc,
  forallb isdecimal d = true -> 0 <= acc ->
  0 <= fold_left (fun acc c => 10 * acc + digit_value c) d acc.
Proof.
  induction d as [|c d IH]; intros acc Hd Hacc; cbn [fold_left]; [assumption|].
  simpl in Hd. apply andb_prop in Hd. destruct Hd as [Hc Hd].
  apply IH; [assumption|].
  unfold isdecimal in Hc. cbv zeta in Hc. apply andb_prop in Hc.
  destruct Hc as [H1 _]. apply Z.leb_le in H1. unfold digit_value. lia.
Qed.

Lemma decimal_value_nonneg d : forallb isdecimal d = true -> 0 <= decimal_value d.
Proof. intros H. apply decimal_value_nonneg_from; [assumption | lia]. Qed.

(** X4. An integer: at decimal digits [d] followed by a character that
    is neither numeric nor a dot, [tokenize_num] returns the [int] the
    digits denote in base ten (leading zeros count for nothing) and
    leaves the reader at that character. *)
Theorem integer_token (s : Stream ascii) d t tail :
  wf s -> rest s = d ++ t :: tail -> d <> [] ->
  forallb isdecimal d = true -> isnumeric t = false -> t <> dot ->
  exists s', tokenize_num s = Ok (TInt (decimal_value d), s')
             /\ wf s' /\ rest s' = t :: tail
             /\ 0 <= decimal_value d
             /\ decimal_value ("0"%char :: d) = decimal_value d
             /\ (forall c, decimal_value (d ++ [c]) = 10 * decimal_value d + (code c - 48)).
Proof.
  intros Hwf Hr Hne Hd Ht Hdot.
  destruct (tokenize_num_scan_int s d t tail Hwf Hr Hne
              (forallb_decimal_numeric d Hd) Ht) as (s' & Hf & Hr' & Heq).
  { destruct (Ascii.eqb_spec t dot); [contradiction | reflexivity]. }
  exists s'. rewrite Heq, py_int_decimal by assumption.
  split; [reflexivity|]. split; [apply Hf|]. split; [assumption|].
  split; [apply decimal_value_nonneg; assumption|].
  split; [reflexivity | intros c; apply decimal_value_snoc].
Qed.

Lemma integer_token_witness :
  exists s', tokenize_num (Stream_init (list_ascii_of_string "007]"))
             = Ok (TInt 7, s')
             /\ rest s' = list_ascii_of_string "]".
Proof.
  destruct (integer_token (Stream_init (list_ascii_of_string "007]"))
              (list_ascii_of_string "007") "]"%char [] (wf_init _) eq_refl
              ltac:(discriminate) eq_refl eq_refl ltac:(discriminate))
    as (s' & H1 & _ & H2 & _).
  exists s'. split; [exact H1 | exact H2].
Defined.

(** ** Floats *)

Lemma shr_1_nonneg mrs : 0 <= shr_m mrs -> 0 <= shr_m (shr_1 mrs).
Proof.
  destruct mrs as [m r s]. destruct m as [|[p|p|]|p]; simpl; lia.
Qed.

Lemma iter_pos_shr_1_nonneg k : forall mrs,
  0 <= shr_m mrs -> 0 <= shr_m (iter_pos shr_1 k mrs).
Proof.
  induction k as [k IH|k IH|]; intros mrs H; cbn [iter_pos].
  - apply IH, IH, shr_1_nonneg, H.
  - apply IH, IH, H.
  - apply shr_1_nonneg, H.
Qed.

Lemma shr_fexp_nonneg m e l :
  0 <= m -> 0 <= shr_m (fst (shr_fexp 53 1024 m e l)).
Proof.
  intros H. unfold shr_fexp, shr.
  assert (H0 : 0 <= shr_m (shr_record_of_loc m l)) by (destruct l as [|[| |]]; exact H).
  destruct (fexp 53 1024 (Zdigits2 m + e) - e); cbn [fst];
    [assumption | apply iter_pos_shr_1_nonneg; assumption | assumption].
Qed.

Lemma round_nearest_even_nonneg m l : 0 <= m -> 0 <= round_nearest_even m l.
Proof.
  intros H. destruct l as [|[| |]]; cbn [round_nearest_even];
    try destruct (Z.even m); lia.
Qed.

Lemma binary_round_aux_nonneg m e l :
  0 <= m -> float_nonneg (binary_round_aux 53 1024 false m e l) = true.
Proof.
  intros H. unfold binary_round_aux.
  pose proof (shr_fexp_nonneg m e l H) as H1.
  destruct (shr_fexp 53 1024 m e l) as [mrs1 e1]. cbn [fst] in H1.
  pose proof (shr_fexp_nonneg _ e1 loc_Exact
                (round_nearest_even_nonneg _ (loc_of_shr_record mrs1) H1)) as H2.
  destruct (shr_fexp 53 1024 _ e1 loc_Exact) as [mrs2 e2]. cbn [fst] in H2.
  destruct (shr_m mrs2) as [|k|k]; [reflexivity | | lia].
  destruct (e2 <=? 1024 - 53); reflexivity.
Qed.

(** A float made from a natural number over a positive one is zero,
    positive or [inf]; never negative, never [nan]. *)
Lemma binary64_div_nonneg p q :
  0 <= p -> 0 < q -> float_nonneg (binary64_div p q) = true.
Proof.
  intros Hp Hq. unfold binary64_div, SFdiv_core_binary. cbv zeta.
  match goal with
  | |- context [Z.div_eucl ?a q] =>
      assert (Ha : 0 <= a);
      [| pose proof (Z.div_pos a q Ha Hq) as Hd; unfold Z.div in Hd;
         destruct (Z.div_eucl a q) as [q0 r] ]
  end.
  - match goal with
    | |- 0 <= match ?s with _ => _ end => destruct s
    end; [assumption | apply Z.shiftl_nonneg; assumption | lia].
  - apply binary_round_aux_nonneg, Hd.
Qed.

Lemma float_of_decimal_nonneg digits n :
  forallb isdecimal digits = true -> float_nonneg (float_of_decimal digits n) = true.
Proof.
  intros Hd. unfold float_of_decimal.
  apply binary64_div_nonneg; [apply decimal_value_nonneg, Hd | lia].
Qed.

(** Some values of [float]: [0.1] is not a binary fraction and is
    rounded; [2.5] is exact; a one with four hundred zeros is [inf];
    a one behind four hundred zeros is [0.0]. *)
Example float_examples :
  float_of_decimal (list_ascii_of_string "01") 1
  = S754_finite false 7205759403792794 (-56)
  /\ float_of_decimal (list_ascii_of_string "25") 1
     = S754_finite false 5629499534213120 (-51)
  /\ option_map Qred (float_value (float_of_decimal (list_ascii_of_string "25") 1))
     = Some (5 # 2)%Q
  /\ float_of_decimal ("1"%char :: repeat "0"%char 400) 0 = S754_infinity false
  /\ float_of_decimal (repeat "0"%char 400 ++ ["1"%char]) 400 = S754_zero false.
Proof. repeat split; vm_compute; reflexivity. Qed.

(** X5. A float: at decimal digits [d], a dot, decimal digits [f]
    (possibly none) and a character that is neither numeric nor a dot,
    [tokenize_num] returns what [float] makes of the scanned text: the
    binary64 nearest to the digits of [d] and [f] over ten to the
    number of digits of [f] (so [0.1] is rounded, and a number beyond
    the largest float becomes [inf]), which is zero, positive or
    [inf]; the reader is left at that character. *)
Theorem float_token (s : Stream ascii) d f t tail :
  wf s -> rest s = d ++ dot :: f ++ t :: tail -> d <> [] ->
  forallb isdecimal d = true -> forallb isdecimal f = true ->
  isnumeric t = false -> t <> dot ->
  exists s',
    tokenize_num s = Ok (TFloat (float_of_decimal (d ++ f) (length f)), s')
    /\ wf s' /\ rest s' = t :: tail
    /\ float_nonneg (float_of_decimal (d ++ f) (length f)) = true.
Proof.
  intros Hwf Hr Hne Hd Hf Ht Hdot.
  destruct (tokenize_num_scan_float s d f t tail Hwf Hr Hne
              (forallb_decimal_numeric d Hd) (forallb_decimal_numeric f Hf) Ht)
    as (s' & Hfo & Hr' & Heq).
  { destruct (Ascii.eqb_spec t dot); [contradiction | reflexivity]. }
  exists s'. rewrite Heq, py_float_decimal by assumption.
  split; [reflexivity|]. split; [apply Hfo|]. split; [assumption|].
  apply float_of_decimal_nonneg. rewrite forallb_app, Hd, Hf. reflexivity.
Qed.

Lemma float_token_witness :
  exists s', tokenize_num (Stream_init (list_ascii_of_string "0.1,"))
             = Ok (TFloat (S754_finite false 7205759403792794 (-56)), s')
             /\ rest s' = list_ascii_of_string ","
  /\ exists s'', tokenize_num (Stream_init (list_ascii_of_string "1. "))
                 = Ok (TFloat (S754_finite false 4503599627370496 (-52)), s'').
Proof.
  destruct (float_token (Stream_init (list_ascii_of_string "0.1,"))
              (list_ascii_of_string "0") (list_ascii_of_string "1") ","%char []
              (wf_init _) eq_refl ltac:(discriminate) eq_refl eq_refl eq_refl
              ltac:(discriminate))
    as (s' & H1 & _ & H2 & _).
  destruct (float_token (Stream_init (list_ascii_of_string "1. "))
              (list_ascii_of_string "1") [] " "%char []
              (wf_init _) eq_refl ltac:(discriminate) eq_refl eq_refl eq_refl
              ltac:(discriminate))
    as (s'' & H3 & _).
  exists s'. split; [exact H1|]. split; [exact H2|]. exists s''. exact H3.
Defined.

(** X6. A numeric character that is not a decimal digit (a superscript
    digit, a fraction) is taken into the number by the scan, and
    [int] then rejects the text: [tokenize_num] raises the
    [ValueError] of [int] for the scanned text. *)
Theorem integer_token_invalid_literal (s : Stream ascii) d t tail :
  wf s -> rest s = d ++ t :: tail -> d <> [] ->
  forallb isnumeric d = true -> forallb isdecimal d = false ->
  isnumeric t = false -> t <> dot ->
  tokenize_num s = Raise (ValueError (InvalidLiteral (string_of_list_ascii d))).
Proof.
  intros Hwf Hr Hne Hd Hnd Ht Hdot.
  destruct (tokenize_num_scan_int s d t tail Hwf Hr Hne Hd Ht) as (s' & Hf & Hr' & Heq).
  { destruct (Ascii.eqb_spec t dot); [contradiction | reflexivity]. }
  rewrite Heq. unfold py_int. destruct d; [congruence|]. rewrite Hnd. reflexivity.
Qed.

Lemma integer_token_invalid_literal_witness :
  tokenize_num (Stream_init [ascii_of_nat 49; ascii_of_nat 178; "]"%char])
  = Raise (ValueError (InvalidLiteral
             (string_of_list_ascii [ascii_of_nat 49; ascii_of_nat 178]))).
Proof.
  apply (integer_token_invalid_literal
           (Stream_init [ascii_of_nat 49; ascii_of_nat 178; "]"%char])
           [ascii_of_nat 49; ascii_of_nat 178] "]"%char []).
  - apply wf_init.
  - reflexivity.
  - discriminate.
  - reflexivity.
  - reflexivity.
  - reflexivity.
  - discriminate.
Defined.

Lemma skip_whitespace_data s s1 :
  wf s -> skip_whitespace s = Ok (tt, s1) ->
  follows s s1 /\ rest s1 = dropwhile isspace (rest s).
Proof.
  intros Hwf Hs. destruct (skip_whitespace_dropwhile s Hwf) as (s' & Hs' & Hf & Hr).
  rewrite Hs in Hs'. injection Hs' as <-. auto.
Qed.

(** X7. A character that starts no token: when the loop of [tokenize]
    comes, after the whitespace, to a character that is not one of
    [{}[]:,], not a quote and not numeric, [tokenize] raises the
    [ValueError] "Unexpected char" with that character and its index in
    the text. *)
Theorem unexpected_char_raises (text : string) s tokens s1 c r :
  loop_state (list_ascii_of_string text) s tokens ->
  skip_whitespace s = Ok (tt, s1) -> rest s1 = c :: r ->
  is_punct c = false -> c <> quote -> isnumeric c = false ->
  getitem (list_ascii_of_string text) (_cursor s1) = Some c
  /\ tokens_of text = Raise (ValueError (UnexpectedChar c (_cursor s1))).
Proof.
  intros Hls Hs Hr Hp Hq Hn.
  destruct (loop_state_inv _ _ _ Hls) as (Hwf & Hdata & _).
  destruct (tokenize_body_dispatch s s1 c r Hwf Hs Hr) as [Hwf1 Hb].
  destruct (skip_whitespace_data s s1 Hwf Hs) as ((_ & Hd1 & _) & _).
  split.
  - rewrite <- Hdata, <- Hd1, getitem_rest, Hr by assumption. reflexivity.
  - apply (loop_state_raise text s tokens); [assumption|].
    rewrite Hb, Hp, Hn.
    destruct (Ascii.eqb_spec c quote); [contradiction | reflexivity].
Qed.

Lemma unexpected_char_raises_witness :
  tokens_of "{a:1}" = Raise (ValueError (UnexpectedChar "a" 1)).
Proof.
  apply (unexpected_char_raises "{a:1}"
           (advance (Stream_init (list_ascii_of_string "{a:1}")) 1) [TStr "{"]
           (advance (Stream_init (list_ascii_of_string "{a:1}")) 1)
           "a"%char (list_ascii_of_string ":1}")).
  - apply (loop_next _ (Stream_init (list_ascii_of_string "{a:1}")) [] (TStr "{"));
      [apply loop_start | reflexivity].
  - reflexivity.
  - reflexivity.
  - reflexivity.
  - discriminate.
  - reflexivity.
Defined.

Lemma tokenize_body_end s s1 :
  wf s -> skip_whitespace s = Ok (tt, s1) -> rest s1 = [] ->
  tokenize_body s = Ok (None, s1).
Proof.
  intros Hwf Hs Hr. unfold tokenize_body.
  rewrite (bind_ok _ _ _ _ _ Hs).
  destruct (skip_whitespace_data s s1 Hwf Hs) as ((Hw1 & _) & _).
  unfold bind, get_cursor, get_end.
  pose proof (proj1 (rest_nil_iff s1 Hw1) Hr) as Hlt.
  destruct (Z.geb_spec (_cursor s1) (_end s1)); [reflexivity|].
  apply Z.ltb_ge in Hlt. lia.
Qed.

Lemma dropwhile_all {A} (p : A -> bool) (l : list A) :
  forallb p l = true -> dropwhile p l = [].
Proof.
  induction l as [|x l IH]; simpl; [reflexivity|].
  intros H. apply andb_prop in H. destruct H as [-> Hl]. auto.
Qed.

(** X8. A text of whitespace only, the empty text among them, has no
    token: [tokenize] returns the empty list, and [parse] then raises
    the [ValueError] "Unexpected token number 0". *)
Theorem whitespace_only_text (text : string) :
  forallb isspace (list_ascii_of_string text) = true ->
  tokens_of text = Ok []
  /\ run text = Raise (ValueError (UnexpectedTokenNumber 0)).
Proof.
  intros Hws.
  assert (Ht : tokens_of text = Ok []).
  { destruct (skip_whitespace_dropwhile (Stream_init (list_ascii_of_string text))
                (wf_init _)) as (s1 & Hs & Hf & Hr).
    rewrite rest_init, (dropwhile_all _ _ Hws) in Hr.
    apply (loop_state_done text (Stream_init (list_ascii_of_string text)) [] s1);
      [apply loop_start|].
    apply tokenize_body_end; [apply wf_init | assumption | assumption]. }
  split; [assumption|]. rewrite run_parse_tokens, Ht. reflexivity.
Qed.

Lemma whitespace_only_text_witness :
  tokens_of "  " = Ok [] /\ run "  " = Raise (ValueError (UnexpectedTokenNumber 0)).
Proof. apply (whitespace_only_text "  "). reflexivity. Defined.

Lemma tokenize_body_none s s' :
  wf s -> tokenize_body s = Ok (None, s') -> follows s s' /\ rest s' = [].
Proof.
  intros Hwf Hb.
  destruct (skip_whitespace_dropwhile s Hwf) as (s1 & Hs & Hf & Hr).
  destruct (rest s1) as [|c r] eqn:Hr1.
  - rewrite (tokenize_body_end s s1 Hwf Hs Hr1) in Hb. injection Hb as <-. auto.
  - exfalso. destruct (tokenize_body_dispatch s s1 c r Hwf Hs Hr1) as [_ Hd].
    rewrite Hd in Hb.
    destruct (is_punct c);
      [|destruct (Ascii.eqb c quote); [|destruct (isnumeric c)]];
      apply bind_inv in Hb; destruct Hb as (? & ? & _ & Hb); discriminate.
Qed.

Lemma in_split_first {A} (eqb : A -> A -> bool) (x : A) (l : list A) :
  (forall a b, eqb a b = true <-> a = b) ->
  In x l -> exists l1 l2, l = l1 ++ x :: l2 /\ ~ In x l1.
Proof.
  intros Heq. induction l as [|y l IH]; intros Hin; [contradiction|].
  destruct (eqb y x) eqn:E.
  - apply Heq in E. subst y. exists [], l. split; [reflexivity | intros []].
  - assert (Hne : y <> x) by (intros ->; rewrite (proj2 (Heq x x) eq_refl) in E; discriminate).
    destruct Hin as [->|Hin]; [congruence|].
    destruct (IH Hin) as (l1 & l2 & -> & Hn).
    exists (y :: l1), l2. split; [reflexivity|].
    intros [->|H']; [congruence | contradiction].
Qed.

Lemma token_ok_literal body :
  ~ In quote body ->
  token_ok (TStr (string_of_list_ascii (quote :: body ++ [quote]))) = true.
Proof.
  intros Hq. unfold token_ok. rewrite list_ascii_of_string_of_list_ascii.
  destruct (body ++ [quote]) as [|c r] eqn:E; [destruct body; discriminate|].
  rewrite <- E. change (Ascii.eqb quote quote) with true.
  rewrite last_last, removelast_last.
  change (Ascii.eqb quote quote) with true. simpl andb.
  destruct (existsb (Ascii.eqb quote) body) eqn:Ex; [|reflexivity].
  exfalso. apply Hq. apply existsb_exists in Ex. destruct Ex as (x & Hin & Hx).
  apply Ascii.eqb_eq in Hx. subst x. assumption.
Qed.

Lemma token_ok_number s t s' :
  tokenize_num s = Ok (t, s') -> token_ok t = true.
Proof.
  unfold tokenize_num. intros H.
  apply bind_inv in H. destruct H as ([joined is_float] & s1 & _ & H).
  destruct is_float; unfold lift in H.
  - destruct (py_float joined) as [q| |] eqn:E; try discriminate.
    injection H as <- _. unfold py_float in E.
    destruct (split_dot joined) as [ip frac].
    destruct (ip ++ _) as [|c l] eqn:Ed; [discriminate|].
    destruct (forallb isdecimal (c :: l)) eqn:Hd; [|discriminate].
    match type of E with Ok ?x = _ => assert (Hq : q = x) by congruence end.
    rewrite Hq. cbn [token_ok]. apply float_of_decimal_nonneg, Hd.
  - destruct (py_int joined) as [n| |] eqn:E; try discriminate.
    injection H as <- _. unfold py_int in E.
    destruct joined as [|c l]; [discriminate|].
    destruct (forallb isdecimal (c :: l)) eqn:Hd; [|discriminate].
    injection E as <-. cbn [token_ok]. apply Z.leb_le.
    apply decimal_value_nonneg. assumption.
Qed.

Lemma tokenize_body_token_ok s t s' :
  wf s -> tokenize_body s = Ok (Some t, s') -> token_ok t = true.
Proof.
  intros Hwf Hb.
  destruct (skip_whitespace_dropwhile s Hwf) as (s1 & Hs & Hf & Hr).
  destruct (rest s1) as [|c r] eqn:Hr1.
  { rewrite (tokenize_body_end s s1 Hwf Hs Hr1) in Hb. discriminate. }
  destruct (tokenize_body_dispatch s s1 c r Hwf Hs Hr1) as [Hw1 Hd].
  rewrite Hd in Hb. clear Hd.
  destruct (is_punct c) eqn:Hp.
  { apply bind_inv in Hb. destruct Hb as (x & s2 & Hn & Hb).
    rewrite (next_cons s1 c r Hw1 Hr1) in Hn. injection Hn as <- <-.
    injection Hb as <- _. exact Hp. }
  destruct (Ascii.eqb_spec c quote) as [->|Hq].
  { apply bind_inv in Hb. destruct Hb as (lit & s2 & Hstr & Hb).
    injection Hb as <- _.
    destruct (in_dec ascii_dec quote r) as [Hin|Hnin].
    - destruct (in_split_first Ascii.eqb quote r Ascii.eqb_eq Hin)
        as (body & tail & -> & Hnb).
      destruct (tokenize_str_ok s1 body tail Hw1 Hr1 Hnb) as (s3 & Hok & _).
      rewrite Hok in Hstr. injection Hstr as <- _.
      apply token_ok_literal. assumption.
    - exfalso. unfold tokenize_str in Hstr.
      assert (Hquote : Ascii.eqb quote quote = true) by reflexivity.
      rewrite (bind_ok _ _ _ _ _
                 (@consume_ok ascii Element_char quote s1 _ _ Hw1 Hr1 Hquote)) in Hstr.
      destruct (wf_advance s1 _ _ Hw1 Hr1) as [Hw2 Hr2].
      apply bind_inv in Hstr. destruct Hstr as (chars & s3 & Hloop & _).
      unfold with_fuel in Hloop.
      rewrite tokenize_str_loop_unterminated in Hloop;
        [discriminate | assumption | rewrite Hr2; assumption | apply fuel_of_enough]. }
  destruct (isnumeric c).
  { apply bind_inv in Hb. destruct Hb as (x & s2 & Hnum & Hb).
    injection Hb as <- _. apply (token_ok_number s1 x s2 Hnum). }
  apply bind_inv in Hb. destruct Hb as (? & ? & _ & Hb). discriminate.
Qed.

Lemma tokenize_loop_inv fuel : forall acc s toks s',
  wf s -> tokenize_loop fuel acc s = Ok (toks, s') ->
  follows s s' /\ rest s' = []
  /\ exists new, toks = acc ++ new /\ forallb token_ok new = true
                 /\ (length new <= length (rest s))%nat.
Proof.
  induction fuel as [|n IH]; intros acc s toks s' Hwf H; [discriminate|].
  rewrite tokenize_loop_unfold in H.
  pose proof (post_tokenize_body s Hwf) as Hp. unfold post in Hp.
  destruct (tokenize_body s) as [[[tok|] s1]| |] eqn:Hb; try discriminate.
  - destruct Hp as [Hf Hc]. specialize (Hc ltac:(discriminate)).
    destruct (IH _ _ _ _ (proj1 Hf) H) as (Hf' & Hr' & new & -> & Hok & Hlen).
    split; [eapply follows_trans; eassumption|]. split; [assumption|].
    exists (tok :: new). rewrite <- app_assoc. split; [reflexivity|].
    split.
    + simpl. rewrite (tokenize_body_token_ok s tok s1 Hwf Hb), Hok. reflexivity.
    + pose proof (follows_length s s1 Hwf Hf). simpl. lia.
  - injection H as <- <-.
    destruct (tokenize_body_none s s1 Hwf Hb) as [Hf Hr].
    split; [assumption|]. split; [assumption|].
    exists []. rewrite app_nil_r. split; [reflexivity|]. split; [reflexivity|].
    simpl. lia.
Qed.

(** X9. The tokens [tokenize] returns: each is a punctuation character,
    a string literal between two quotes with no quote inside, or a
    number that is not negative; there are at most as many tokens as
    characters; and the reader has reached the end of the text. *)
Theorem tokens_well_formed (text : string) (toks : list token) s' :
  tokenize (Stream_init (list_ascii_of_string text)) = Ok (toks, s') ->
  forallb token_ok toks = true
  /\ (length toks <= String.length text)%nat
  /\ _cursor s' = Z.of_nat (String.length text).
Proof.
  intros H. unfold tokenize, with_fuel in H.
  destruct (tokenize_loop_inv _ _ _ _ _ (wf_init _) H)
    as (Hf & Hr & new & -> & Hok & Hlen).
  rewrite rest_init in Hlen.
  assert (Hl : length (list_ascii_of_string text) = String.length text).
  { clear. induction text as [|c t IH]; simpl; congruence. }
  split; [exact Hok|]. split; [simpl; lia|].
  pose proof (length_rest s' (proj1 Hf)) as Hlr. rewrite Hr in Hlr. simpl in Hlr.
  destruct Hf as ((He & _) & Hd & _). simpl in Hd. rewrite Hd in He. lia.
Qed.

Lemma tokens_well_formed_witness :
  forallb token_ok [TStr "["; TInt 1; TStr ","; TFloat (binary64_div 5 2); TStr "]"] = true.
Proof.
  apply (tokens_well_formed "[1, 2.5 ]" _
           (advance (Stream_init (list_ascii_of_string "[1, 2.5 ]")) 9)).
  reflexivity.
Defined.

(** ** The tokens of a text *)

Lemma dropwhile_app_stop {A} (p : A -> bool) ws c r :
  forallb p ws = true -> p c = false -> dropwhile p (ws ++ c :: r) = c :: r.
Proof.
  intros Hws Hc. induction ws as [|x ws IH]; simpl.
  - rewrite Hc. reflexivity.
  - simpl in Hws. apply andb_prop in Hws. destruct Hws as [-> Hws]. auto.
Qed.

Lemma numeric_not_space c : isnumeric c = true -> isspace c = false.
Proof.
  intros Hn. destruct (isspace c) eqn:E; [|reflexivity].
  destruct (proj1 (proj2 (char_classes c)) E) as (Hn' & _). congruence.
Qed.

(** The first character of a well-formed lexeme. *)
Lemma lexeme_text_head l :
  lexeme_ok l = true ->
  exists c r, lexeme_text l = c :: r /\ isspace c = false
              /\ (is_number l = false -> isnumeric c = false /\ Ascii.eqb c dot = false).
Proof.
  destruct l as [c|body|d|d f]; simpl; intros Hok.
  - exists c, []. destruct (proj2 (proj2 (char_classes c)) Hok) as (H1 & H2 & _ & H4).
    auto.
  - exists quote, (body ++ [quote]). repeat split; reflexivity.
  - apply andb_prop in Hok. destruct Hok as [Hne Hd].
    destruct d as [|c d]; [discriminate|]. exists c, d.
    simpl in Hd. apply andb_prop in Hd. destruct Hd as [Hc _].
    split; [reflexivity|]. split; [|discriminate].
    apply numeric_not_space, (proj1 (char_classes c)), Hc.
  - apply andb_prop in Hok. destruct Hok as [Hok Hf].
    apply andb_prop in Hok. destruct Hok as [Hne Hd].
    destruct d as [|c d]; [discriminate|]. exists c, (d ++ dot :: f).
    simpl in Hd. apply andb_prop in Hd. destruct Hd as [Hc _].
    split; [reflexivity|]. split; [|discriminate].
    apply numeric_not_space, (proj1 (char_classes c)), Hc.
Qed.

Lemma not_existsb_quote body :
  negb (existsb (Ascii.eqb quote) body) = true -> ~ In quote body.
Proof.
  intros H Hin. apply negb_true_iff in H.
  assert (existsb (Ascii.eqb quote) body = true); [|congruence].
  apply existsb_exists. exists quote. split; [assumption | reflexivity].
Qed.

(** One iteration of the loop of [tokenize], in front of a lexeme. *)
Lemma tokenize_body_lexeme s ws0 l tail :
  wf s -> rest s = ws0 ++ lexeme_text l ++ tail ->
  forallb isspace ws0 = true -> lexeme_ok l = true ->
  (is_number l = true ->
   exists t tail', tail = t :: tail' /\ isnumeric t = false /\ Ascii.eqb t dot = false) ->
  exists s', tokenize_body s = Ok (Some (lexeme_token l), s')
             /\ wf s' /\ rest s' = tail.
Proof.
  intros Hwf Hr Hws Hok Hnum.
  destruct (lexeme_text_head l Hok) as (c & r & Htext & Hsp & _).
  destruct (skip_whitespace_dropwhile s Hwf) as (s1 & Hs & Hf & Hr1).
  rewrite Hr, Htext in Hr1. simpl app in Hr1.
  rewrite (dropwhile_app_stop isspace ws0 c _ Hws Hsp) in Hr1.
  destruct (tokenize_body_dispatch s s1 c _ Hwf Hs Hr1) as [Hw1 Hb].
  rewrite Hb. clear Hb.
  destruct l as [p|body|d|d f]; simpl in Htext, Hok.
  - injection Htext as <- <-. rewrite Hok.
    destruct (wf_advance s1 _ _ Hw1 Hr1) as [Hw2 Hr2].
    exists (advance s1 1).
    rewrite (bind_ok _ _ _ _ _ (next_cons s1 _ _ Hw1 Hr1)). auto.
  - injection Htext as <- <-.
    change (is_punct quote) with false. change (Ascii.eqb quote quote) with true.
    cbv iota. rewrite <- app_assoc in Hr1. simpl app in Hr1.
    destruct (tokenize_str_ok s1 body tail Hw1 Hr1 (not_existsb_quote body Hok))
      as (s' & Hstr & Hf' & Hr').
    exists s'. rewrite (bind_ok _ _ _ _ _ Hstr).
    split; [reflexivity|]. split; [apply Hf' | assumption].
  - apply andb_prop in Hok. destruct Hok as [Hne Hd].
    destruct (Hnum eq_refl) as (t & tail' & -> & Ht & Hdot).
    subst d.
    assert (Hc : isnumeric c = true).
    { simpl in Hd. apply andb_prop in Hd. apply (proj1 (char_classes c)), Hd. }
    destruct (numeric_not_special c Hc) as (Hp & Hq & _). rewrite Hp, Hq, Hc.
    destruct (tokenize_num_scan_int s1 (c :: r) t tail' Hw1 Hr1 ltac:(discriminate)
                (forallb_decimal_numeric _ Hd) Ht Hdot) as (s' & Hf' & Hr' & Heq).
    exists s'. unfold bind at 1. rewrite Heq, py_int_decimal;
      [|discriminate | assumption].
    split; [reflexivity|]. split; [apply Hf' | assumption].
  - apply andb_prop in Hok. destruct Hok as [Hok Hfr].
    apply andb_prop in Hok. destruct Hok as [Hne Hd].
    destruct (Hnum eq_refl) as (t & tail' & -> & Ht & Hdot).
    assert (Hdne : d <> []) by (destruct d; [discriminate | discriminate]).
    assert (Hc : isnumeric c = true).
    { destruct d as [|c' d']; [congruence|]. injection Htext as -> _.
      simpl in Hd. apply andb_prop in Hd.
      apply (proj1 (char_classes c)), Hd. }
    destruct (numeric_not_special c Hc) as (Hp & Hq & _). rewrite Hp, Hq, Hc.
    change (c :: r ++ t :: tail') with ((c :: r) ++ t :: tail') in Hr1.
    rewrite <- Htext, <- app_assoc in Hr1. simpl app in Hr1.
    destruct (tokenize_num_scan_float s1 d f t tail' Hw1 Hr1 Hdne
                (forallb_decimal_numeric d Hd) (forallb_decimal_numeric f Hfr) Ht Hdot)
      as (s' & Hf' & Hr' & Heq).
    exists s'. unfold bind at 1. rewrite Heq, py_float_decimal by assumption.
    split; [reflexivity|]. split; [apply Hf' | assumption].
Qed.

Lemma layout_after_number l ws r :
  forallb isspace ws = true ->
  (negb (is_number l) || negb (Nat.eqb (length ws) 0)
   || match r with
      | (l', _) :: _ => negb (is_number l')
      | [] => false
      end) = true ->
  layout_ok r = true ->
  is_number l = true ->
  exists t tail', ws ++ layout_text r = t :: tail'
                  /\ isnumeric t = false /\ Ascii.eqb t dot = false.
Proof.
  intros Hws Hsep Hr Hn. rewrite Hn in Hsep. simpl in Hsep.
  destruct ws as [|w ws].
  - simpl in Hsep. destruct r as [|[l' ws'] r]; [discriminate|].
    simpl in Hr. apply andb_prop in Hr. destruct Hr as [Hr _].
    apply andb_prop in Hr. destruct Hr as [Hr _].
    apply andb_prop in Hr. destruct Hr as [Hok' _].
    destruct (lexeme_text_head l' Hok') as (c & r' & Htext & _ & Hc).
    apply negb_true_iff in Hsep. destruct (Hc Hsep) as [H1 H2].
    exists c, (r' ++ ws' ++ layout_text r). simpl. rewrite Htext. auto.
  - simpl in Hws. apply andb_prop in Hws. destruct Hws as [Hw _].
    destruct (proj1 (proj2 (char_classes w)) Hw) as (H1 & _ & _ & H4).
    exists w, (ws ++ layout_text r). auto.
Qed.

Lemma tokenize_loop_layout (items : layout) : forall ws0 fuel acc s,
  wf s -> rest s = ws0 ++ layout_text items ->
  forallb isspace ws0 = true -> layout_ok items = true ->
  (length (rest s) < fuel)%nat ->
  exists s', tokenize_loop fuel acc s = Ok (acc ++ layout_tokens items, s').
Proof.
  induction items as [|[l ws] items IH]; intros ws0 fuel acc s Hwf Hr Hws Hok Hlen;
    (destruct fuel as [|n]; [lia|]); rewrite tokenize_loop_unfold.
  - simpl in Hr. rewrite app_nil_r in Hr.
    destruct (skip_whitespace_dropwhile s Hwf) as (s1 & Hs & Hf & Hr1).
    rewrite Hr, (dropwhile_all _ _ Hws) in Hr1.
    rewrite (tokenize_body_end s s1 Hwf Hs Hr1).
    exists s1. simpl. rewrite app_nil_r. reflexivity.
  - simpl in Hok. apply andb_prop in Hok. destruct Hok as [Hok Hrest].
    apply andb_prop in Hok. destruct Hok as [Hok Hsep].
    apply andb_prop in Hok. destruct Hok as [Hokl Hwsl].
    simpl layout_text in Hr.
    destruct (tokenize_body_lexeme s ws0 l (ws ++ layout_text items) Hwf
                Hr Hws Hokl)
      as (s' & Hb & Hw' & Hr').
    { apply layout_after_number; assumption. }
    rewrite Hb.
    destruct (IH ws n (acc ++ [lexeme_token l]) s' Hw' Hr' Hwsl Hrest) as (s'' & Hloop).
    { destruct (lexeme_text_head l Hokl) as (c & r & Htext & _).
      rewrite Hr, Htext in Hlen. rewrite !length_app in Hlen.
      simpl length in Hlen. rewrite ?length_app in Hlen.
      rewrite Hr', length_app. lia. }
    exists s''. rewrite Hloop, <- app_assoc. reflexivity.
Qed.

Lemma tokens_of_layout (ws0 : list ascii) (items : layout) :
  forallb isspace ws0 = true -> layout_ok items = true ->
  tokens_of (string_of_list_ascii (ws0 ++ layout_text items))
  = Ok (layout_tokens items).
Proof.
  intros Hws Hok. unfold tokens_of, tokenize, with_fuel.
  rewrite list_ascii_of_string_of_list_ascii.
  destruct (tokenize_loop_layout items ws0
              (fuel_of (Stream_init (ws0 ++ layout_text items))) []
              (Stream_init (ws0 ++ layout_text items))
              (wf_init _) (rest_init _) Hws Hok (fuel_of_enough _)) as (s' & ->).
  reflexivity.
Qed.

(** X10. The tokens of a well-laid-out text: for lexemes that are well
    formed, with only whitespace before, between and after them and no
    number running into a number (or into the end of the text),
    [tokenize] returns the tokens of the lexemes, in order; the token
    of a float lexeme is the binary64 nearest to its decimal text. *)
Theorem tokenize_layout (ws0 : list ascii) (items : layout) :
  forallb isspace ws0 = true -> layout_ok items = true ->
  tokens_of (string_of_list_ascii (ws0 ++ layout_text items))
  = Ok (layout_tokens items).
Proof. apply tokens_of_layout. Qed.

Lemma tokenize_layout_witness :
  tokens_of (String.append " [ 12, 0.5," (String.append (quoted "a b") "]  "))
  = Ok [TStr "["; TInt 12; TStr ","; TFloat (binary64_div 1 2); TStr ",";
        TStr (quoted "a b"); TStr "]"].
Proof.
  apply (tokenize_layout
           (list_ascii_of_string " ")
           [(LPunct "[", list_ascii_of_string " ");
            (LInt (list_ascii_of_string "12"), []);
            (LPunct ",", list_ascii_of_string " ");
            (LFloat (list_ascii_of_string "0") (list_ascii_of_string "5"), []);
            (LPunct ",", []);
            (LStr (list_ascii_of_string "a b"), []);
            (LPunct "]", list_ascii_of_string "  ")]).
  - reflexivity.
  - reflexivity.
Defined.

(** ** Arrays and objects among other tokens *)

Lemma value_tokens_nonempty tokens v : value_tokens tokens v -> tokens <> [].
Proof.
  intros (fuel & s' & Hv & _) ->.
  destruct (parse_value_not_close _ _ _ _ (wf_init []) Hv) as (t & r & Hr & _).
  discriminate.
Qed.

Lemma list_loop_items (items : list item) : forall n l s tail r,
  Forall item_ok items ->
  wf s -> rest s = items_tokens items ++ tail ->
  tail = TStr "]" :: r \/ (items <> [] /\ tail = TStr "," :: TStr "]" :: r) ->
  (2 * length (rest s) + 2 <= n)%nat ->
  exists s', parse_list_loop n l s = Ok (l ++ map snd items, s')
             /\ wf s' /\ rest s' = TStr "]" :: r.
Proof.
  induction items as [|[ts v] items IH]; intros n l s tail r Hok Hwf Hr Htail Hn;
    (destruct n as [|n]; [lia|]); rewrite parse_list_loop_S.
  - destruct Htail as [->|[Hne _]]; [|congruence]. simpl in Hr.
    rewrite (bind_ok _ _ _ _ _ (peek_cons s _ _ Hwf Hr)).
    exists s. rewrite app_nil_r. auto.
  - inversion Hok as [|i li Hv Hok']; subst i li. unfold item_ok in Hv. simpl in Hv.
    simpl items_tokens in Hr.
    set (X := match items with
              | [] => []
              | _ :: _ => TStr "," :: items_tokens items
              end) in Hr.
    rewrite <- app_assoc in Hr.
    destruct (value_in_context ts v (X ++ tail) n s Hv Hwf Hr ltac:(lia))
      as (s1 & Hv1 & Hw1 & Hr1 & Hc1).
    destruct (parse_value_not_close _ _ _ _ Hwf Hv1) as (t & r0 & Hrt & Hnc).
    rewrite (bind_ok _ _ _ _ _ (peek_cons s t r0 Hwf Hrt)), Hnc. cbv [negb].
    rewrite (bind_ok _ _ _ _ _ Hv1).
    pose proof (value_tokens_nonempty ts v Hv) as Hts.
    assert (Hlen : (length (rest s) >= 1 + length (X ++ tail))%nat).
    { rewrite Hr, length_app. destruct ts; [congruence | simpl; lia]. }
    simpl map.
    assert (Hcomma : forall tail',
               X ++ tail = TStr "," :: items_tokens items ++ tail' ->
               tail' = TStr "]" :: r \/ (items <> [] /\ tail' = TStr "," :: TStr "]" :: r) ->
               exists s', (tok <- peek ;;
                           if is_str tok ","
                           then (next ;; parse_list_loop n (l ++ [v]))
                           else ret (l ++ [v])) s1
                          = Ok ((l ++ [v]) ++ map snd items, s')
                          /\ wf s' /\ rest s' = TStr "]" :: r).
    { intros tail' HX Htail'. rewrite HX in Hr1.
      destruct (wf_advance s1 _ _ Hw1 Hr1) as [Hw2 Hr2].
      rewrite (bind_ok _ _ _ _ _ (peek_cons s1 _ _ Hw1 Hr1)).
      change (is_str (Some (TStr ",")) ",") with true. cbv iota.
      rewrite (bind_ok _ _ _ _ _ (next_cons s1 _ _ Hw1 Hr1)).
      apply (IH n (l ++ [v]) (advance s1 1) tail' r Hok' Hw2 Hr2 Htail').
      assert (Hlen2 : (length (X ++ tail)
                       = S (length (items_tokens items ++ tail')))%nat)
        by (rewrite HX; reflexivity).
      rewrite Hr2. revert Hn Hlen Hlen2.
      generalize (length (rest s)) (length (X ++ tail))
                 (length (items_tokens items ++ tail')).
      clear. intros a b c Hn Hlen Hlen2. lia. }
    destruct items as [|i items'].
    + unfold X in *. simpl app in *.
      destruct Htail as [->|[_ ->]].
      * exists s1. rewrite (bind_ok _ _ _ _ _ (peek_cons s1 _ _ Hw1 Hr1)). auto.
      * destruct (Hcomma (TStr "]" :: r) eq_refl (or_introl eq_refl))
          as (s' & Hs' & Hw' & Hr').
        exists s'. rewrite Hs'. simpl. rewrite app_nil_r. auto.
    + destruct (Hcomma tail eq_refl) as (s' & Hs' & Hw' & Hr').
      { destruct Htail as [->|[_ ->]]; [left; reflexivity|].
        right. split; [discriminate | reflexivity]. }
      exists s'. rewrite Hs', <- app_assoc. auto.
Qed.

Lemma parse_list_items (items : list item) (comma : bool) n s r :
  Forall item_ok items -> (comma = true -> items <> []) ->
  wf s -> rest s = array_tokens items comma ++ r ->
  (2 * length (rest s) <= n)%nat ->
  exists s', parse_list n s = Ok (VList (map snd items), s')
             /\ wf s' /\ rest s' = r.
Proof.
  intros Hok Hcomma Hwf Hr Hn.
  unfold array_tokens in Hr. simpl app in Hr. rewrite <- !app_assoc in Hr.
  destruct (wf_advance s _ _ Hwf Hr) as [Hw1 Hr1].
  assert (Hopen : py_eq (TStr "[") (TStr "[") = true) by reflexivity.
  assert (Hclose : py_eq (TStr "]") (TStr "]") = true) by reflexivity.
  destruct (list_loop_items items n [] (advance s 1)
              ((if comma then [TStr ","] else []) ++ [TStr "]"] ++ r) r Hok Hw1 Hr1)
    as (s2 & Hloop & Hw2 & Hr2).
  { destruct comma; [right | left]; auto. }
  { rewrite Hr in Hn. cbn [length] in Hn. rewrite Hr1. lia. }
  destruct (wf_advance s2 _ _ Hw2 Hr2) as [Hw3 Hr3].
  exists (advance s2 1). unfold parse_list, parse_list_with.
  rewrite (bind_ok _ _ _ _ _
             (@consume_ok token Element_token (TStr "[") s _ _ Hwf Hr Hopen)).
  rewrite (bind_ok _ _ _ _ _ Hloop).
  rewrite (bind_ok _ _ _ _ _
             (@consume_ok token Element_token (TStr "]") s2 _ _ Hw2 Hr2 Hclose)).
  auto.
Qed.

Lemma parse_dict_entries (es : list entry) n s r :
  es <> [] -> Forall entry_ok es ->
  wf s -> rest s = object_tokens es ++ r ->
  (2 * length (rest s) <= n)%nat ->
  exists s', parse_dict n s = Ok (VDict (dict_of es), s')
             /\ wf s' /\ rest s' = r.
Proof.
  intros Hne Hok Hwf Hr Hn.
  unfold object_tokens in Hr. simpl app in Hr. rewrite <- app_assoc in Hr.
  simpl app in Hr.
  destruct (wf_advance s _ _ Hwf Hr) as [Hw1 Hr1].
  assert (Hopen : py_eq (TStr "{") (TStr "{") = true) by reflexivity.
  assert (Hclose : py_eq (TStr "}") (TStr "}") = true) by reflexivity.
  destruct (dict_loop_entries es Hne Hok n [] (advance s 1) r Hw1 Hr1)
    as (s2 & Hloop & Hw2 & Hr2).
  { rewrite Hr in Hn. cbn [length] in Hn. rewrite Hr1. lia. }
  destruct (wf_advance s2 _ _ Hw2 Hr2) as [Hw3 Hr3].
  exists (advance s2 1). unfold parse_dict, parse_dict_with.
  rewrite (bind_ok _ _ _ _ _
             (@consume_ok token Element_token (TStr "{") s _ _ Hwf Hr Hopen)).
  rewrite (bind_ok _ _ _ _ _ Hloop).
  rewrite (bind_ok _ _ _ _ _
             (@consume_ok token Element_token (TStr "}") s2 _ _ Hw2 Hr2 Hclose)).
  auto.
Qed.

Lemma wf_rest_nil_cursor {T} (s : Stream T) :
  wf s -> rest s = [] -> _cursor s = _end s.
Proof.
  intros Hwf Hr. pose proof (length_rest s Hwf) as Hl. rewrite Hr in Hl.
  simpl in Hl. lia.
Qed.

Lemma value_tokens_array (items : list item) (comma : bool) :
  Forall item_ok items -> (comma = true -> items <> []) ->
  value_tokens (array_tokens items comma) (VList (map snd items)).
Proof.
  intros Hok Hcomma.
  set (ts := array_tokens items comma).
  destruct (parse_list_items items comma (2 * length ts) (Stream_init ts) []
              Hok Hcomma (wf_init _)) as (s' & Hp & Hw & Hr).
  { rewrite rest_init, app_nil_r. reflexivity. }
  { rewrite rest_init. lia. }
  exists (S (2 * length ts)), s'. split.
  - rewrite parse_value_S.
    rewrite (bind_ok _ _ _ _ _ (peek_cons (Stream_init ts) (TStr "[") _
                                  (wf_init _) (rest_init _))).
    exact Hp.
  - rewrite (wf_rest_nil_cursor s' Hw Hr). destruct Hw as [He _]. rewrite He.
    pose proof (post_parse_list (2 * length ts) (Stream_init ts) (wf_init _)) as Hpost.
    unfold post in Hpost. rewrite Hp in Hpost.
    destruct Hpost as [(_ & Hd & _) _]; [rewrite rest_init; lia|].
    rewrite Hd. reflexivity.
Qed.

Lemma value_tokens_object (es : list entry) :
  es <> [] -> Forall entry_ok es ->
  value_tokens (object_tokens es) (VDict (dict_of es)).
Proof.
  intros Hne Hok.
  set (ts := object_tokens es).
  destruct (parse_dict_entries es (2 * length ts) (Stream_init ts) []
              Hne Hok (wf_init _)) as (s' & Hp & Hw & Hr).
  { rewrite rest_init, app_nil_r. reflexivity. }
  { rewrite rest_init. lia. }
  exists (S (2 * length ts)), s'. split.
  - rewrite parse_value_S.
    rewrite (bind_ok _ _ _ _ _ (peek_cons (Stream_init ts) (TStr "{") _
                                  (wf_init _) (rest_init _))).
    exact Hp.
  - rewrite (wf_rest_nil_cursor s' Hw Hr). destruct Hw as [He _]. rewrite He.
    pose proof (post_parse_dict (2 * length ts) (Stream_init ts) (wf_init _)) as Hpost.
    unfold post in Hpost. rewrite Hp in Hpost.
    destruct Hpost as [(_ & Hd & _) _]; [rewrite rest_init; lia|].
    rewrite Hd. reflexivity.
Qed.

Lemma parse_dict_fuel F F' s x :
  wf s -> parse_dict F s = Ok x -> (2 * length (rest s) <= F')%nat ->
  parse_dict F' s = Ok x.
Proof.
  intros Hwf H HF'.
  pose proof (mono_parse_dict F (Nat.max F F') ltac:(lia)) as Hm1.
  pose proof (mono_parse_dict F' (Nat.max F F') ltac:(lia)) as Hm2.
  pose proof (post_parse_dict F' s Hwf HF') as Hp. unfold post in Hp.
  rewrite <- H, <- Hm1 by congruence. symmetry. apply Hm2.
  destruct (parse_dict F' s) as [[? ?]| |];
    [discriminate | discriminate | contradiction].
Qed.

Lemma parse_list_fuel F F' s x :
  wf s -> parse_list F s = Ok x -> (2 * length (rest s) <= F')%nat ->
  parse_list F' s = Ok x.
Proof.
  intros Hwf H HF'.
  pose proof (mono_parse_list F (Nat.max F F') ltac:(lia)) as Hm1.
  pose proof (mono_parse_list F' (Nat.max F F') ltac:(lia)) as Hm2.
  pose proof (post_parse_list F' s Hwf HF') as Hp. unfold post in Hp.
  rewrite <- H, <- Hm1 by congruence. symmetry. apply Hm2.
  destruct (parse_list F' s) as [[? ?]| |];
    [discriminate | discriminate | contradiction].
Qed.

Lemma parse_dict_is_dict n s v s' : parse_dict n s = Ok (v, s') -> is_container v = true.
Proof.
  unfold parse_dict, parse_dict_with. intros H.
  apply bind_inv in H. destruct H as (? & ? & _ & H).
  apply bind_inv in H. destruct H as (d & ? & _ & H).
  apply bind_inv in H. destruct H as (? & ? & _ & H).
  injection H as <- _. reflexivity.
Qed.

Lemma parse_list_is_list n s v s' : parse_list n s = Ok (v, s') -> is_container v = true.
Proof.
  unfold parse_list, parse_list_with. intros H.
  apply bind_inv in H. destruct H as (? & ? & _ & H).
  apply bind_inv in H. destruct H as (d & ? & _ & H).
  apply bind_inv in H. destruct H as (? & ? & _ & H).
  injection H as <- _. reflexivity.
Qed.

Lemma ensure_end_ok (tree : value) (s : Stream token) :
  _cursor s = _end s ->
  (cur <- get_cursor ;;
   e <- get_end ;;
   if cur <? e then (t <- peek ;; raise (ValueError (UnexpectedTokenAtEnd t)))
   else ret tree) s = Ok (tree, s).
Proof.
  intros Hc. unfold bind, get_cursor, get_end. rewrite Hc, Z.ltb_irrefl. reflexivity.
Qed.

Lemma parse_of_value_tokens (tokens : list token) (v : value) :
  value_tokens tokens v -> is_container v = true -> parse_tokens tokens = Ok v.
Proof.
  intros (fuel & s' & Hv & Hc) Hcont.
  set (S0 := Stream_init tokens) in *.
  pose proof (wf_init tokens) as Hw0. fold S0 in Hw0.
  assert (Hfuel : (2 * length (rest S0) <= parse_fuel S0)%nat).
  { pose proof (length_rest_le S0). unfold parse_fuel. lia. }
  destruct (sim_parser fuel) as (Sv & _ & _).
  destruct (Sv [] S0 S0 v s' (ext_refl S0 Hw0) Hv) as ((Hw' & Hd & _) & _).
  assert (Hend : _cursor s' = _end s').
  { destruct Hw' as [He _]. rewrite He, Hd, Hc. reflexivity. }
  destruct fuel as [|n]; [discriminate|].
  rewrite parse_value_S in Hv.
  apply bind_inv in Hv. destruct Hv as (token & s0 & Hpeek & Hv).
  rewrite peek_rest in Hpeek by assumption. injection Hpeek as <- <-.
  unfold parse_tokens, parse. fold S0.
  rewrite (bind_ok _ _ _ _ _ (peek_rest S0 Hw0)).
  destruct (is_str (hd_error (rest S0)) "{").
  { assert (Ht : with_fuel parse_fuel parse_dict S0 = Ok (v, s'))
      by (apply (parse_dict_fuel n); assumption).
    rewrite (bind_ok _ _ _ _ _ Ht), ensure_end_ok by assumption. reflexivity. }
  destruct (is_str (hd_error (rest S0)) "[").
  { assert (Ht : with_fuel parse_fuel parse_list S0 = Ok (v, s'))
      by (apply (parse_list_fuel n); assumption).
    rewrite (bind_ok _ _ _ _ _ Ht), ensure_end_ok by assumption. reflexivity. }
  exfalso. destruct (hd_error (rest S0)) as [[[|c r]|z|q]|]; try discriminate.
  - destruct (Ascii.eqb c quote); [|discriminate].
    apply bind_inv in Hv. destruct Hv as (x & s1 & _ & Hv).
    injection Hv as <- _. discriminate.
  - apply bind_inv in Hv. destruct Hv as (x & s1 & Hn & Hv).
    injection Hv as <- _. destruct x; discriminate.
  - apply bind_inv in Hv. destruct Hv as (x & s1 & Hn & Hv).
    injection Hv as <- _. destruct x; discriminate.
Qed.

Lemma value_tokens_of_parse (tokens : list token) (v : value) :
  parse_tokens tokens = Ok v -> value_tokens tokens v /\ is_container v = true.
Proof.
  unfold parse_tokens. intros H.
  set (S0 := Stream_init tokens) in *.
  pose proof (wf_init tokens) as Hw0. fold S0 in Hw0.
  destruct (parse S0) as [[tree s1]| |] eqn:Hp; try discriminate.
  injection H as ->.
  pose proof (post_parse S0 Hw0) as Hpost. unfold post in Hpost.
  rewrite Hp in Hpost. destruct Hpost as (Hw1 & Hd & _).
  unfold parse in Hp.
  apply bind_inv in Hp. destruct Hp as (token & s0 & Hpeek & Hp).
  rewrite peek_rest in Hpeek by assumption. injection Hpeek as <- <-.
  apply bind_inv in Hp. destruct Hp as (tree & sa & Htree & Hp).
  apply bind_inv in Hp. destruct Hp as (cur & s2 & Hcur & Hp).
  apply bind_inv in Hp. destruct Hp as (e & s3 & He & Hp).
  injection Hcur as <- <-. injection He as <- <-.
  destruct (_cursor sa <? _end sa) eqn:Hend.
  { apply bind_inv in Hp. destruct Hp as (? & ? & _ & Hp). discriminate. }
  injection Hp as -> ->.
  assert (Hc : _cursor s1 = Z.of_nat (length tokens)).
  { apply Z.ltb_ge in Hend. destruct Hw1 as [E [_ Hle]].
    rewrite Hd in E. simpl in E. lia. }
  assert (Hval : parse_value (S (parse_fuel S0)) S0 = Ok (v, s1)
                 /\ is_container v = true).
  { rewrite parse_value_S, (bind_ok _ _ _ _ _ (peek_rest S0 Hw0)).
    destruct (is_str (hd_error (rest S0)) "{").
    { split; [exact Htree | apply (parse_dict_is_dict _ _ _ _ Htree)]. }
    destruct (is_str (hd_error (rest S0)) "[").
    { split; [exact Htree | apply (parse_list_is_list _ _ _ _ Htree)]. }
    apply bind_inv in Htree. destruct Htree as (? & ? & _ & Htree). discriminate. }
  destruct Hval as [Hval Hcont]. split; [|assumption].
  exists (S (parse_fuel S0)), s1. auto.
Qed.

(** X11. [parse] and [parse_value]: a token list parses to [v] exactly
    when [parse_value] reads the whole list as [v] and [v] is a [dict]
    or a [list].  So a parse that returns has read every token. *)
Theorem parse_iff_value_tokens (tokens : list token) (v : value) :
  parse_tokens tokens = Ok v <-> (value_tokens tokens v /\ is_container v = true).
Proof.
  split.
  - apply value_tokens_of_parse.
  - intros [Hv Hc]. apply parse_of_value_tokens; assumption.
Qed.

(** X12. An array: for items that [parse_value] reads, the tokens [[],
    the items with a comma between two of them, an optional comma when
    there is an item, and []] parse to the list of the items' values,
    in order; with no item, to the empty list. *)
Theorem parse_array (items : list item) (comma : bool) :
  Forall item_ok items -> (comma = true -> items <> []) ->
  parse_tokens (array_tokens items comma) = Ok (VList (map snd items)).
Proof.
  intros Hok Hcomma. apply parse_of_value_tokens; [|reflexivity].
  apply value_tokens_array; assumption.
Qed.

Lemma parse_array_witness :
  parse_tokens [TStr "["; TInt 1; TStr ","; TStr "["; TStr "]"; TStr ",";
                TFloat (binary64_div 5 2); TStr ","; TStr "]"]
  = Ok (VList [VInt 1; VList []; VFloat (binary64_div 5 2)])
  /\ parse_tokens [TStr "["; TStr "]"] = Ok (VList []).
Proof.
  split.
  - apply (parse_array [([TInt 1], VInt 1); ([TStr "["; TStr "]"], VList []);
                        ([TFloat (binary64_div 5 2)], VFloat (binary64_div 5 2))] true).
    + repeat constructor.
      * exists 1%nat, (advance (Stream_init [TInt 1]) 1). split; reflexivity.
      * exists 2%nat, (advance (Stream_init [TStr "["; TStr "]"]) 2).
        split; reflexivity.
      * exists 1%nat, (advance (Stream_init [TFloat (binary64_div 5 2)]) 1). split; reflexivity.
    + discriminate.
  - apply (parse_array [] false); [constructor | discriminate].
Defined.

(** X13. What [parse_value] reads does not depend on the tokens behind
    it: when it reads the list [tokens] as [v], it returns [v] on every
    reader whose unread tokens start with [tokens], whatever follows,
    and leaves the reader behind them. *)
Theorem value_read_in_context (tokens : list token) (v : value)
    (more : list token) (n : nat) (s : Stream token) :
  value_tokens tokens v ->
  wf s -> rest s = tokens ++ more ->
  (2 * length (rest s) + 1 <= n)%nat ->
  exists s', parse_value n s = Ok (v, s')
             /\ wf s' /\ _data s' = _data s /\ rest s' = more
             /\ _cursor s' = _cursor s + Z.of_nat (length tokens).
Proof.
  intros Hv Hwf Hr Hn.
  destruct (value_in_context tokens v more n s Hv Hwf Hr Hn)
    as (s' & Hp & Hw & Hr' & Hc).
  exists s'. split; [assumption|]. split; [assumption|].
  split; [|auto].
  destruct (sim_parser n) as (Sv & _ & _).
  destruct (Sv [] s s v s' (ext_refl s Hwf) Hp) as ((_ & Hd & _) & _). exact Hd.
Qed.

Lemma value_read_in_context_witness :
  exists s', parse_value 7 (advance (Stream_init [TStr "["; TInt 1; TStr "]"]) 1)
             = Ok (VInt 1, s') /\ rest s' = [TStr "]"].
Proof.
  destruct (value_read_in_context [TInt 1] (VInt 1) [TStr "]"] 7
              (advance (Stream_init [TStr "["; TInt 1; TStr "]"]) 1))
    as (s' & H1 & _ & _ & H2 & _).
  - exists 1%nat, (advance (Stream_init [TInt 1]) 1). split; reflexivity.
  - unfold wf; simpl; lia.
  - reflexivity.
  - simpl. lia.
  - exists s'. split; [exact H1 | exact H2].
Defined.

Lemma parse_iff_value_tokens_witness :
  parse_tokens [TStr "["; TInt 1; TStr "]"] = Ok (VList [VInt 1]).
Proof.
  apply (proj2 (parse_iff_value_tokens [TStr "["; TInt 1; TStr "]"] (VList [VInt 1]))).
  split; [|reflexivity].
  exists 3%nat, (advance (Stream_init [TStr "["; TInt 1; TStr "]"]) 3).
  split; reflexivity.
Defined.

(** ** Errors of the parser *)

Lemma parse_fuel_S {T} (s : Stream T) : exists k, parse_fuel s = S (S k).
Proof. exists (2 * length (_data s))%nat. unfold parse_fuel. lia. Qed.

(** The parse of a token list that starts with [{]. *)
Lemma parse_tokens_dict (r : list token) :
  parse_tokens (TStr "{" :: r)
  = match (tree <- parse_dict (parse_fuel (Stream_init (TStr "{" :: r))) ;;
           cur <- get_cursor ;;
           e <- get_end ;;
           if cur <? e then (t <- peek ;; raise (ValueError (UnexpectedTokenAtEnd t)))
           else ret tree) (Stream_init (TStr "{" :: r)) with
    | Ok (tree, _) => Ok tree
    | Raise e => Raise e
    | OutOfFuel => OutOfFuel
    end.
Proof.
  unfold parse_tokens, parse.
  rewrite (bind_ok _ _ _ _ _ (peek_cons _ _ _ (wf_init _) (rest_init _))).
  reflexivity.
Qed.

(** The parse of a token list that starts with [[]. *)
Lemma parse_tokens_list (r : list token) :
  parse_tokens (TStr "[" :: r)
  = match (tree <- parse_list (parse_fuel (Stream_init (TStr "[" :: r))) ;;
           cur <- get_cursor ;;
           e <- get_end ;;
           if cur <? e then (t <- peek ;; raise (ValueError (UnexpectedTokenAtEnd t)))
           else ret tree) (Stream_init (TStr "[" :: r)) with
    | Ok (tree, _) => Ok tree
    | Raise e => Raise e
    | OutOfFuel => OutOfFuel
    end.
Proof.
  unfold parse_tokens, parse.
  rewrite (bind_ok _ _ _ _ _ (peek_cons _ _ _ (wf_init _) (rest_init _))).
  reflexivity.
Qed.

Lemma bind_raise {T A B} (m : M T A) (k : A -> M T B) s e :
  m s = Raise e -> bind m k s = Raise e.
Proof. unfold bind. intros ->. reflexivity. Qed.

Lemma consume_mismatch {T} `{Element T} (expected : T) (s : Stream T) x r :
  wf s -> rest s = x :: r -> elem_eqb x expected = false ->
  consume expected s = Raise (ValueError (Expected (elem_obj expected) (elem_obj x))).
Proof.
  intros Hwf Hr He. unfold consume.
  rewrite (bind_ok _ _ _ _ _ (next_cons s x r Hwf Hr)), He. reflexivity.
Qed.

Lemma consume_end {T} `{Element T} (expected : T) (s : Stream T) :
  wf s -> rest s = [] -> consume expected s = Raise IndexError.
Proof.
  intros Hwf Hr. unfold consume. apply bind_raise. apply next_nil; assumption.
Qed.

(** X14. The key of an object entry: after [{], a number token as key
    makes the parse raise [TypeError] (the number is sliced like a
    string); a string key followed by a token other than [:] raises
    the [ValueError] "Expected ':'" with that token, and a string key
    at the end of the tokens raises [IndexError]. *)
Theorem object_key_errors (k : string) (t : token) (r : list token) :
  (match t with TStr _ => False | _ => True end ->
   parse_tokens (TStr "{" :: t :: r) = Raise TypeError)
  /\ (py_eq t (TStr ":") = false ->
      parse_tokens (TStr "{" :: TStr k :: t :: r)
      = Raise (ValueError (Expected (TStr ":") t)))
  /\ parse_tokens [TStr "{"; TStr k] = Raise IndexError.
Proof.
  assert (Hopen : py_eq (TStr "{") (TStr "{") = true) by reflexivity.
  assert (Hstep : forall toks e,
             (forall n, parse_dict_loop (S n) []
                          (advance (Stream_init (TStr "{" :: toks)) 1) = Raise e) ->
             parse_tokens (TStr "{" :: toks) = Raise e).
  { intros toks e Hloop. rewrite parse_tokens_dict.
    destruct (parse_fuel_S (Stream_init (TStr "{" :: toks))) as [f ->].
    rewrite (bind_raise _ _ _ e); [reflexivity|].
    unfold parse_dict, parse_dict_with.
    rewrite (bind_ok _ _ _ _ _
               (@consume_ok token Element_token (TStr "{") _ _ _
                  (wf_init _) (rest_init _) Hopen)).
    apply bind_raise. apply Hloop. }
  split; [|split].
  - intros Ht. apply (Hstep (t :: r)). intros n.
    destruct (wf_advance (Stream_init (TStr "{" :: t :: r)) _ _ (wf_init _) (rest_init _))
      as [Hw1 Hr1].
    rewrite parse_dict_loop_S. apply bind_raise. unfold parse_str.
    rewrite (bind_ok _ _ _ _ _ (next_cons _ _ _ Hw1 Hr1)).
    destruct t; [contradiction | reflexivity | reflexivity].
  - intros Ht. apply (Hstep (TStr k :: t :: r)). intros n.
    destruct (wf_advance (Stream_init (TStr "{" :: TStr k :: t :: r)) _ _
                (wf_init _) (rest_init _)) as [Hw1 Hr1].
    destruct (wf_advance _ _ _ Hw1 Hr1) as [Hw2 Hr2].
    rewrite parse_dict_loop_S.
    rewrite (bind_ok _ _ _ _ _ (parse_str_ok _ _ _ Hw1 Hr1)).
    apply bind_raise.
    apply (@consume_mismatch token Element_token (TStr ":") _ t r Hw2 Hr2 Ht).
  - apply (Hstep [TStr k]). intros n.
    destruct (wf_advance (Stream_init [TStr "{"; TStr k]) _ _
                (wf_init _) (rest_init _)) as [Hw1 Hr1].
    destruct (wf_advance _ _ _ Hw1 Hr1) as [Hw2 Hr2].
    rewrite parse_dict_loop_S.
    rewrite (bind_ok _ _ _ _ _ (parse_str_ok _ _ _ Hw1 Hr1)).
    apply bind_raise.
    apply (@consume_end token Element_token (TStr ":") _ Hw2 Hr2).
Qed.

Lemma object_key_errors_witness :
  parse_tokens [TStr "{"; TInt 1; TStr ":"; TInt 2; TStr "}"] = Raise TypeError
  /\ parse_tokens [TStr "{"; TStr (quoted "a"); TInt 1; TStr "}"]
     = Raise (ValueError (Expected (TStr ":") (TInt 1))).
Proof.
  split.
  - apply (proj1 (object_key_errors EmptyString (TInt 1) [TStr ":"; TInt 2; TStr "}"])).
    exact I.
  - apply (proj1 (proj2 (object_key_errors (quoted "a") (TInt 1) [TStr "}"]))).
    reflexivity.
Defined.

(** X15. An array that is not closed: after [[] and a value, the end of
    the tokens raises [IndexError], and a token that is neither [,]
    nor []] raises the [ValueError] "Expected ']'" with that token. *)
Theorem array_not_closed (tokens : list token) (v : value) (t : token) (r : list token) :
  value_tokens tokens v ->
  parse_tokens (TStr "[" :: tokens) = Raise IndexError
  /\ (py_eq t (TStr ",") = false -> py_eq t (TStr "]") = false ->
      parse_tokens (TStr "[" :: tokens ++ t :: r)
      = Raise (ValueError (Expected (TStr "]") t))).
Proof.
  intros Hv.
  assert (Hopen : py_eq (TStr "[") (TStr "[") = true) by reflexivity.
  assert (Hgen : forall more e,
             (forall s1, wf s1 -> rest s1 = more ->
                is_str (hd_error more) "," = false
                /\ consume (TStr "]") s1 = Raise e) ->
             parse_tokens (TStr "[" :: tokens ++ more) = Raise e).
  { intros more e Hafter. rewrite parse_tokens_list.
    set (S0 := Stream_init (TStr "[" :: tokens ++ more)).
    destruct (parse_fuel_S S0) as [f Hf]. rewrite Hf.
    destruct (wf_advance S0 _ _ (wf_init _) (rest_init _)) as [Hw1 Hr1].
    destruct (value_in_context tokens v more (S f) _ Hv Hw1 Hr1)
      as (s1 & Hv1 & Hws1 & Hrs1 & _).
    { rewrite Hr1. unfold parse_fuel in Hf. simpl in Hf. lia. }
    destruct (parse_value_not_close _ _ _ _ Hw1 Hv1) as (t0 & r0 & Hrt & Hnc).
    destruct (Hafter s1 Hws1 Hrs1) as [Hpeek Hcons].
    rewrite (bind_raise _ _ _ e); [reflexivity|].
    unfold parse_list, parse_list_with.
    rewrite (bind_ok _ _ _ _ _
               (@consume_ok token Element_token (TStr "[") S0 _ _
                  (wf_init _) (rest_init _) Hopen)).
    assert (Hloop : parse_list_loop (S (S f)) [] (advance S0 1) = Ok ([v], s1)).
    { rewrite parse_list_loop_S.
      rewrite (bind_ok _ _ _ _ _ (peek_cons _ t0 r0 Hw1 Hrt)), Hnc. cbv [negb].
      rewrite (bind_ok _ _ _ _ _ Hv1).
      rewrite (bind_ok _ _ _ _ _ (peek_rest s1 Hws1)), Hrs1, Hpeek. reflexivity. }
    rewrite (bind_ok _ _ _ _ _ Hloop). apply bind_raise. exact Hcons. }
  split.
  - rewrite <- (app_nil_r tokens). apply Hgen. intros s1 Hw Hr.
    split; [reflexivity | apply (@consume_end token Element_token); assumption].
  - intros H1 H2. apply Hgen. intros s1 Hw Hr.
    split; [exact H1|].
    apply (@consume_mismatch token Element_token (TStr "]") s1 t r); assumption.
Qed.

Lemma array_not_closed_witness :
  parse_tokens [TStr "["; TInt 1] = Raise IndexError
  /\ parse_tokens [TStr "["; TInt 1; TInt 2; TStr "]"]
     = Raise (ValueError (Expected (TStr "]") (TInt 2))).
Proof.
  assert (Hv : value_tokens [TInt 1] (VInt 1)).
  { exists 1%nat, (advance (Stream_init [TInt 1]) 1). split; reflexivity. }
  split.
  - apply (proj1 (array_not_closed [TInt 1] (VInt 1) (TInt 2) [TStr "]"] Hv)).
  - apply (proj2 (array_not_closed [TInt 1] (VInt 1) (TInt 2) [TStr "]"] Hv));
      reflexivity.
Defined.

(** ** Documents: from the text to the value *)

Lemma doc_induction (P : doc -> Prop) :
  (forall ds, P (DInt ds)) ->
  (forall ds f, P (DFloat ds f)) ->
  (forall b, P (DStr b)) ->
  (forall items, Forall P items -> P (DList items)) ->
  (forall entries, Forall (fun e => P (snd e)) entries -> P (DDict entries)) ->
  forall d, P d.
Proof.
  intros HI HF HS HL HD. fix IH 1. intros [ds|ds f|b|items|entries].
  - apply HI.
  - apply HF.
  - apply HS.
  - apply HL. induction items as [|x xs IHx]; constructor; [apply IH | exact IHx].
  - apply HD. induction entries as [|[k x] es IHe]; constructor; [apply IH | exact IHe].
Qed.

Lemma items_tokens_doc (items : list doc) :
  map lexeme_token (sep_concat (LPunct ",") (map doc_lexemes items))
  = items_tokens (map (fun x => (doc_tokens x, doc_value x)) items).
Proof.
  induction items as [|x xs IH]; [reflexivity|].
  simpl map. simpl sep_concat. simpl items_tokens. rewrite map_app.
  fold (doc_tokens x). f_equal.
  destruct xs as [|y ys]; [reflexivity|].
  simpl map in *. cbn [map]. rewrite <- IH. reflexivity.
Qed.

Lemma entries_tokens_doc (entries : list (list ascii * doc)) :
  map lexeme_token
    (sep_concat (LPunct ",")
       (map (fun e => LStr (fst e) :: LPunct ":" :: doc_lexemes (snd e)) entries))
  = entries_tokens (map doc_entry entries).
Proof.
  induction entries as [|[k x] es IH]; [reflexivity|].
  simpl map. simpl sep_concat. simpl entries_tokens. rewrite map_app.
  fold (doc_tokens x). f_equal. f_equal. f_equal.
  destruct es as [|y ys]; [reflexivity|].
  cbn [map] in *. rewrite <- IH. reflexivity.
Qed.

Lemma dict_from_doc (entries : list (list ascii * doc)) : forall acc,
  dict_from (map doc_entry entries) acc
  = fold_left (fun acc kv => dict_set (fst kv) (snd kv) acc)
      (map (fun e => (string_of_list_ascii (fst e), doc_value (snd e))) entries) acc.
Proof.
  induction entries as [|[k x] es IH]; intros acc; [reflexivity|].
  simpl. unfold dict_from in IH. rewrite IH. f_equal.
  unfold entry_key, entry_value. simpl. f_equal. apply slice_quoted.
Qed.

Lemma doc_value_tokens : forall d,
  doc_ok d = true -> value_tokens (doc_tokens d) (doc_value d).
Proof.
  apply (doc_induction (fun d => doc_ok d = true -> value_tokens (doc_tokens d) (doc_value d))).
  - intros ds _. exists 1%nat, (advance (Stream_init (doc_tokens (DInt ds))) 1).
    split; reflexivity.
  - intros ds f _. exists 1%nat, (advance (Stream_init (doc_tokens (DFloat ds f))) 1).
    split; reflexivity.
  - intros b _. exists 1%nat, (advance (Stream_init (doc_tokens (DStr b))) 1).
    split; [|reflexivity].
    unfold doc_tokens. simpl doc_lexemes. simpl map.
    set (lit_tail := string_of_list_ascii (b ++ [quote])).
    rewrite parse_value_S.
    rewrite (bind_ok _ _ _ _ _ (peek_cons _ _ _ (wf_init _) (rest_init _))).
    change (is_str (Some (TStr (String quote lit_tail))) "{") with false.
    change (is_str (Some (TStr (String quote lit_tail))) "[") with false.
    cbv iota. change (Ascii.eqb quote quote) with true. cbv iota.
    rewrite (bind_ok _ _ _ _ _ (parse_str_ok _ _ _ (wf_init _) (rest_init _))).
    unfold ret. simpl doc_value. f_equal. f_equal. f_equal. apply (slice_quoted b).
  - intros items IH Hok. simpl in Hok.
    assert (Hitems : Forall item_ok (map (fun x => (doc_tokens x, doc_value x)) items)).
    { rewrite Forall_forall in *. intros i Hin. apply in_map_iff in Hin.
      destruct Hin as (x & <- & Hx). unfold item_ok. simpl.
      apply (IH x Hx). rewrite forallb_forall in Hok. apply Hok. assumption. }
    pose proof (value_tokens_array _ false Hitems ltac:(discriminate)) as Hv.
    rewrite map_map in Hv. cbn [snd] in Hv.
    unfold array_tokens in Hv. simpl app in Hv.
    unfold doc_tokens. simpl doc_lexemes. simpl map.
    rewrite map_app, items_tokens_doc. exact Hv.
  - intros entries IH Hok. simpl in Hok.
    apply andb_prop in Hok. destruct Hok as [Hne Hok].
    assert (Hes : Forall entry_ok (map doc_entry entries)).
    { rewrite Forall_forall in *. intros i Hin. apply in_map_iff in Hin.
      destruct Hin as (x & <- & Hx). unfold entry_ok, doc_entry. simpl.
      apply (IH x Hx). rewrite forallb_forall in Hok.
      specialize (Hok x Hx). apply andb_prop in Hok. apply Hok. }
    assert (Hnil : map doc_entry entries <> []).
    { destruct entries; [discriminate | discriminate]. }
    pose proof (value_tokens_object _ Hnil Hes) as Hv.
    unfold dict_of in Hv. rewrite dict_from_doc in Hv.
    unfold object_tokens in Hv.
    unfold doc_tokens. simpl doc_lexemes. simpl map.
    rewrite map_app, entries_tokens_doc. exact Hv.
Qed.

Lemma doc_container_value d : doc_container d = true -> is_container (doc_value d) = true.
Proof. destruct d; simpl; congruence. Qed.

(** X16. From the tokens to the value: for a document that is an array
    or an object and in which every object, at the top or nested at
    any depth, has at least one entry, the tokens parse to the value
    the document stands for; nested arrays and objects, empty arrays
    and repeated keys included, floats as the binary64 nearest to
    their decimal text. *)
Theorem parse_doc (d : doc) :
  doc_ok d = true -> doc_container d = true ->
  parse_tokens (doc_tokens d) = Ok (doc_value d).
Proof.
  intros Hok Hc. apply parse_of_value_tokens.
  - apply doc_value_tokens. assumption.
  - apply doc_container_value. assumption.
Qed.

Lemma parse_doc_witness :
  parse_tokens [TStr "{"; TStr (quoted "a"); TStr ":"; TStr "["; TInt 1; TStr ",";
                TStr "["; TStr "]"; TStr "]"; TStr ",";
                TStr (quoted "a"); TStr ":"; TStr (quoted "x"); TStr "}"]
  = Ok (VDict [("a"%string, VStr "x")]).
Proof.
  apply (parse_doc
           (DDict [(list_ascii_of_string "a",
                    DList [DInt (list_ascii_of_string "1"); DList []]);
                   (list_ascii_of_string "a", DStr (list_ascii_of_string "x"))])).
  - reflexivity.
  - reflexivity.
Defined.









(** ** The end of an object *)

Lemma length_entries_tokens (es : list entry) :
  (length es <= length (entries_tokens es))%nat.
Proof.
  induction es as [|[[k ts] v] es IH]; [simpl; lia|].
  simpl. rewrite length_app. destruct es; simpl in *; lia.
Qed.

(** The loop of [parse_dict] over the entries [es], up to the peek
    after the last of them. *)
Lemma dict_loop_run (es : list entry) :
  es <> [] -> Forall entry_ok es ->
  forall n d s more,
    wf s -> rest s = entries_tokens es ++ more ->
    (2 * length (rest s) + 1 <= n)%nat ->
    exists s1, wf s1 /\ rest s1 = more
      /\ parse_dict_loop n d s
         = (tok <- peek ;;
            if is_str tok ","
            then (next ;; parse_dict_loop (n - length es) (dict_from es d))
            else ret (dict_from es d)) s1.
Proof.
  induction es as [|[[k ts] v] es' IH]; intros Hne Hok n d s more Hwf Hr Hn;
    [congruence|].
  inversion Hok as [|e l Hv Hok']; subst e l. unfold entry_ok in Hv. simpl in Hv.
  destruct n as [|n]; [lia|].
  assert (Hcolon : py_eq (TStr ":") (TStr ":") = true) by reflexivity.
  simpl entries_tokens in Hr.
  set (X := match es' with
            | [] => []
            | _ :: _ => TStr "," :: entries_tokens es'
            end) in Hr.
  simpl app in Hr. rewrite <- app_assoc in Hr.
  set (post := X ++ more) in Hr.
  rewrite Hr in Hn. cbn [length] in Hn.
  destruct (wf_advance s _ _ Hwf Hr) as [Hw1 Hr1].
  destruct (wf_advance _ _ _ Hw1 Hr1) as [Hw2 Hr2].
  destruct (value_in_context ts v post n _ Hv Hw2 Hr2) as (s3 & Hv3 & Hw3 & Hr3 & _).
  { rewrite Hr2. lia. }
  rewrite parse_dict_loop_S.
  rewrite (bind_ok _ _ _ _ _ (parse_str_ok s k _ Hwf Hr)).
  rewrite (bind_ok _ _ _ _ _
             (@consume_ok token Element_token (TStr ":") _ _ _ Hw1 Hr1 Hcolon)).
  rewrite (bind_ok _ _ _ _ _ Hv3).
  destruct es' as [|e' es''].
  - exists s3. unfold post, X in Hr3. simpl app in Hr3.
    split; [assumption|]. split; [assumption|].
    simpl length. replace (S n - 1)%nat with n by lia. reflexivity.
  - change (rest s3 = TStr "," :: entries_tokens (e' :: es'') ++ more) in Hr3.
    destruct (wf_advance _ _ _ Hw3 Hr3) as [Hw4 Hr4].
    rewrite (bind_ok _ _ _ _ _ (peek_cons s3 _ _ Hw3 Hr3)).
    change (is_str (Some (TStr ",")) ",") with true. cbv iota.
    rewrite (bind_ok _ _ _ _ _ (next_cons s3 _ _ Hw3 Hr3)).
    destruct (IH ltac:(discriminate) Hok' n
                (dict_set (entry_key (k, ts, v)) (entry_value (k, ts, v)) d)
                (advance s3 1) more Hw4 Hr4) as (s1 & Hws1 & Hrs1 & Heq).
    { rewrite Hr4. rewrite length_app in Hn. unfold post, X in Hn.
      cbn [app length] in Hn. lia. }
    exists s1. split; [assumption|]. split; [assumption|].
    unfold entry_key, entry_value in Heq. simpl fst in Heq. simpl snd in Heq.
    rewrite Heq. reflexivity.
Qed.

(** X19. The end of an object: after [{] and entries that parse, the
    end of the tokens raises [IndexError]; a token that is neither [,]
    nor [}] raises the [ValueError] "Expected '}'" with that token;
    and a comma before the closing [}] raises [IndexError] (the brace
    is taken as a key, and no [:] follows), where an array accepts
    the comma. *)
Theorem object_end_errors (es : list entry) (t : token) (r : list token) :
  es <> [] -> Forall entry_ok es ->
  parse_tokens (TStr "{" :: entries_tokens es) = Raise IndexError
  /\ parse_tokens (TStr "{" :: entries_tokens es ++ [TStr ","; TStr "}"])
     = Raise IndexError
  /\ (py_eq t (TStr ",") = false -> py_eq t (TStr "}") = false ->
      parse_tokens (TStr "{" :: entries_tokens es ++ t :: r)
      = Raise (ValueError (Expected (TStr "}") t))).
Proof.
  intros Hne Hok.
  assert (Hopen : py_eq (TStr "{") (TStr "{") = true) by reflexivity.
  assert (Hcolon : py_eq (TStr ":") (TStr ":") = true) by reflexivity.
  assert (Hgen : forall more e,
             (forall s1 k, wf s1 -> rest s1 = more ->
                (d <- (tok <- peek ;;
                       if is_str tok ","
                       then (next ;; parse_dict_loop (S k) (dict_from es []))
                       else ret (dict_from es [])) ;;
                 consume (TStr "}") ;;
                 ret (VDict d)) s1 = Raise e) ->
             parse_tokens (TStr "{" :: entries_tokens es ++ more) = Raise e).
  { intros more e Hafter. rewrite parse_tokens_dict.
    set (S0 := Stream_init (TStr "{" :: entries_tokens es ++ more)).
    destruct (wf_advance S0 _ _ (wf_init _) (rest_init _)) as [Hw1 Hr1].
    destruct (dict_loop_run es Hne Hok (parse_fuel S0) [] _ more Hw1 Hr1)
      as (s1 & Hws1 & Hrs1 & Heq).
    { rewrite Hr1. unfold parse_fuel, S0. cbn [_data Stream_init length]. lia. }
    assert (Hk : exists k, (parse_fuel S0 - length es = S k)%nat).
    { pose proof (length_entries_tokens es).
      exists (parse_fuel S0 - length es - 1)%nat.
      unfold parse_fuel, S0. cbn [_data Stream_init length].
      rewrite length_app. lia. }
    destruct Hk as [k Hk]. rewrite Hk in Heq.
    rewrite (bind_raise _ _ _ e); [reflexivity|].
    unfold parse_dict, parse_dict_with.
    rewrite (bind_ok _ _ _ _ _
               (@consume_ok token Element_token (TStr "{") S0 _ _
                  (wf_init _) (rest_init _) Hopen)).
    unfold bind at 1. rewrite Heq.
    specialize (Hafter s1 k Hws1 Hrs1). unfold bind at 1 in Hafter. exact Hafter. }
  split; [|split].
  - rewrite <- (app_nil_r (entries_tokens es)). apply Hgen. intros s1 k Hw Hr.
    unfold bind at 1.
    rewrite (bind_ok _ _ _ _ _ (peek_rest s1 Hw)), Hr. cbn [hd_error is_str].
    unfold ret at 1. apply bind_raise.
    apply (@consume_end token Element_token); assumption.
  - apply Hgen. intros s1 k Hw Hr.
    destruct (wf_advance s1 _ _ Hw Hr) as [Hw2 Hr2].
    destruct (wf_advance _ _ _ Hw2 Hr2) as [Hw3 Hr3].
    apply bind_raise.
    rewrite (bind_ok _ _ _ _ _ (peek_cons s1 _ _ Hw Hr)).
    change (is_str (Some (TStr ",")) ",") with true. cbv iota.
    rewrite (bind_ok _ _ _ _ _ (next_cons s1 _ _ Hw Hr)).
    rewrite parse_dict_loop_S.
    rewrite (bind_ok _ _ _ _ _ (parse_str_ok _ _ _ Hw2 Hr2)).
    apply bind_raise. apply (@consume_end token Element_token); assumption.
  - intros H1 H2. apply Hgen. intros s1 k Hw Hr.
    unfold bind at 1.
    rewrite (bind_ok _ _ _ _ _ (peek_cons s1 _ _ Hw Hr)).
    cbn [is_str]. rewrite H1. unfold ret at 1. apply bind_raise.
    apply (@consume_mismatch token Element_token (TStr "}") s1 t r); assumption.
Qed.

Lemma object_end_errors_witness :
  parse_tokens [TStr "{"; TStr (quoted "a"); TStr ":"; TInt 1] = Raise IndexError
  /\ parse_tokens [TStr "{"; TStr (quoted "a"); TStr ":"; TInt 1; TStr ","; TStr "}"]
     = Raise IndexError
  /\ parse_tokens [TStr "{"; TStr (quoted "a"); TStr ":"; TInt 1; TStr "]"]
     = Raise (ValueError (Expected (TStr "}") (TStr "]"))).
Proof.
  assert (Hok : Forall entry_ok [(quoted "a", [TInt 1], VInt 1)]).
  { repeat constructor. exists 1%nat, (advance (Stream_init [TInt 1]) 1).
    split; reflexivity. }
  destruct (object_end_errors [(quoted "a", [TInt 1], VInt 1)] (TStr "]") []
              ltac:(discriminate) Hok) as (H1 & H2 & H3).
  split; [exact H1|]. split; [exact H2|]. apply H3; reflexivity.
Defined.

(** X20. An unexpected token where a value should start: on a string
    token that is neither [{] nor [[] and does not start with a quote
    (so [}], []], [:] and [,]), [parse_value] raises the [ValueError]
    "Unexpected JSON value" with that token. *)
Theorem unexpected_value_raises (n : nat) (s : Stream token) c str r :
  wf s -> rest s = TStr (String c str) :: r ->
  String c str <> "{"%string -> String c str <> "["%string -> c <> quote ->
  parse_value (S n) s = Raise (ValueError (UnexpectedValue (TStr (String c str)))).
Proof. apply parse_value_unexpected. Qed.

Lemma unexpected_value_raises_witness :
  parse_value 1 (Stream_init [TStr ","; TStr "]"])
  = Raise (ValueError (UnexpectedValue (TStr ","))).
Proof.
  apply (unexpected_value_raises 0 (Stream_init [TStr ","; TStr "]"])
           ","%char EmptyString [TStr "]"]).
  - apply wf_init.
  - reflexivity.
  - discriminate.
  - discriminate.
  - discriminate.
Defined.

(** ** The exceptions of the tokenizer *)

Lemma tokenize_num_loop_raises fuel : forall num is_float s e,
  wf s -> tokenize_num_loop fuel num is_float s = Raise e -> tokenize_exn e = true.
Proof.
  induction fuel as [|n IH]; intros num is_float s e Hwf H; [discriminate|].
  rewrite tokenize_num_loop_unfold in H by assumption.
  destruct (rest s) as [|c r] eqn:Hr; [injection H as <-; reflexivity|].
  destruct (wf_advance s c r Hwf Hr) as [Hw1 _].
  destruct (isnumeric c); [apply (IH _ _ _ _ Hw1 H)|].
  destruct (Ascii.eqb c dot); [|discriminate].
  destruct is_float; [injection H as <-; reflexivity | apply (IH _ _ _ _ Hw1 H)].
Qed.

Lemma tokenize_num_raises s e :
  wf s -> tokenize_num s = Raise e -> tokenize_exn e = true.
Proof.
  intros Hwf H. unfold tokenize_num, with_fuel, bind in H.
  destruct (tokenize_num_loop (fuel_of s) [] false s) as [[[joined is_float] s1]| |] eqn:E;
    try discriminate.
  - destruct is_float; unfold lift in H.
    + unfold py_float in H. destruct (split_dot joined) as [ip frac].
      destruct (ip ++ _) as [|c l]; [injection H as <-; reflexivity|].
      destruct (forallb isdecimal (c :: l)); [discriminate|].
      injection H as <-. reflexivity.
    + unfold py_int in H. destruct joined as [|c l]; [injection H as <-; reflexivity|].
      destruct (forallb isdecimal (c :: l)); [discriminate|].
      injection H as <-. reflexivity.
  - injection H as <-. apply (tokenize_num_loop_raises _ _ _ _ _ Hwf E).
Qed.

Lemma tokenize_str_raises s r e :
  wf s -> rest s = quote :: r -> tokenize_str s = Raise e -> e = IndexError.
Proof.
  intros Hwf Hr H.
  destruct (in_dec ascii_dec quote r) as [Hin|Hnin].
  - destruct (in_split_first Ascii.eqb quote r Ascii.eqb_eq Hin)
      as (body & tail & -> & Hnb).
    destruct (tokenize_str_ok s body tail Hwf Hr Hnb) as (s3 & Hok & _).
    rewrite Hok in H. discriminate.
  - unfold tokenize_str in H.
    assert (Hquote : Ascii.eqb quote quote = true) by reflexivity.
    rewrite (bind_ok _ _ _ _ _
               (@consume_ok ascii Element_char quote s _ _ Hwf Hr Hquote)) in H.
    destruct (wf_advance s _ _ Hwf Hr) as [Hw2 Hr2].
    unfold bind, with_fuel in H.
    rewrite tokenize_str_loop_unterminated in H;
      [congruence | assumption | rewrite Hr2; assumption | apply fuel_of_enough].
Qed.

Lemma tokenize_body_raises s e :
  wf s -> tokenize_body s = Raise e -> tokenize_exn e = true.
Proof.
  intros Hwf Hb.
  destruct (skip_whitespace_dropwhile s Hwf) as (s1 & Hs & Hf & Hr).
  destruct (rest s1) as [|c r] eqn:Hr1.
  { rewrite (tokenize_body_end s s1 Hwf Hs Hr1) in Hb. discriminate. }
  destruct (tokenize_body_dispatch s s1 c r Hwf Hs Hr1) as [Hw1 Hd].
  rewrite Hd in Hb. clear Hd.
  destruct (is_punct c).
  { rewrite (bind_ok _ _ _ _ _ (next_cons s1 c r Hw1 Hr1)) in Hb. discriminate. }
  destruct (Ascii.eqb_spec c quote) as [Hq|Hq].
  { subst c. unfold bind in Hb. destruct (tokenize_str s1) as [[lit s2]| |] eqn:E;
      try discriminate.
    injection Hb as <-. rewrite (tokenize_str_raises s1 r e0 Hw1 Hr1 E). reflexivity. }
  destruct (isnumeric c).
  { unfold bind in Hb. destruct (tokenize_num s1) as [[t s2]| |] eqn:E;
      try discriminate.
    injection Hb as <-. apply (tokenize_num_raises s1 e0 Hw1 E). }
  unfold bind, get_cursor, raise in Hb. injection Hb as <-. reflexivity.
Qed.

Lemma tokenize_loop_raises fuel : forall acc s e,
  wf s -> tokenize_loop fuel acc s = Raise e -> tokenize_exn e = true.
Proof.
  induction fuel as [|n IH]; intros acc s e Hwf H; [discriminate|].
  rewrite tokenize_loop_unfold in H.
  pose proof (post_tokenize_body s Hwf) as Hp. unfold post in Hp.
  destruct (tokenize_body s) as [[[tok|] s1]| |] eqn:Hb; try discriminate.
  - destruct Hp as [Hf _]. apply (IH _ _ _ (proj1 Hf) H).
  - injection H as <-. apply (tokenize_body_raises s e0 Hwf Hb).
Qed.

(** X21. The exceptions of [tokenize]: whatever the text, an exception
    it raises is the [IndexError] of an unterminated string, the
    [AttributeError] of a number at the end of the text, or one of the
    [ValueError]s "Unexpected char", "Invalid numeric" and that of
    [int] and [float]; never a [TypeError] and never the "Expected"
    error of [consume]. *)
Theorem tokenize_raises_only (text : string) (e : exn) :
  tokens_of text = Raise e -> tokenize_exn e = true.
Proof.
  unfold tokens_of, tokenize, with_fuel. intros H.
  destruct (tokenize_loop _ [] _) as [[toks s']| |] eqn:E; try discriminate.
  injection H as <-. apply (tokenize_loop_raises _ _ _ _ (wf_init _) E).
Qed.

Lemma tokenize_raises_only_witness :
  tokens_of "[1" = Raise AttributeError /\ tokenize_exn AttributeError = true.
Proof.
  split; [reflexivity|]. apply (tokenize_raises_only "[1"). reflexivity.
Defined.

(** ** The dicts of a parsed tree *)

Lemma distinct_snoc k : forall l,
  existsb (String.eqb k) l = false -> distinct l = true -> distinct (l ++ [k]) = true.
Proof.
  induction l as [|x l IH]; intros Hk Hd; [reflexivity|].
  cbn [existsb] in Hk. apply orb_false_iff in Hk. destruct Hk as [Hkx Hk].
  cbn [distinct app] in *. apply andb_true_iff in Hd. destruct Hd as [Hx Hd].
  apply andb_true_iff. split; [|apply IH; assumption].
  rewrite existsb_app. cbn [existsb]. rewrite (String.eqb_sym x k), Hkx.
  apply negb_true_iff in Hx. rewrite Hx. reflexivity.
Qed.

Lemma dict_inv_set k v d :
  value_ok v = true -> dict_inv d -> dict_inv (dict_set k v d).
Proof.
  intros Hv [Hd Ha]. split.
  - rewrite keys_dict_set. destruct (existsb (String.eqb k) (keys d)) eqn:E;
      [assumption | apply distinct_snoc; assumption].
  - clear Hd. induction d as [|[k' v'] r IH]; cbn [dict_set forallb snd] in *.
    + rewrite Hv. reflexivity.
    + apply andb_true_iff in Ha. destruct Ha as [Hv' Hr].
      destruct (String.eqb k' k); cbn [forallb snd].
      * rewrite Hv, Hr. reflexivity.
      * rewrite Hv', (IH Hr). reflexivity.
Qed.

Lemma value_ok_dict d : dict_inv d -> d <> [] -> value_ok (VDict d) = true.
Proof.
  intros [Hd Ha] Hn. cbn [value_ok]. rewrite Hd, Ha.
  destruct d; [congruence | reflexivity].
Qed.

Lemma parse_value_ok fuel :
  (forall s v s', parse_value fuel s = Ok (v, s') -> value_ok v = true)
  /\ (forall d s d' s', parse_dict_loop fuel d s = Ok (d', s') ->
        dict_inv d -> dict_inv d' /\ d' <> [])
  /\ (forall l s l' s', parse_list_loop fuel l s = Ok (l', s') ->
        forallb value_ok l = true -> forallb value_ok l' = true).
Proof.
  induction fuel as [|n (IHv & IHd & IHl)];
    [repeat split; intros; discriminate|].
  split; [|split].
  - intros s v s' H. rewrite parse_value_S in H.
    apply bind_inv in H. destruct H as (token & s1 & _ & H).
    destruct (is_str token "{").
    { unfold parse_dict, parse_dict_with in H.
      apply bind_inv in H. destruct H as (? & s2 & _ & H).
      apply bind_inv in H. destruct H as (d & s3 & Hl & H).
      apply bind_inv in H. destruct H as (? & s4 & _ & H).
      injection H as <- _.
      destruct (IHd _ _ _ _ Hl) as [Hi Hn]; [split; reflexivity|].
      apply value_ok_dict; assumption. }
    destruct (is_str token "[").
    { unfold parse_list, parse_list_with in H.
      apply bind_inv in H. destruct H as (? & s2 & _ & H).
      apply bind_inv in H. destruct H as (l & s3 & Hl & H).
      apply bind_inv in H. destruct H as (? & s4 & _ & H).
      injection H as <- _. cbn [value_ok]. apply (IHl _ _ _ _ Hl). reflexivity. }
    destruct token as [[[|c r]|z|q]|]; try discriminate.
    + destruct (Ascii.eqb c quote); [|discriminate].
      apply bind_inv in H. destruct H as (x & s2 & _ & H).
      injection H as <- _. reflexivity.
    + apply bind_inv in H. destruct H as (t & s2 & _ & H).
      injection H as <- _. destruct t; reflexivity.
    + apply bind_inv in H. destruct H as (t & s2 & _ & H).
      injection H as <- _. destruct t; reflexivity.
  - intros d s d' s' H Hi. rewrite parse_dict_loop_S in H.
    apply bind_inv in H. destruct H as (key & s1 & _ & H).
    apply bind_inv in H. destruct H as (? & s2 & _ & H).
    apply bind_inv in H. destruct H as (v & s3 & Hv & H).
    apply bind_inv in H. destruct H as (tok & s4 & _ & H).
    pose proof (dict_inv_set key v d (IHv _ _ _ Hv) Hi) as Hi'.
    destruct (is_str tok ",").
    + apply bind_inv in H. destruct H as (? & s5 & _ & H).
      apply (IHd _ _ _ _ H Hi').
    + injection H as <- _. split; [assumption | apply dict_set_not_nil].
  - intros l s l' s' H Hi. rewrite parse_list_loop_S in H.
    apply bind_inv in H. destruct H as (tok & s1 & _ & H).
    destruct (negb (is_str tok "]")).
    + apply bind_inv in H. destruct H as (v & s2 & Hv & H).
      apply bind_inv in H. destruct H as (tok' & s3 & _ & H).
      assert (Hi' : forallb value_ok (l ++ [v]) = true).
      { rewrite forallb_app, Hi. cbn [forallb]. rewrite (IHv _ _ _ Hv). reflexivity. }
      destruct (is_str tok' ",").
      * apply bind_inv in H. destruct H as (? & s4 & _ & H).
        apply (IHl _ _ _ _ H Hi').
      * injection H as <- _. assumption.
    + injection H as <- _. assumption.
Qed.

(** X22. The dicts of a parsed tree: in every tree that [parse]
    returns, every [dict], at any depth, has at least one key (the
    empty object is never produced) and no key twice. *)
Theorem parsed_dicts_nonempty (tokens : list token) (v : value) :
  parse_tokens tokens = Ok v -> value_ok v = true.
Proof.
  intros H. destruct (value_tokens_of_parse tokens v H) as [(fuel & s' & Hv & _) _].
  apply (proj1 (parse_value_ok fuel) _ _ _ Hv).
Qed.

Lemma parsed_dicts_nonempty_witness :
  parse_tokens [TStr "["; TStr "{"; TStr (quoted "a"); TStr ":"; TStr "["; TStr "]";
                TStr "}"; TStr ","; TInt 1; TStr "]"]
  = Ok (VList [VDict [("a"%string, VList [])]; VInt 1])
  /\ value_ok (VList [VDict [("a"%string, VList [])]; VInt 1]) = true.
Proof.
  split; [reflexivity|].
  apply (parsed_dicts_nonempty
           [TStr "["; TStr "{"; TStr (quoted "a"); TStr ":"; TStr "["; TStr "]";
            TStr "}"; TStr ","; TInt 1; TStr "]"]).
  reflexivity.
Defined.

(** ** Termination *)

(** X23. Termination: on every text the loops of [tokenize] end within
    one iteration per character and one more, and on every list of
    tokens the recursion of [parse] ends within two calls per token and
    two more; so [tokenize], [parse] and the two in a row as [main]
    calls them always return or raise. *)
Theorem run_terminates (text : string) (tokens : list token) :
  tokens_of text <> OutOfFuel
  /\ parse_tokens tokens <> OutOfFuel
  /\ run text <> OutOfFuel.
Proof.
  split; [apply tokenize_total|].
  split; [apply parse_total | apply run_total].
Qed.

(** ** A number behind a document *)

(** A number scan that runs to the end of the text: the iteration of
    the loop of [tokenize] raises [AttributeError]. *)
Lemma tokenize_body_number_at_end s s1 d1 tail :
  wf s -> skip_whitespace s = Ok (tt, s1) -> rest s1 = d1 ++ tail ->
  d1 <> [] -> forallb isnumeric d1 = true ->
  tail = [] \/ (exists d2, tail = dot :: d2 /\ forallb isnumeric d2 = true) ->
  tokenize_body s = Raise AttributeError.
Proof.
  intros Hwf Hs Hr Hne Hd1 Htail.
  destruct d1 as [|c d1]; [congruence|].
  destruct (tokenize_body_number s s1 c d1 _ Hwf Hs Hr Hd1)
    as (s2 & fuel & Hw2 & Hr2 & Hc2 & Hdat2 & Hfuel & Hb).
  rewrite Hb. unfold bind at 1 2.
  destruct fuel as [|fuel]; [lia|].
  rewrite tokenize_num_loop_unfold, Hr2 by assumption.
  destruct Htail as [->|(d2 & -> & Hd2)]; [reflexivity|].
  change (isnumeric dot) with false. change (Ascii.eqb dot dot) with true.
  cbv iota.
  destruct (wf_advance s2 dot _ Hw2 Hr2) as [Hw3 Hr3].
  rewrite <- (app_nil_r d2) in Hr3.
  destruct (tokenize_num_loop_digits d2 (fuel - length d2)
              ((c :: d1) ++ [dot]) true (advance s2 1) _ Hw3 Hr3 Hd2)
    as (s4 & Hw4 & Hr4 & Hc4 & Hdat4 & Heq).
  simpl length in Hfuel.
  replace fuel with (length d2 + (fuel - length d2))%nat by lia.
  rewrite Heq.
  destruct (fuel - length d2)%nat as [|k] eqn:Hk; [lia|].
  rewrite tokenize_num_loop_unfold, Hr4 by assumption. reflexivity.
Qed.

(** The loop of [tokenize] in front of a layout, with more text behind
    it: it appends the tokens of the layout and comes to the text
    behind, with at most whitespace before it. *)
Lemma loop_state_layout data extra (items : layout) : forall ws0 acc s,
  loop_state data s acc ->
  rest s = ws0 ++ layout_text items ++ extra ->
  forallb isspace ws0 = true -> layout_ok items = true ->
  exists s' ws, loop_state data s' (acc ++ layout_tokens items)
                /\ rest s' = ws ++ extra /\ forallb isspace ws = true.
Proof.
  induction items as [|[l ws] items IH]; intros ws0 acc s Hls Hr Hws Hok.
  - exists s, ws0. simpl. rewrite app_nil_r. auto.
  - simpl in Hok. apply andb_prop in Hok. destruct Hok as [Hok Hrest].
    apply andb_prop in Hok. destruct Hok as [Hok Hsep].
    apply andb_prop in Hok. destruct Hok as [Hokl Hwsl].
    destruct (loop_state_inv _ _ _ Hls) as (Hwf & _ & _).
    assert (Hr' : rest s = ws0 ++ lexeme_text l ++ (ws ++ layout_text items ++ extra)).
    { rewrite Hr. cbn [layout_text]. rewrite <- !app_assoc. reflexivity. }
    destruct (tokenize_body_lexeme s ws0 l (ws ++ layout_text items ++ extra) Hwf
                Hr' Hws Hokl)
      as (s' & Hb & Hw' & Hrs').
    { intros Hn.
      destruct (layout_after_number l ws items Hwsl Hsep Hrest Hn)
        as (t & tail' & Heq & Ht & Hdot).
      exists t, (tail' ++ extra). split; [|auto].
      rewrite app_assoc, Heq. reflexivity. }
    destruct (IH ws (acc ++ [lexeme_token l]) s' (loop_next _ _ _ _ _ Hls Hb)
                Hrs' Hwsl Hrest) as (s'' & ws' & Hls' & Hr'' & Hws').
    exists s'', ws'. split; [|auto].
    cbn [layout_tokens map]. cbn [layout_tokens map] in Hls'.
    rewrite <- app_assoc in Hls'. exact Hls'.
Qed.

Lemma layout_ok_app (items more : layout) :
  layout_ok items = true -> layout_ok more = true -> layout_ok (items ++ more) = true.
Proof.
  induction items as [|[l ws] items IH]; intros Hok Hmore; [assumption|].
  cbn [layout_ok app] in *.
  apply andb_prop in Hok. destruct Hok as [Hok Hrest].
  apply andb_prop in Hok. destruct Hok as [Hok Hsep].
  rewrite Hok, (IH Hrest Hmore), andb_true_r. cbn [andb].
  destruct items as [|[l' ws'] items]; [|exact Hsep].
  rewrite orb_false_r in Hsep. cbn [app]. rewrite Hsep. reflexivity.
Qed.

Lemma layout_text_app (items more : layout) :
  layout_text (items ++ more) = layout_text items ++ layout_text more.
Proof.
  induction items as [|[l ws] items IH]; [reflexivity|].
  cbn [layout_text app]. rewrite IH, <- !app_assoc. reflexivity.
Qed.

Lemma run_raise (text : string) (e : exn) :
  tokens_of text = Raise e -> run text = Raise e.
Proof. intros H. rewrite run_parse_tokens, H. reflexivity. Qed.

(** C2. After a complete document, a number that runs to the end of
    the text (the claim's own [[1]2]) does not get to the test of
    [parse] for further tokens: [tokenize] raises [AttributeError] on
    it, where the document alone is accepted and the same number with
    one whitespace character behind it makes [parse] raise the
    [ValueError] "Unexpected token at end of file". *)
Theorem trailing_number_raises (ws0 : list ascii) (items : layout) (v : value)
    (d1 tail : list ascii) :
  forallb isspace ws0 = true -> layout_ok items = true ->
  parse_tokens (layout_tokens items) = Ok v ->
  d1 <> [] -> forallb isnumeric d1 = true ->
  tail = [] \/ (exists d2, tail = dot :: d2 /\ forallb isnumeric d2 = true) ->
  run (string_of_list_ascii (ws0 ++ layout_text items)) = Ok v
  /\ run (string_of_list_ascii (ws0 ++ layout_text items ++ d1 ++ tail))
     = Raise AttributeError
  /\ (forall w, forallb isdecimal d1 = true -> isspace w = true ->
      run (string_of_list_ascii (ws0 ++ layout_text items ++ d1 ++ [w]))
      = Raise (ValueError (UnexpectedTokenAtEnd (Some (TInt (decimal_value d1)))))).
Proof.
  intros Hws Hok Hp Hne Hd1 Htail. split; [|split].
  - rewrite run_parse_tokens, tokens_of_layout by assumption. exact Hp.
  - apply run_raise.
    set (data := ws0 ++ layout_text items ++ d1 ++ tail).
    destruct (loop_state_layout data (d1 ++ tail) items ws0 [] (Stream_init data)
                (loop_start data) (rest_init data) Hws Hok)
      as (s' & ws & Hls & Hr & Hwsp).
    destruct (loop_state_inv _ _ _ Hls) as (Hwf & _ & _).
    destruct (skip_whitespace_dropwhile s' Hwf) as (s1 & Hs & _ & Hr1).
    destruct d1 as [|c d1]; [congruence|].
    assert (Hc : isspace c = false).
    { apply numeric_not_space. simpl in Hd1. apply andb_prop in Hd1. apply Hd1. }
    rewrite Hr in Hr1. cbn [app] in Hr1.
    rewrite (dropwhile_app_stop isspace ws c _ Hwsp Hc) in Hr1.
    apply (loop_state_raise _ s' ([] ++ layout_tokens items)).
    + rewrite list_ascii_of_string_of_list_ascii. exact Hls.
    + apply (tokenize_body_number_at_end s' s1 (c :: d1) tail);
        [assumption | assumption | exact Hr1 | discriminate | assumption | assumption].
  - intros w Hdec Hw.
    assert (Hlast : layout_ok [(LInt d1, [w])] = true).
    { cbn [layout_ok lexeme_ok forallb is_number length]. rewrite Hdec, Hw.
      destruct d1; [congruence | reflexivity]. }
    assert (Htext : ws0 ++ layout_text items ++ d1 ++ [w]
                    = ws0 ++ layout_text (items ++ [(LInt d1, [w])])).
    { rewrite layout_text_app. cbn [layout_text lexeme_text].
      rewrite app_nil_r. reflexivity. }
    rewrite Htext, run_parse_tokens,
      (tokens_of_layout ws0 _ Hws (layout_ok_app _ _ Hok Hlast)).
    unfold layout_tokens. rewrite map_app. cbn [map fst lexeme_token].
    apply (parse_trailing _ [TInt (decimal_value d1)] v); [exact Hp | discriminate].
Qed.

Lemma trailing_number_raises_witness :
  run "[1]" = Ok (VList [VInt 1])
  /\ run "[1]2" = Raise AttributeError
  /\ run "[1]2 " = Raise (ValueError (UnexpectedTokenAtEnd (Some (TInt 2)))).
Proof.
  destruct (trailing_number_raises []
              [(LPunct "[", []); (LInt (list_ascii_of_string "1"), []); (LPunct "]", [])]
              (VList [VInt 1]) (list_ascii_of_string "2") [])
    as (H1 & H2 & H3).
  - reflexivity.
  - reflexivity.
  - reflexivity.
  - discriminate.
  - reflexivity.
  - left. reflexivity.
  - split; [exact H1|]. split; [exact H2|].
    apply (H3 " "%char); reflexivity.
Defined.
